(** * DVID voxel block engine: block codec, extents, transfer, version mutexes

    A shallow embedding of the parts of the DVID sources that the block
    engine rests on:

    - [dvid] serialization (SerializeData / DeserializeData and the frame
      byte), from the serialization file of package dvid;
    - [dvid] geometry (DataShape, Subvolume, OrthogSlice), from
      dvid/geometry.go;
    - [dvid] commands and configurations (Config, Command), from
      dvid/command.go;
    - [voxels] (Extents, NewExtHandler, ComputeTransform, transferBlock,
      processChunk, PutImage, GetVoxels, littleToBigEndian), from
      datatype/voxels/voxels.go;
    - [datastore] NewDataService and VersionMutex, from the datastore data
      file.

    Go's fixed-width integers are integers of [Z] with the wrap-around
    written out; byte slices are [list byte]; Go maps are [gmap]s. *)

From Stdlib Require Import ZArith Lia List String Ascii.
From Stdlib.Strings Require Import Byte.
From stdpp Require Import base list gmap strings.

Open Scope Z_scope.

(** ** Machine integers and bytes *)

Definition wrap8 (z : Z) : Z := z mod 256.
Definition wrap_u32 (z : Z) : Z := z mod 2 ^ 32.

(** Two's complement int32 and int64. *)
Definition wrap32 (z : Z) : Z := (z + 2 ^ 31) mod 2 ^ 32 - 2 ^ 31.
Definition wrap64 (z : Z) : Z := (z + 2 ^ 63) mod 2 ^ 64 - 2 ^ 63.

Definition add32 (a b : Z) : Z := wrap32 (a + b).
Definition sub32 (a b : Z) : Z := wrap32 (a - b).
Definition mul32 (a b : Z) : Z := wrap32 (a * b).
Definition mul64 (a b : Z) : Z := wrap64 (a * b).

Definition MinInt32 : Z := - 2 ^ 31.
Definition MaxInt32 : Z := 2 ^ 31 - 1.

Definition byte_to_Z (b : byte) : Z := Z.of_N (Byte.to_N b).

Definition byte_of_Z (z : Z) : byte :=
  match Byte.of_N (Z.to_N (wrap8 z)) with
  | Some b => b
  | None => x00
  end.

(** Go's [(value, error)] return convention, for functions whose value is
    nil whenever the error is not. *)
Inductive result (A : Type) : Type :=
| Ok (a : A)
| Err (msg : string).
Arguments Ok {A} a.
Arguments Err {A} msg.

(** A call that either returns or stops in a run-time panic (slice bounds,
    negative make, log.Fatal). *)
Inductive outcome (A : Type) : Type :=
| Returns (a : A)
| Panics.
Arguments Returns {A} a.
Arguments Panics {A}.

(** Go's [make([]byte, n)]. *)
Definition make_bytes (n : Z) : list byte := replicate (Z.to_nat n) x00.

(** ** hash/crc32.ChecksumIEEE

    The IEEE CRC-32 of the Go standard library (reflected polynomial
    0xEDB88320, initial value and final complement 0xFFFFFFFF), in its
    bit-at-a-time form; the library's table is this recurrence tabulated. *)
Module crc32.

Definition IEEE : Z := 0xedb88320.

Definition shift1 (c : Z) : Z :=
  Z.lxor (Z.shiftr c 1) (if Z.testbit c 0 then IEEE else 0).

Definition update_byte (c : Z) (b : byte) : Z :=
  Nat.iter 8 shift1 (Z.lxor c (byte_to_Z b)).

Definition update (c : Z) (p : list byte) : Z :=
  Z.lxor (fold_left update_byte p (Z.lxor c 0xffffffff)) 0xffffffff.

Definition ChecksumIEEE (p : list byte) : Z := update 0 p.

End crc32.

(** ** encoding/binary, little endian, and bytes.Buffer reads *)
Module binary.

Definition PutUint32 (v : Z) : list byte :=
  [byte_of_Z v; byte_of_Z (Z.shiftr v 8);
   byte_of_Z (Z.shiftr v 16); byte_of_Z (Z.shiftr v 24)].

Definition Uint32 (b0 b1 b2 b3 : byte) : Z :=
  Z.lor (Z.lor (Z.lor (byte_to_Z b0) (Z.shiftl (byte_to_Z b1) 8))
               (Z.shiftl (byte_to_Z b2) 16))
        (Z.shiftl (byte_to_Z b3) 24).

(** [binary.Read(buffer, LittleEndian, &x)] for a one-byte [x]: the value
    and the rest of the buffer, or EOF. *)
Definition ReadUint8 (buf : list byte) : result (Z * list byte) :=
  match buf with
  | b :: rest => Ok (byte_to_Z b, rest)
  | [] => Err "EOF"
  end.

(** The same for a uint32: short input is an error. *)
Definition ReadUint32 (buf : list byte) : result (Z * list byte) :=
  match buf with
  | b0 :: b1 :: b2 :: b3 :: rest => Ok (Uint32 b0 b1 b2 b3, rest)
  | [] => Err "EOF"
  | _ => Err "unexpected EOF"
  end.

(** [binary.PutUvarint]: seven bits a byte, least significant first. *)
Fixpoint PutUvarint_aux (fuel : nat) (x : Z) : list byte :=
  match fuel with
  | O => [byte_of_Z x]
  | S fuel' =>
      if x <? 128 then [byte_of_Z x]
      else byte_of_Z (Z.lor (Z.land x 127) 128)
             :: PutUvarint_aux fuel' (Z.shiftr x 7)
  end.

Definition PutUvarint (x : Z) : list byte := PutUvarint_aux 9 x.

(** [binary.Uvarint]: the value and the number of bytes read; 0 bytes
    read when the buffer ends early, a negative count on overflow. *)
Fixpoint Uvarint_aux (buf : list byte) (x s i : Z) : Z * Z :=
  match buf with
  | [] => (0, 0)
  | b :: rest =>
      let bz := byte_to_Z b in
      if bz <? 128 then
        if (9 <? i) || ((i =? 9) && (1 <? bz)) then (0, - (i + 1))
        else (Z.lor x (Z.shiftl bz s), i + 1)
      else Uvarint_aux rest (Z.lor x (Z.shiftl (Z.land bz 127) s)) (s + 7) (i + 1)
  end.

Definition Uvarint (buf : list byte) : Z * Z := Uvarint_aux buf 0 0 0.

(** [binary.BigEndian.PutUint32]: most significant byte first. *)
Definition BigEndian_PutUint32 (v : Z) : list byte :=
  [byte_of_Z (Z.shiftr v 24); byte_of_Z (Z.shiftr v 16);
   byte_of_Z (Z.shiftr v 8); byte_of_Z v].

(** [binary.LittleEndian.Uint64] and [binary.BigEndian.PutUint64]. *)
Definition Uint64 (b0 b1 b2 b3 b4 b5 b6 b7 : byte) : Z :=
  Z.lor (Z.lor (Z.lor (Z.lor (Z.lor (Z.lor (Z.lor
    (byte_to_Z b0) (Z.shiftl (byte_to_Z b1) 8)) (Z.shiftl (byte_to_Z b2) 16))
    (Z.shiftl (byte_to_Z b3) 24)) (Z.shiftl (byte_to_Z b4) 32))
    (Z.shiftl (byte_to_Z b5) 40)) (Z.shiftl (byte_to_Z b6) 48))
    (Z.shiftl (byte_to_Z b7) 56).

Definition BigEndian_PutUint64 (v : Z) : list byte :=
  [byte_of_Z (Z.shiftr v 56); byte_of_Z (Z.shiftr v 48);
   byte_of_Z (Z.shiftr v 40); byte_of_Z (Z.shiftr v 32);
   byte_of_Z (Z.shiftr v 24); byte_of_Z (Z.shiftr v 16);
   byte_of_Z (Z.shiftr v 8); byte_of_Z v].

End binary.

(** ** The Snappy library the codec calls

    [snappy.Encode] and [snappy.Decode] belong to an external package; the
    codec is stated over this interface. *)
Class SnappyLib : Type := {
  snappy_Encode : list byte -> result (list byte);
  snappy_Decode : list byte -> result (list byte)
}.

(** A reference implementation of the interface over the Snappy block
    format: the decoder reads the length preamble and then literal, one-byte
    offset and two-byte offset copy elements; the encoder emits the preamble
    and one literal element, as the library itself does for short input. *)
Module snappy.

Definition ErrCorrupt : string := "snappy: corrupt input".

Definition tagLiteral : Z := 0.
Definition tagCopy1 : Z := 1.
Definition tagCopy2 : Z := 2.
Definition tagCopy4 : Z := 3.

Definition byte_at (src : list byte) (i : Z) : Z :=
  match src !! Z.to_nat i with
  | Some b => byte_to_Z b
  | None => 0
  end.

(** [for ; d < end; d++ { dst[d] = dst[d-offset] }] on the decoded prefix. *)
Fixpoint copy_back (n : nat) (offset : Z) (out : list byte) : list byte :=
  match n with
  | O => out
  | S n' =>
      let d := Z.of_nat (length out) in
      let b := match out !! Z.to_nat (d - offset) with
               | Some b => b
               | None => x00
               end in
      copy_back n' offset (out ++ [b])
  end.

(** The element loop of [Decode]: [s] is the read position, [out] the
    bytes decoded so far ([d] is its length), [dLen] the announced size. *)
Fixpoint decode_loop (fuel : nat) (src : list byte) (dLen s : Z)
    (out : list byte) : result (list byte) :=
  match fuel with
  | O => Err ErrCorrupt
  | S fuel' =>
      let len := Z.of_nat (length src) in
      let d := Z.of_nat (length out) in
      if negb (s <? len) then
        if d =? dLen then Ok out else Err ErrCorrupt
      else
        let tag := byte_at src s in
        let kind := Z.land tag 3 in
        if kind =? tagLiteral then
          let x := Z.shiftr tag 2 in
          let hdr := if x <? 60 then 1 else x - 58 in
          let s' := s + hdr in
          if len <? s' then Err ErrCorrupt
          else
            let x' :=
              if x <? 60 then x
              else if x =? 60 then byte_at src (s' - 1)
              else if x =? 61 then
                Z.lor (byte_at src (s' - 2)) (Z.shiftl (byte_at src (s' - 1)) 8)
              else if x =? 62 then
                Z.lor (Z.lor (byte_at src (s' - 3))
                             (Z.shiftl (byte_at src (s' - 2)) 8))
                      (Z.shiftl (byte_at src (s' - 1)) 16)
              else
                Z.lor (Z.lor (Z.lor (byte_at src (s' - 4))
                                    (Z.shiftl (byte_at src (s' - 3)) 8))
                             (Z.shiftl (byte_at src (s' - 2)) 16))
                      (Z.shiftl (byte_at src (s' - 1)) 24) in
            let length := x' + 1 in
            if (dLen - d <? length) || (len - s' <? length) then Err ErrCorrupt
            else
              decode_loop fuel' src dLen (s' + length)
                (out ++ take (Z.to_nat length) (drop (Z.to_nat s') src))
        else if kind =? tagCopy4 then Err "snappy: unsupported COPY_4 tag"
        else
          let s' := if kind =? tagCopy1 then s + 2 else s + 3 in
          if len <? s' then Err ErrCorrupt
          else
            let length :=
              if kind =? tagCopy1 then 4 + Z.land (Z.shiftr tag 2) 7
              else 1 + Z.shiftr tag 2 in
            let offset :=
              if kind =? tagCopy1
              then Z.lor (Z.shiftl (Z.land tag 224) 3) (byte_at src (s' - 1))
              else Z.lor (byte_at src (s' - 2)) (Z.shiftl (byte_at src (s' - 1)) 8) in
            if (d <? offset) || (dLen <? d + length) then Err ErrCorrupt
            else decode_loop fuel' src dLen s' (copy_back (Z.to_nat length) offset out)
  end.

Definition Decode (src : list byte) : result (list byte) :=
  let '(v, n) := binary.Uvarint src in
  if n <=? 0 then Err ErrCorrupt
  else decode_loop (S (length src)) src v n [].

(** [emitLiteral]: the tag (with the length inline below 60, else in one
    to four following bytes) and the literal bytes. *)
Definition emitLiteral (lit : list byte) : list byte :=
  let n := Z.of_nat (length lit) - 1 in
  (if n <? 60 then [byte_of_Z (Z.lor (Z.shiftl n 2) tagLiteral)]
   else if n <? 2 ^ 8 then
     [byte_of_Z (Z.lor (Z.shiftl 60 2) tagLiteral); byte_of_Z n]
   else if n <? 2 ^ 16 then
     [byte_of_Z (Z.lor (Z.shiftl 61 2) tagLiteral); byte_of_Z n;
      byte_of_Z (Z.shiftr n 8)]
   else if n <? 2 ^ 24 then
     [byte_of_Z (Z.lor (Z.shiftl 62 2) tagLiteral); byte_of_Z n;
      byte_of_Z (Z.shiftr n 8); byte_of_Z (Z.shiftr n 16)]
   else
     [byte_of_Z (Z.lor (Z.shiftl 63 2) tagLiteral); byte_of_Z n;
      byte_of_Z (Z.shiftr n 8); byte_of_Z (Z.shiftr n 16);
      byte_of_Z (Z.shiftr n 24)]) ++ lit.

Definition Encode (src : list byte) : result (list byte) :=
  Ok (binary.PutUvarint (Z.of_nat (length src))
        ++ match src with [] => [] | _ => emitLiteral src end).

End snappy.

#[export] Instance snappy_reference : SnappyLib :=
  {| snappy_Encode := snappy.Encode; snappy_Decode := snappy.Decode |}.

(** ** Monadic sequencing for calls that may panic *)
#[export] Instance outcome_ret : MRet outcome := fun _ a => Returns a.
#[export] Instance outcome_bind : MBind outcome := fun _ _ k m =>
  match m with
  | Returns a => k a
  | Panics => Panics
  end.

(** * Package dvid *)
Module dvid.

(** ** Serialization *)

(** [type Compression uint8], with
    [const ( Uncompressed Compression = 0; Snappy = 1 << iota )]:
    [Snappy] stands on the second line of its block, where [iota] is 1. *)
Definition Uncompressed : Z := 0.
Definition Snappy : Z := Z.shiftl 1 1.

(** [type Checksum uint8], with
    [const ( NoChecksum Checksum = 0; CRC32 = 1 << iota )]. *)
Definition NoChecksum : Z := 0.
Definition CRC32 : Z := Z.shiftl 1 1.

(** [SerializationFormat] is a single byte combining both methods. *)
Definition EncodeSerializationFormat (compress checksum : Z) : Z :=
  let a := wrap8 (Z.shiftl (Z.land (wrap8 compress) 0x0F) 4) in
  let b := Z.land (wrap8 checksum) 0x0F in
  Z.lor a b.

Definition DecodeSerializationFormat (s : Z) : Z * Z :=
  (Z.shiftr (wrap8 s) 4, Z.land (wrap8 s) 0x0F).

Section Codec.
Context `{SnappyLib}.

(** Serialize a slice of bytes using optional compression, checksum:
    the format byte, then any checksum, then the data last. *)
Definition SerializeData (data : list byte) (compress checksum : Z)
    : result (list byte) :=
  let format := EncodeSerializationFormat compress checksum in
  let buffer := [byte_of_Z format] in
  let compressed :=
    if compress =? Uncompressed then Ok data
    else if compress =? Snappy then snappy_Encode data
    else Err "Illegal compression during serialization" in
  match compressed with
  | Err msg => Err msg
  | Ok byteData =>
      if checksum =? NoChecksum then Ok (buffer ++ byteData)
      else if checksum =? CRC32 then
        let crcChecksum := crc32.ChecksumIEEE byteData in
        Ok (buffer ++ binary.PutUint32 crcChecksum ++ byteData)
      else Err "Illegal checksum in serialize.SerializeData()"
  end.

(** The three named results [(data, compress, err)] of DeserializeData;
    [data] can be set while [err] is. *)
Record deserialized : Type := mkDeserialized {
  des_data : list byte;
  des_compress : Z;
  des_err : option string
}.

(** DeserializeData deserializes a slice of bytes using stored
    compression, checksum.  If [uncompress] is false, the data is not
    uncompressed. *)
Definition DeserializeData (s : list byte) (uncompress : bool) : deserialized :=
  match binary.ReadUint8 s with
  | Err msg => mkDeserialized [] 0 (Some msg)
  | Ok (format, buffer) =>
      let '(compress, checksum) := DecodeSerializationFormat format in
      (* Get any checksum. *)
      let stored :=
        if checksum =? NoChecksum then Ok (0, buffer)
        else if checksum =? CRC32 then binary.ReadUint32 buffer
        else Err "Illegal checksum in deserializing data" in
      match stored with
      | Err msg => mkDeserialized [] compress (Some msg)
      | Ok (storedCrc32, data) =>
          (* Perform any requested checksum *)
          let err :=
            if (checksum =? CRC32)
               && negb (crc32.ChecksumIEEE data =? storedCrc32)
            then Some "Bad checksum" else None in
          (* Uncompress if needed *)
          if uncompress then
            if compress =? Uncompressed then mkDeserialized data compress err
            else if compress =? Snappy then
              (* data, err = snappy.Decode(nil, data) *)
              match snappy_Decode data with
              | Ok d => mkDeserialized d compress None
              | Err msg => mkDeserialized [] compress (Some msg)
              end
            else mkDeserialized data compress
                   (Some "Illegal compression format in deserialization")
          else mkDeserialized data compress err
      end
  end.

End Codec.

(** ** Points

    Modelled from the spec: the Point, Chunkable and PointIndexer
    implementations (Point2d, Point3d, ChunkPoint3d, IndexZYX) are not among
    the sources.  A point is the list of its int32 coordinates; sums,
    differences, minima and maxima are component-wise; [Min] and [Max] also
    report whether the receiver was changed; a block coordinate's first
    voxel is [blockCoord * blockSize] and its last one
    [first + blockSize - 1]; a voxel's chunk is the floor of the division
    by the block size. *)
Definition Point : Type := list Z.

Definition NumDims (p : Point) : Z := Z.of_nat (length p).

(** Asking a point for a coordinate it does not have stops the program. *)
Definition Value (p : Point) (dim : Z) : outcome Z :=
  if dim <? 0 then Panics
  else match p !! Z.to_nat dim with
       | Some v => Returns v
       | None => Panics
       end.

Definition Add (p q : Point) : Point := zip_with add32 p q.
Definition Sub (p q : Point) : Point := zip_with sub32 p q.
Definition AddScalar (p : Point) (k : Z) : Point := (fun v => add32 v k) <$> p.

Definition Min (p q : Point) : Point * bool :=
  (zip_with Z.min p q, existsb (fun '(a, b) => b <? a) (zip p q)).
Definition Max (p q : Point) : Point * bool :=
  (zip_with Z.max p q, existsb (fun '(a, b) => a <? b) (zip p q)).

Definition Modify (p : Point) (settings : list (Z * Z)) : Point :=
  fold_left (fun acc '(dim, v) => <[Z.to_nat dim := v]> acc) settings p.

Definition Prod (p : Point) : Z := fold_left mul64 p 1.

Definition FirstPoint (index blockSize : Point) : Point := zip_with mul32 index blockSize.
Definition LastPoint (index blockSize : Point) : Point :=
  zip_with (fun f b => add32 f (sub32 b 1)) (FirstPoint index blockSize) blockSize.

Definition Chunk (p chunkSize : Point) : Point := zip_with Z.div p chunkSize.

(** ** DataShape (dvid/geometry.go) *)

(** DataShape describes the number of dimensions and the ordering of the
    dimensions. *)
Record DataShape : Type := mkDataShape {
  dims : Z;
  shape : list Z
}.

(** XY describes a 2d rectangle of voxels that share a z-coord. *)
Definition XY : DataShape := mkDataShape 3 [0; 1].
(** XZ describes a 2d rectangle of voxels that share a y-coord. *)
Definition XZ : DataShape := mkDataShape 3 [0; 2].
(** YZ describes a 2d rectangle of voxels that share a x-coord. *)
Definition YZ : DataShape := mkDataShape 3 [1; 2].
(** Arb describes a 2d rectangle of voxels with arbitrary 3d orientation. *)
Definition Arb : DataShape := mkDataShape 3 [].
(** Vol3d describes a 3d volume of voxels *)
Definition Vol3d : DataShape := mkDataShape 3 [0; 1; 2].

(** TotalDimensions returns the full dimensionality of space within which
    there is this DataShape: [int8(s.dims)], of a uint8. *)
Definition TotalDimensions (s : DataShape) : Z :=
  (dims s + 128) mod 256 - 128.

(** [int8(len(s.shape))]; a nil shape has length 0. *)
Definition ShapeDimensions (s : DataShape) : Z :=
  (Z.of_nat (length (shape s)) + 128) mod 256 - 128.

(** The loop of [Equals] over [s.shape], reading [s2.shape] at the same
    index; it runs only when the two lengths agree. *)
Fixpoint shape_loop (l l2 : list Z) : bool :=
  match l, l2 with
  | dim :: l', d2 :: l2' => if negb (d2 =? dim) then false else shape_loop l' l2'
  | _, _ => true
  end.

Definition Equals (s s2 : DataShape) : bool :=
  if (dims s =? dims s2) && (length (shape s) =? length (shape s2))%nat
  then shape_loop (shape s) (shape s2)
  else false.

(** ** Geometry (dvid/geometry.go)

    The Geometry interface, as the values its methods return. *)
Record Geometry : Type := mkGeometry {
  geom_DataShape : DataShape;
  Size : Point;
  NumVoxels : Z;
  StartPoint : Point;
  EndPoint : Point
}.

(** Subvolume describes a 3d box Geometry. *)
Record Subvolume : Type := mkSubvolume {
  sv_shape : DataShape;
  sv_offset : Point;
  sv_size : Point
}.

Definition NewSubvolume (offset size : Point) : Subvolume :=
  mkSubvolume Vol3d offset size.

Definition Subvolume_NumVoxels (s : Subvolume) : Z :=
  match sv_size s with
  | [] => 0
  | v0 :: rest => fold_left mul64 rest v0
  end.

Definition Subvolume_EndPoint (s : Subvolume) : Point :=
  Add (sv_offset s) (Sub (sv_size s) [1; 1; 1]).

Definition Subvolume_Geometry (s : Subvolume) : Geometry :=
  {| geom_DataShape := Vol3d;
     Size := sv_size s;
     NumVoxels := Subvolume_NumVoxels s;
     StartPoint := sv_offset s;
     EndPoint := Subvolume_EndPoint s |}.

(** OrthogSlice is a 2d rectangle orthogonal to two axis of the space. *)
Record OrthogSlice : Type := mkOrthogSlice {
  os_shape : DataShape;
  os_offset : Point;
  os_size : Z * Z;
  os_endPoint : Point
}.

(** NewOrthogSlice returns an OrthogSlice of chosen orientation, offset,
    and size.  A shape that passed the length test has an x and a y
    dimension. *)
Definition NewOrthogSlice (s : DataShape) (offset : Point) (size : Z * Z)
    : result OrthogSlice :=
  if negb (NumDims offset =? dims s) then
    Err "NewOrthogSlice: offset dimensionality != shape"
  else
    match shape s with
    | [xDim; yDim] =>
        if dims s <=? xDim then
          Err "NewOrthogSlice: X dimension of slice > # avail dims"
        else if dims s <=? yDim then
          Err "NewOrthogSlice: Y dimension of slice > # avail dims"
        else
          let ox := default 0 (offset !! Z.to_nat xDim) in
          let oy := default 0 (offset !! Z.to_nat yDim) in
          let settings := [(xDim, sub32 (add32 ox (fst size)) 1);
                           (yDim, sub32 (add32 oy (snd size)) 1)] in
          Ok {| os_shape := s;
                os_offset := offset;
                os_size := size;
                os_endPoint := Modify offset settings |}
    | _ => Err "NewOrthogSlice: shape not properly specified"
    end.

Definition OrthogSlice_NumVoxels (s : OrthogSlice) : Z :=
  mul32 (fst (os_size s)) (snd (os_size s)).

Definition OrthogSlice_Geometry (s : OrthogSlice) : Geometry :=
  {| geom_DataShape := os_shape s;
     Size := [fst (os_size s); snd (os_size s)];
     NumVoxels := OrthogSlice_NumVoxels s;
     StartPoint := os_offset s;
     EndPoint := os_endPoint s |}.

(** ** DataShape as bytes, Duplicate, GetNumBlocks (dvid/geometry.go) *)

Definition DataShapeBytes : Z := 7.

(** The loop of [Bytes]: [b[i+2] = s.shape[i]], which is out of range from
    the sixth shape dimension on. *)
Fixpoint Bytes_loop (sh : list Z) (i : Z) (b : list byte) : outcome (list byte) :=
  match sh with
  | [] => mret b
  | d :: rest =>
      if i + 2 <? Z.of_nat (length b)
      then Bytes_loop rest (i + 1) (<[Z.to_nat (i + 2) := byte_of_Z d]> b)
      else Panics
  end.

(** Bytes returns a fixed length byte representation that can be used for
    keys. *)
Definition Bytes (s : DataShape) : outcome (list byte) :=
  let b := make_bytes DataShapeBytes in
  let b := <[0%nat := byte_of_Z (dims s)]> b in
  let b := <[1%nat := byte_of_Z (Z.of_nat (length (shape s)))]> b in
  Bytes_loop (shape s) 0 b.

(** The loop of [BytesToDataShape]: [s.shape[i] = b[i+2]]. *)
Fixpoint BytesToDataShape_loop (n : nat) (i : Z) (b : list byte) (sh : list Z)
    : outcome (list Z) :=
  match n with
  | O => mret sh
  | S n' =>
      match b !! Z.to_nat (i + 2) with
      | Some x => BytesToDataShape_loop n' (i + 1) b (<[Z.to_nat i := byte_to_Z x]> sh)
      | None => Panics
      end
  end.

(** BytesToDataShape recovers a DataShape from a series of bytes; a nil
    slice and one of another length than seven are both refused. *)
Definition BytesToDataShape (b : list byte) : outcome (result DataShape) :=
  if negb (Z.of_nat (length b) =? DataShapeBytes) then
    mret (Err "Cannot convert bytes to DataShape")
  else
    match b with
    | b0 :: b1 :: _ =>
        let shapeLen := byte_to_Z b1 in
        sh ← BytesToDataShape_loop (Z.to_nat shapeLen) 0 b
               (replicate (Z.to_nat shapeLen) 0);
        mret (Ok (mkDataShape (byte_to_Z b0) sh))
    | _ => Panics
    end.

(** Go's [copy(dst, src)] on whole slices: the new contents of [dst]. *)
Definition copy_slice {A : Type} (dst src : list A) : list A :=
  let n := Nat.min (length dst) (length src) in
  take n src ++ drop n dst.

(** Duplicate: [dup := DataShape{dims: s.dims}; copy(dup.shape, s.shape)]. *)
Definition Duplicate (s : DataShape) : DataShape :=
  let dup := mkDataShape (dims s) [] in
  mkDataShape (dims dup) (copy_slice (shape dup) (shape s)).

(** ShapeDimension returns the axis number for a shape dimension. *)
Definition ShapeDimension (s : DataShape) (axis : Z) : result Z :=
  match shape s !! Z.to_nat axis with
  | Some d => Ok d
  | None => Err "Illegal dimension requested from DataShape"
  end.

(** The loop of [GetNumBlocks] over the dimensions, [n] of them left from
    [dim] on.  [%] and [/] on int32 truncate towards zero and panic on a
    zero divisor; [numBlocks] is an int, of 64 bits. *)
Fixpoint GetNumBlocks_loop (n : nat) (dim : Z) (startPt size blockSize : Point)
    (numBlocks : Z) : outcome Z :=
  match n with
  | O => mret numBlocks
  | S n' =>
      blockLength ← Value blockSize dim;
      start ← Value startPt dim;
      if blockLength =? 0 then Panics
      else
        let startMod := wrap32 (Z.rem start blockLength) in
        sz ← Value size dim;
        let len := add32 sz startMod in
        let blocks := wrap32 (Z.quot len blockLength) in
        let blocks :=
          if negb (wrap32 (Z.rem len blockLength) =? 0) then add32 blocks 1
          else blocks in
        GetNumBlocks_loop n' (dim + 1) startPt size blockSize (mul64 numBlocks blocks)
  end.

(** GetNumBlocks returns the number of n-d blocks necessary to cover the
    given geometry. *)
Definition GetNumBlocks (geom : Geometry) (blockSize : Point) : outcome Z :=
  GetNumBlocks_loop (Z.to_nat (NumDims (Size geom))) 0
    (StartPoint geom) (Size geom) blockSize 1.

(** The number of blocks of length [blockLength] that the voxels
    [start .. start + size - 1] of one axis meet. *)
Definition blocks_along (start size blockLength : Z) : Z :=
  (start + size - 1) / blockLength - start / blockLength + 1.

(** ** Commands and configurations (dvid/command.go) *)

(** [strings.Split(s, "=")]: the pieces of [s] between its "=" bytes, one
    more than there are "=" in [s]. *)
Fixpoint SplitEq (s : string) : list string :=
  match s with
  | EmptyString => [EmptyString]
  | String c rest =>
      if Ascii.eqb c "="%char then EmptyString :: SplitEq rest
      else match SplitEq rest with
           | piece :: pieces => String c piece :: pieces
           | [] => [String c EmptyString]
           end
  end.

(** Whether a string holds the byte "=". *)
Fixpoint has_eq (s : string) : bool :=
  match s with
  | EmptyString => false
  | String c rest => Ascii.eqb c "="%char || has_eq rest
  end.

(** The argument "key=value". *)
Definition key_value (key value : string) : string :=
  String.append key (String "="%char value).

(** A value of a Config, an [interface{}]: a string or something else. *)
Inductive ConfigValue : Type :=
| StringValue (s : string)
| NonString.

(** Config is a map of keyword to arbitrary data; [None] is the nil map.
    A Go map is shared with the caller, so a method that writes to it
    returns the map the caller sees afterwards. *)
Definition Config : Type := option (gmap string ConfigValue).

Definition NewConfig : Config :=
  Some (<["versioned"%string := StringValue "false"]> ∅).

(** IsVersioned returns true if we want this data versioned. *)
Definition IsVersioned (c : Config) : result bool * Config :=
  match c with
  | None => (Err "Config data structure has not been initialized", c)
  | Some m =>
      match m !! "versioned"%string with
      | None => (Ok false, Some (<["versioned"%string := StringValue "false"]> m))
      | Some NonString =>
          (Err "'versioned' in DVID configuration must be 'true' or 'false'", c)
      | Some (StringValue s) =>
          if String.eqb s "true" then (Ok true, c)
          else if String.eqb s "false" then (Ok false, c)
          else (Err "'versioned' in DVID configuration must be 'true' or 'false'", c)
      end
  end.

(** SetVersioned: on a nil receiver the map made is the method's own. *)
Definition SetVersioned (c : Config) (versioned : bool) : Config :=
  match c with
  | None => None
  | Some m =>
      Some (<["versioned"%string :=
                StringValue (if versioned then "true" else "false")]> m)
  end.

(** Command supports command-line interaction with DVID. *)
Definition Command : Type := list string.

(** The loop of [Setting] over [cmd[1:]]. *)
Fixpoint Setting_loop (args : list string) (key : string) : string * bool :=
  match args with
  | [] => (EmptyString, false)
  | arg :: rest =>
      match SplitEq arg with
      | [k; v] => if String.eqb k key then (v, true) else Setting_loop rest key
      | _ => Setting_loop rest key
      end
  end.

(** Setting scans a command for any "key=value" argument and returns the
    value of the passed 'key'. *)
Definition Setting (cmd : Command) (key : string) : string * bool :=
  if (1 <? length cmd)%nat then Setting_loop (drop 1 cmd) key
  else (EmptyString, false).

(** The loop of [getArgs] over [cmd[startPos:]]: the targets and the
    overflow so far. *)
Fixpoint getArgs_loop (args : list string) (numTargets curTarget : Z)
    (targets overflow : list string) : list string * list string :=
  match args with
  | [] => (targets, overflow)
  | arg :: rest =>
      if negb (length (SplitEq arg) =? 2)%nat then
        if numTargets <=? curTarget then
          getArgs_loop rest numTargets (curTarget + 1) targets (overflow ++ [arg])
        else
          getArgs_loop rest numTargets (curTarget + 1)
            (<[Z.to_nat curTarget := arg]> targets) overflow
      else getArgs_loop rest numTargets curTarget targets overflow
  end.

(** getArgs: the strings the [numTargets] targets point to after the call
    and the overflow slice; [cmd[startPos:]] panics on a negative start. *)
Definition getArgs (cmd : Command) (startPos : Z) (numTargets : nat)
    : outcome (list string * list string) :=
  let targets := replicate numTargets EmptyString in
  if startPos <? Z.of_nat (length cmd) then
    if startPos <? 0 then Panics
    else mret (getArgs_loop (drop (Z.to_nat startPos) cmd)
                 (Z.of_nat numTargets) 0 targets [])
  else mret (targets, []).

(** CommandArgs sets a variadic argument set of string pointers to data
    command arguments, ignoring setting arguments of the form
    "<key>=<value>". *)
Definition CommandArgs (cmd : Command) (startPos : Z) (numTargets : nat)
    : outcome (list string * list string) :=
  getArgs cmd startPos numTargets.

Section Lowercase.
(** [strings.ToLower] belongs to the Go library. *)
Variable ToLower : string -> string.

(** GetString returns a string value of the given key: the named results
    [(s, found, err)]. *)
Definition GetString (c : Config) (key : string) : string * bool * option string :=
  match c with
  | None => (EmptyString, false, Some "Cannot GetString on a nil Config"%string)
  | Some m =>
      match m !! ToLower key with
      | Some (StringValue s) => (s, true, None)
      | Some NonString =>
          (EmptyString, true, Some "Setting was not a string"%string)
      | None => (EmptyString, false, None)
      end
  end.

(** The loop of [Settings] over [cmd[1:]]. *)
Fixpoint Settings_loop (args : list string) (config : gmap string ConfigValue)
    : gmap string ConfigValue :=
  match args with
  | [] => config
  | arg :: rest =>
      match SplitEq arg with
      | [k; v] => Settings_loop rest (<[ToLower k := StringValue v]> config)
      | _ => Settings_loop rest config
      end
  end.

(** Settings scans a command for any "key=value" argument and returns a
    Config; all keys are converted to lower case. *)
Definition Settings (cmd : Command) : Config :=
  Some (if (1 <? length cmd)%nat then Settings_loop (drop 1 cmd) ∅ else ∅).

(** Name returns the first argument of the command (in lower case). *)
Definition Name (cmd : Command) : string :=
  match cmd with
  | [] => EmptyString
  | c :: _ => ToLower c
  end.

(** TypeCommand returns the name of a type-specific command (in lower
    case). *)
Definition TypeCommand (cmd : Command) : string :=
  match cmd !! 3%nat with
  | Some c => ToLower c
  | None => EmptyString
  end.
End Lowercase.

End dvid.

(** * Package datastore *)
Module datastore.

(** DataID holds the identifiers of a data instance. *)
Record DataID : Type := mkDataID {
  Name : string;
  ID : Z;
  DsetID : Z
}.

(** [nodeID{Dataset, Data, Version}] is the triple [(Dataset, Data, Version)]
    of 16-bit local ids.  [versionMutexes] is the package-level map of
    mutexes at the granularity of dataset/data/version; a mutex object is
    the address [new(sync.Mutex)] returned for it, and [allocated] counts the
    mutexes [new] has handed out. *)
Record MutexStore : Type := mkMutexStore {
  versionMutexes : gmap (Z * Z * Z) nat;
  allocated : nat
}.

(** [func init() { versionMutexes = make(map[nodeID]*sync.Mutex) }] *)
Definition init : MutexStore := mkMutexStore ∅ 0.

(** VersionMutex returns a Mutex that is specific for data at a particular
    version.  The function-local [mutex] it locks and unlocks around the
    look-up is a fresh, unlocked mutex in every call.  This is the function
    as it runs with no other call in between; [step] below gives its
    statements one by one. *)
Definition VersionMutex (d : DataID) (versionID : Z) (st : MutexStore)
    : nat * MutexStore :=
  let id := (DsetID d, ID d, versionID) in
  match versionMutexes st !! id with
  | Some vmutex => (vmutex, st)
  | None =>
      let vmutex := allocated st in
      (vmutex, mkMutexStore (<[id := vmutex]> (versionMutexes st)) (S (allocated st)))
  end.

(** A sequence of calls, one [(d, versionID)] a call, and the mutexes they
    return in order. *)
Fixpoint VersionMutex_calls (calls : list (DataID * Z)) (st : MutexStore)
    : list nat * MutexStore :=
  match calls with
  | [] => ([], st)
  | (d, versionID) :: rest =>
      let '(m, st') := VersionMutex d versionID st in
      let '(ms, st'') := VersionMutex_calls rest st' in
      (m :: ms, st'')
  end.

(** The [nodeID] a call is about. *)
Definition node (call : DataID * Z) : Z * Z * Z :=
  (DsetID (fst call), ID (fst call), snd call).

(** Every mutex the map holds was handed out by [new], and no two keys
    hold the same one. *)
Definition store_ok (st : MutexStore) : Prop :=
  (forall id m, versionMutexes st !! id = Some m -> (m < allocated st)%nat)
  /\ (forall id1 id2 m, versionMutexes st !! id1 = Some m ->
                        versionMutexes st !! id2 = Some m -> id1 = id2).

(** ** Calls that run at the same time

    VersionMutex is called by the handlers of requests, which run at the
    same time.  A call in progress is at one of the statements of the
    function and holds the local variables assigned so far: [AtLock] before
    [mutex.Lock()], [AtLookup] before [vmutex, found := versionMutexes[id]],
    [AtNew] before [vmutex = new(sync.Mutex)], [AtStore] before
    [versionMutexes[id] = vmutex], [AtUnlock] before [mutex.Unlock()], and
    [Returned] after [return vmutex]. *)
Inductive Call : Type :=
| AtLock (d : DataID) (versionID : Z)
| AtLookup (id : Z * Z * Z)
| AtNew (id : Z * Z * Z)
| AtStore (id : Z * Z * Z) (vmutex : nat)
| AtUnlock (vmutex : nat)
| Returned (vmutex : nat).

(** The next statement of a call, on the package-level map.  The guard is
    [var mutex sync.Mutex], a variable of the call: every call locks a
    mutex of its own, fresh and unlocked, so [mutex.Lock()] never waits for
    another call, and [mutex.Unlock()] releases nobody.  A call that has
    returned stays as it is. *)
Definition step (c : Call) (st : MutexStore) : Call * MutexStore :=
  match c with
  | AtLock d versionID => (AtLookup (DsetID d, ID d, versionID), st)
  | AtLookup id =>
      match versionMutexes st !! id with
      | Some vmutex => (AtUnlock vmutex, st)
      | None => (AtNew id, st)
      end
  | AtNew id =>
      (AtStore id (allocated st), mkMutexStore (versionMutexes st) (S (allocated st)))
  | AtStore id vmutex =>
      (AtUnlock vmutex, mkMutexStore (<[id := vmutex]> (versionMutexes st)) (allocated st))
  | AtUnlock vmutex => (Returned vmutex, st)
  | Returned vmutex => (Returned vmutex, st)
  end.

(** A schedule names, turn by turn, the call that runs its next statement;
    a turn that names no call is skipped. *)
Fixpoint run (schedule : list nat) (calls : list Call) (st : MutexStore)
    : list Call * MutexStore :=
  match schedule with
  | [] => (calls, st)
  | i :: rest =>
      match calls !! i with
      | Some c => let '(c', st') := step c st in run rest (<[i := c']> calls) st'
      | None => run rest calls st
      end
  end.

(** The schedule in which [n] calls, the first one call number [k], run one
    after the other, each its five statements. *)
Definition one_by_one (k n : nat) : list nat :=
  mjoin ((fun i => replicate 5 i) <$> seq k n).

(** Modelled from the spec: DataKey and KeyToPointIndexer are not among the
    sources.  A block key composes the dataset, data and version ids with
    the spatial index, here the block coordinate [x; y; z] the index
    encodes; a key that is not a DataKey has no point index. *)
Record DataKey : Type := mkDataKey {
  Dataset : Z;
  Data : Z;
  Version : Z;
  Index : dvid.Point
}.

Definition KeyToPointIndexer (k : option DataKey) : result dvid.Point :=
  match k with
  | Some key => Ok (Index key)
  | None => Err "Can't convert Key to PointIndexer"
  end.

(** Data is an instance of a data type with some identifiers; of its
    fields, the identifiers and the versioning flag. *)
Record BaseData : Type := mkBaseData {
  base_DataID : DataID;
  Unversioned : bool
}.

(** NewDataService returns a base data struct and sets the versioning
    depending on config: the struct, the error and the config the caller
    holds afterwards. *)
Definition NewDataService (id : DataID) (config : dvid.Config)
    : BaseData * option string * dvid.Config :=
  let data := mkBaseData id false in
  match dvid.IsVersioned config with
  | (Err msg, config') => (data, Some msg, config')
  | (Ok versioned, config') => (mkBaseData id (negb versioned), None, config')
  end.

Definition IsVersioned (d : BaseData) : bool := negb (Unversioned d).

End datastore.

(** * Package voxels (datatype/voxels/voxels.go) *)
Module voxels.
Import dvid.

Inductive OpType : Type := GetOp | PutOp.

(** Block is the basic key/value for the voxel type.  The value is a slice
    of bytes corresponding to data within a block. *)
Record Block : Type := mkBlock {
  K : option datastore.DataKey;
  V : list byte
}.

(** DataValue describes the data type and label for each value within a
    voxel. *)
Record DataValue : Type := mkDataValue {
  DataType : string;
  Label : string
}.

(** The [typeBytes] map; a type it does not hold reads as 0. *)
Definition typeBytes (t : string) : Z :=
  if String.eqb t "uint8" then 1
  else if String.eqb t "int8" then 1
  else if String.eqb t "uint16" then 2
  else if String.eqb t "int16" then 2
  else if String.eqb t "uint32" then 4
  else if String.eqb t "int32" then 4
  else if String.eqb t "uint64" then 8
  else if String.eqb t "int64" then 8
  else if String.eqb t "float32" then 4
  else if String.eqb t "float64" then 8
  else 0.

Definition BytesPerVoxel (values : list DataValue) : Z :=
  fold_left (fun bytes dataValue => add32 bytes (typeBytes (DataType dataValue)))
            values 0.

Definition ValueBytes (values : list DataValue) (dim : Z) : Z :=
  if (dim <? 0) || (Z.of_nat (length values) <=? dim) then 0
  else match values !! Z.to_nat dim with
       | Some dataValue => typeBytes (DataType dataValue)
       | None => 0
       end.

(** ** littleToBigEndian *)

(** The byte order of a handler, when it has one. *)
Inductive ByteOrder : Type := LittleEndian | BigEndian.

(** [copy(dst[beg:beg+len(src)], src)] for a [src] that fits: the bytes a
    [PutUint] writes. *)
Definition put_slice (dst : list byte) (beg : Z) (src : list byte) : list byte :=
  take (Z.to_nat beg) dst ++ src ++ drop (Z.to_nat beg + length src) dst.

(** [for beg := 0; beg < len(data)-1; beg += 2 {
       bigendian[beg], bigendian[beg+1] = data[beg+1], data[beg] }] *)
Fixpoint swap2_loop (fuel : nat) (beg : Z) (data bigendian : list byte) : list byte :=
  match fuel with
  | O => bigendian
  | S fuel' =>
      if beg <? Z.of_nat (length data) - 1 then
        match data !! Z.to_nat (beg + 1), data !! Z.to_nat beg with
        | Some d1, Some d0 =>
            swap2_loop fuel' (beg + 2) data
              (<[Z.to_nat (beg + 1) := d0]> (<[Z.to_nat beg := d1]> bigendian))
        | _, _ => bigendian
        end
      else bigendian
  end.

(** [for beg := 0; beg < len(data)-3; beg += 4 {
       value := binary.LittleEndian.Uint32(data[beg : beg+4])
       binary.BigEndian.PutUint32(bigendian[beg:beg+4], value) }] *)
Fixpoint swap4_loop (fuel : nat) (beg : Z) (data bigendian : list byte) : list byte :=
  match fuel with
  | O => bigendian
  | S fuel' =>
      if beg <? Z.of_nat (length data) - 3 then
        match take 4 (drop (Z.to_nat beg) data) with
        | [b0; b1; b2; b3] =>
            let value := binary.Uint32 b0 b1 b2 b3 in
            swap4_loop fuel' (beg + 4) data
              (put_slice bigendian beg (binary.BigEndian_PutUint32 value))
        | _ => bigendian
        end
      else bigendian
  end.

(** The same with [Uint64] and [PutUint64], eight bytes a turn, while
    [beg < len(data)-7]. *)
Fixpoint swap8_loop (fuel : nat) (beg : Z) (data bigendian : list byte) : list byte :=
  match fuel with
  | O => bigendian
  | S fuel' =>
      if beg <? Z.of_nat (length data) - 7 then
        match take 8 (drop (Z.to_nat beg) data) with
        | [b0; b1; b2; b3; b4; b5; b6; b7] =>
            let value := binary.Uint64 b0 b1 b2 b3 b4 b5 b6 b7 in
            swap8_loop fuel' (beg + 8) data
              (put_slice bigendian beg (binary.BigEndian_PutUint64 value))
        | _ => bigendian
        end
      else bigendian
  end.

(** Handler conversion of little to big endian for voxels larger than 1
    byte; of the handler, the function reads the values and the byte
    order.  The error it returns is always nil. *)
Definition littleToBigEndian (values : list DataValue) (byteOrder : option ByteOrder)
    (data : list byte) : list byte :=
  let bytesPerVoxel := BytesPerVoxel values in
  match byteOrder with
  | None | Some BigEndian => data
  | Some LittleEndian =>
      if bytesPerVoxel =? 1 then data
      else
        let bigendian := make_bytes (Z.of_nat (length data)) in
        if bytesPerVoxel =? 2 then swap2_loop (length data) 0 data bigendian
        else if bytesPerVoxel =? 4 then swap4_loop (length data) 0 data bigendian
        else if bytesPerVoxel =? 8 then swap8_loop (length data) 0 data bigendian
        else bigendian
  end.

(** The bytes of [data] with every whole group of [k] bytes reversed, and
    zero bytes in place of an incomplete last group. *)
Fixpoint rev_groups (fuel : nat) (k : nat) (data : list byte) : list byte :=
  match fuel with
  | O => replicate (length data) x00
  | S fuel' =>
      if (k <=? length data)%nat
      then rev (take k data) ++ rev_groups fuel' k (drop k data)
      else replicate (length data) x00
  end.

(** Voxels represents subvolumes or slices: a geometry, the value layout,
    the data itself and the stride in bytes between vertically adjacent
    pixels. *)
Record Voxels : Type := mkVoxels {
  geom : Geometry;
  values : list DataValue;
  data : list byte;
  stride : Z
}.

Definition set_data (v : Voxels) (d : list byte) : Voxels :=
  mkVoxels (geom v) (values v) d (stride v).

(** ** Extents *)

(** Extents holds the extents of a volume in both absolute voxel
    coordinates and chunk indices; an unset bound is nil. *)
Record Extents : Type := mkExtents {
  MinPoint : option Point;
  MaxPoint : option Point;
  MinIndex : option Point;
  MaxIndex : option Point
}.

(** AdjustPoints modifies extents based on new voxel coordinates. *)
Definition AdjustPoints (ext : Extents) (pointBeg pointEnd : Point)
    : Extents * bool :=
  let changed := false in
  let '(minPoint, changed) :=
    match MinPoint ext with
    | None => (pointBeg, true)
    | Some p => Min p pointBeg
    end in
  let '(maxPoint, changed) :=
    match MaxPoint ext with
    | None => (pointEnd, true)
    | Some p => Max p pointEnd
    end in
  (mkExtents (Some minPoint) (Some maxPoint) (MinIndex ext) (MaxIndex ext),
   changed).

(** AdjustIndices modifies extents based on new block indices. *)
Definition AdjustIndices (ext : Extents) (indexBeg indexEnd : Point)
    : Extents * bool :=
  let changed := false in
  let '(minIndex, changed) :=
    match MinIndex ext with
    | None => (indexBeg, true)
    | Some p => Min p indexBeg
    end in
  let '(maxIndex, changed) :=
    match MaxIndex ext with
    | None => (indexEnd, true)
    | Some p => Max p indexEnd
    end in
  (mkExtents (MinPoint ext) (MaxPoint ext) (Some minIndex) (Some maxIndex),
   changed).

(** Data embeds the datastore's Data and extends it with voxel-specific
    properties. *)
Record Data : Type := mkData {
  DataID : datastore.DataID;
  Values : list DataValue;
  BlockSize : Point;
  extents : Extents
}.

(** ** NewExtHandler *)

(** The [img] argument: nil, an image (through dvid.ImageData: its bytes
    and stride, or the error of reading it), or a value of another type. *)
Inductive image_arg : Type :=
| NoImage
| GoImage (imageData : result (list byte * Z))
| OtherValue.

Section ExtHandler.
(** [dvid.Giga], the value of [MaxVoxelsRequest], is declared outside the
    sources at hand. *)
Variable Giga : Z.

Definition MaxVoxelsRequest : Z := Giga.

(** NewExtHandler returns an ExtHandler given some geometry and optional
    image data.  If img is passed in, the function will initialize the
    ExtHandler with data from the image.  Otherwise, it will allocate a
    zero buffer of appropriate size. *)
Definition NewExtHandler (d : Data) (g : Geometry) (img : image_arg)
    : outcome (result Voxels) :=
  let bytesPerVoxel := BytesPerVoxel (Values d) in
  size0 ← Value (Size g) 0;
  let stride := mul32 size0 bytesPerVoxel in
  match img with
  | NoImage =>
      let numVoxels := NumVoxels g in
      if numVoxels <=? 0 then mret (Err "Illegal geometry requested")
      else if MaxVoxelsRequest <? numVoxels then
        mret (Err "Requested # voxels exceeds this DVID server's set limit")
      else
        let n := mul64 bytesPerVoxel (NumVoxels g) in
        if n <? 0 then Panics
        else mret (Ok (mkVoxels g (Values d) (make_bytes n) stride))
  | GoImage (Err msg) => mret (Err msg)
  | GoImage (Ok (imgData, actualStride)) =>
      if actualStride <? stride then
        mret (Err "Too little data in input image")
      else mret (Ok (mkVoxels g (Values d) imgData actualStride))
  | OtherValue => mret (Err "Unexpected image type given to NewExtHandler()")
  end.
End ExtHandler.

(** ** ComputeTransform *)

Record OpBounds : Type := mkOpBounds {
  blockBeg : Point;
  dataBeg : Point;
  dataEnd : Point
}.

Definition ComputeTransform (v : Voxels) (block : Block) (blockSize : Point)
    : result OpBounds :=
  match datastore.KeyToPointIndexer (K block) with
  | Err msg => Err msg
  | Ok ptIndex =>
      (* Get the bounding voxel coordinates for this block. *)
      let minBlockVoxel := FirstPoint ptIndex blockSize in
      let maxBlockVoxel := LastPoint ptIndex blockSize in
      (* Compute the boundary voxel coordinates for the ExtHandler and
         adjust to our block bounds. *)
      let minDataVoxel := StartPoint (geom v) in
      let maxDataVoxel := EndPoint (geom v) in
      let begVolCoord := fst (Max minDataVoxel minBlockVoxel) in
      let endVolCoord := fst (Min maxDataVoxel maxBlockVoxel) in
      (* Adjust the DVID volume voxel coordinates for the data so that
         (0,0,0) is where we expect this slice/subvolume's data to begin. *)
      let dataBeg := Sub begVolCoord (StartPoint (geom v)) in
      let dataEnd := Sub endVolCoord (StartPoint (geom v)) in
      (* Compute block coord matching dataBeg *)
      let blockBeg := Sub begVolCoord minBlockVoxel in
      Ok (mkOpBounds blockBeg dataBeg dataEnd)
  end.

(** ** transferBlock *)

(** [s[a:b]] is in bounds when [0 <= a <= b <= cap(s)]; the buffers here
    are used at their full capacity. *)
Definition slice_ok (s : list byte) (a b : Z) : bool :=
  (0 <=? a) && (a <=? b) && (b <=? Z.of_nat (length s)).

(** [copy(dst[a:b], src[c:d])]: the new contents of [dst]. *)
Definition go_copy (dst : list byte) (a b : Z) (src : list byte) (c d : Z)
    : outcome (list byte) :=
  if slice_ok dst a b && slice_ok src c d then
    let n := Z.to_nat (Z.min (b - a) (d - c)) in
    Returns (take (Z.to_nat a) dst ++ take n (drop (Z.to_nat c) src)
               ++ drop (Z.to_nat a + n) dst)
  else Panics.

(** Which buffer a [copy] statement writes: [ToData] is
    [copy(data[dataI:dataI+bytes], block.V[blockI:blockI+bytes])] and
    [ToBlock] is [copy(block.V[blockI:blockI+bytes], data[dataI:dataI+bytes])].
    The buffers are the pair [(data, block.V)]. *)
Inductive direction : Type := ToData | ToBlock.

Definition copy_run (dir : direction) (dataI blockI bytes : Z)
    (bufs : list byte * list byte) : outcome (list byte * list byte) :=
  let '(data, blockV) := bufs in
  match dir with
  | ToData =>
      data' ← go_copy data dataI (add32 dataI bytes) blockV blockI (add32 blockI bytes);
      mret (data', blockV)
  | ToBlock =>
      blockV' ← go_copy blockV blockI (add32 blockI bytes) data dataI (add32 dataI bytes);
      mret (data, blockV')
  end.

(** The number of turns of [for y := beg; y <= end; y++]. *)
Definition trips (beg end_ : Z) : nat := Z.to_nat (end_ - beg + 1).

(** The row loop of the XY and XZ cases and the inner loop of the YZ case:
    [n] turns of [copy; blockI += bstep; dataI += dstep]. *)
Fixpoint rows_loop (n : nat) (dir : direction) (bstep dstep bytes : Z)
    (blockI dataI : Z) (bufs : list byte * list byte)
    : outcome (list byte * list byte) :=
  match n with
  | O => mret bufs
  | S n' =>
      bufs' ← copy_run dir dataI blockI bytes bufs;
      rows_loop n' dir bstep dstep bytes (add32 blockI bstep) (add32 dataI dstep) bufs'
  end.

(** The outer loop of the YZ case, over [y] with [bz] counting along. *)
Fixpoint yz_loop (n : nat) (dir : direction) (inner : nat)
    (bX bY dX bytesPerVoxel bb1 bb0 db1 : Z) (y bz : Z)
    (bufs : list byte * list byte) : outcome (list byte * list byte) :=
  match n with
  | O => mret bufs
  | S n' =>
      let blockI := add32 (add32 (mul32 bz bY) (mul32 bb1 bX)) (mul32 bb0 bytesPerVoxel) in
      let dataI := add32 (mul32 y dX) (mul32 db1 bytesPerVoxel) in
      bufs' ← rows_loop inner dir bX bytesPerVoxel bytesPerVoxel blockI dataI bufs;
      yz_loop n' dir inner bX bY dX bytesPerVoxel bb1 bb0 db1 (add32 y 1) (add32 bz 1) bufs'
  end.

(** The inner loop of the Vol3d case, over [dataY] with [blockY]. *)
Fixpoint vol_rows (n : nat) (dir : direction)
    (bX bY dX dY blockOffset dataOffset bytes blockZ dataZ : Z)
    (dataY blockY : Z) (bufs : list byte * list byte)
    : outcome (list byte * list byte) :=
  match n with
  | O => mret bufs
  | S n' =>
      let blockI := add32 (add32 (mul32 blockZ bY) (mul32 blockY bX)) blockOffset in
      let dataI := add32 (add32 (mul32 dataZ dY) (mul32 dataY dX)) dataOffset in
      bufs' ← copy_run dir dataI blockI bytes bufs;
      vol_rows n' dir bX bY dX dY blockOffset dataOffset bytes blockZ dataZ
               (add32 dataY 1) (add32 blockY 1) bufs'
  end.

(** The outer loop of the Vol3d case, over [dataZ] with [blockZ]. *)
Fixpoint vol_loop (n : nat) (dir : direction) (inner : nat)
    (bX bY dX dY blockOffset dataOffset bytes db1 bb1 : Z)
    (dataZ blockZ : Z) (bufs : list byte * list byte)
    : outcome (list byte * list byte) :=
  match n with
  | O => mret bufs
  | S n' =>
      bufs' ← vol_rows inner dir bX bY dX dY blockOffset dataOffset bytes
                blockZ dataZ db1 bb1 bufs;
      vol_loop n' dir inner bX bY dX dY blockOffset dataOffset bytes db1 bb1
               (add32 dataZ 1) (add32 blockZ 1) bufs'
  end.

(** transferBlock: the buffers [(data, block.V)] after the call when it
    returns nil, or the error it returns before any copy. *)
Definition transferBlock (op : OpType) (v : Voxels) (block : Block)
    (blockSize : Point) : outcome (result (list byte * list byte)) :=
  if 3 <? NumDims blockSize then
    mret (Err "DVID voxel blocks currently only supports up to 3d, not 4+ dimensions")
  else
    match ComputeTransform v block blockSize with
    | Err msg => mret (Err msg)
    | Ok opBounds =>
        let bufs := (data v, V block) in
        let bytesPerVoxel := BytesPerVoxel (values v) in
        let blockBeg := blockBeg opBounds in
        let dataBeg := dataBeg opBounds in
        let dataEnd := dataEnd opBounds in
        (* Compute the strides (in bytes) *)
        bs0 ← Value blockSize 0;
        let bX := mul32 bs0 bytesPerVoxel in
        bs1 ← Value blockSize 1;
        let bY := mul32 bs1 bX in
        let dX := stride v in
        (* Do the transfers depending on shape of the external voxels. *)
        if Equals (geom_DataShape (geom v)) XY then
          bb2 ← Value blockBeg 2; bb1 ← Value blockBeg 1; bb0 ← Value blockBeg 0;
          let blockI := add32 (add32 (mul32 bb2 bY) (mul32 bb1 bX)) (mul32 bb0 bytesPerVoxel) in
          db1 ← Value dataBeg 1; db0 ← Value dataBeg 0;
          let dataI := add32 (mul32 db1 dX) (mul32 db0 bytesPerVoxel) in
          de0 ← Value dataEnd 0;
          let bytes := mul32 (add32 (sub32 de0 db0) 1) bytesPerVoxel in
          de1 ← Value dataEnd 1;
          bufs' ← rows_loop (trips db1 de1)
                    match op with GetOp => ToData | PutOp => ToBlock end
                    bX dX bytes blockI dataI bufs;
          mret (Ok bufs')
        else if Equals (geom_DataShape (geom v)) XZ then
          bb2 ← Value blockBeg 2; bb1 ← Value blockBeg 1; bb0 ← Value blockBeg 0;
          let blockI := add32 (add32 (mul32 bb2 bY) (mul32 bb1 bX)) (mul32 bb0 bytesPerVoxel) in
          db2 ← Value dataBeg 2; db0 ← Value dataBeg 0;
          let dataI := add32 (mul32 db2 (stride v)) (mul32 db0 bytesPerVoxel) in
          de0 ← Value dataEnd 0;
          let bytes := mul32 (add32 (sub32 de0 db0) 1) bytesPerVoxel in
          de2 ← Value dataEnd 2;
          bufs' ← rows_loop (trips db2 de2)
                    match op with GetOp => ToData | PutOp => ToBlock end
                    bY dX bytes blockI dataI bufs;
          mret (Ok bufs')
        else if Equals (geom_DataShape (geom v)) YZ then
          bz ← Value blockBeg 2;
          db2 ← Value dataBeg 2; de2 ← Value dataEnd 2;
          if (trips db2 de2 =? 0)%nat then mret (Ok bufs)
          else
            bb1 ← Value blockBeg 1; bb0 ← Value blockBeg 0;
            db1 ← Value dataBeg 1; de1 ← Value dataEnd 1;
            bufs' ← yz_loop (trips db2 de2)
                      match op with GetOp => ToData | PutOp => ToBlock end
                      (trips db1 de1) bX bY dX bytesPerVoxel bb1 bb0 db1 db2 bz bufs;
            mret (Ok bufs')
        else if ShapeDimensions (geom_DataShape (geom v)) =? 2 then
          mret (Err "DVID currently does not support 2d in n-d space.")
        else if Equals (geom_DataShape (geom v)) Vol3d then
          bb0 ← Value blockBeg 0;
          let blockOffset := mul32 bb0 bytesPerVoxel in
          size0 ← Value (Size (geom v)) 0;
          let dX := mul32 size0 bytesPerVoxel in
          size1 ← Value (Size (geom v)) 1;
          let dY := mul32 size1 dX in
          db0 ← Value dataBeg 0;
          let dataOffset := mul32 db0 bytesPerVoxel in
          de0 ← Value dataEnd 0;
          let bytes := mul32 (add32 (sub32 de0 db0) 1) bytesPerVoxel in
          blockZ ← Value blockBeg 2;
          db2 ← Value dataBeg 2; de2 ← Value dataEnd 2;
          if (trips db2 de2 =? 0)%nat then mret (Ok bufs)
          else
            bb1 ← Value blockBeg 1; db1 ← Value dataBeg 1; de1 ← Value dataEnd 1;
            (* GetOp: copy(block.V[blockI:blockI+bytes], data[dataI:dataI+bytes])
               PutOp: copy(data[dataI:dataI+bytes], block.V[blockI:blockI+bytes]) *)
            bufs' ← vol_loop (trips db2 de2)
                      match op with GetOp => ToBlock | PutOp => ToData end
                      (trips db1 de1) bX bY dX dY blockOffset dataOffset bytes
                      db1 bb1 db2 blockZ bufs;
            mret (Ok bufs')
        else
          mret (Err "Cannot ReadFromBlock() unsupported voxels data shape")
    end.

Definition ReadFromBlock (v : Voxels) (block : Block) (blockSize : Point) :=
  transferBlock GetOp v block blockSize.

Definition WriteToBlock (v : Voxels) (block : Block) (blockSize : Point) :=
  transferBlock PutOp v block blockSize.

(** ** Vocabulary of the transfer statements *)

(** The buffer a copy direction leaves alone is the same before and
    after. *)
Definition kept (dir : direction) (bufs bufs' : list byte * list byte) : Prop :=
  match dir with
  | ToData => snd bufs' = snd bufs
  | ToBlock => fst bufs' = fst bufs
  end.

(** The value of [blockI] in turn [k] of a loop that adds [bstep] to it
    each turn. *)
Fixpoint row_start (k : nat) (blockI bstep : Z) : Z :=
  match k with
  | O => blockI
  | S k' => row_start k' (add32 blockI bstep) bstep
  end.

(** Along one axis: the block size is a positive int32; the block [c], of
    voxels [c * bs .. c * bs + bs - 1], and the view, of voxels [s .. e],
    lie within int32, the view's extent [e - s + 1] too; and the two meet. *)
Definition axis_ok (c bs s e : Z) : Prop :=
  0 < bs /\ bs <= MaxInt32 /\ MinInt32 <= c * bs /\ c * bs + bs - 1 <= MaxInt32
  /\ MinInt32 <= s /\ s <= e /\ e <= MaxInt32 /\ e - s < 2 ^ 31
  /\ s <= c * bs + bs - 1 /\ c * bs <= e.

(** The bytes [a .. a + bytes - 1] lie in a buffer of [len] bytes, the end
    computed in int32. *)
Definition in_buf (a bytes len : Z) : Prop :=
  0 <= a /\ a <= add32 a bytes /\ add32 a bytes <= len.

(** The view buffer holds the view, from [(sx, sy, sz)] to [(ex, ey, ez)]:
    a slice has rows of [stride] bytes that hold its width, and as many as
    its height; a subvolume has the size of its extent and is stored
    without padding.  The buffer is no longer than [MaxInt32]. *)
Definition view_layout_ok (v : Voxels) (sx sy sz ex ey ez : Z) : Prop :=
  let bpv := BytesPerVoxel (values v) in
  let s := geom_DataShape (geom v) in
  let len := Z.of_nat (length (data v)) in
  len <= MaxInt32
  /\ ((s = XY /\ (ex - sx + 1) * bpv <= stride v /\ stride v * (ey - sy + 1) <= len)
      \/ (s = XZ /\ (ex - sx + 1) * bpv <= stride v /\ stride v * (ez - sz + 1) <= len)
      \/ (s = YZ /\ (ey - sy + 1) * bpv <= stride v /\ stride v * (ez - sz + 1) <= len)
      \/ (s = Vol3d /\ Size (geom v) = [ex - sx + 1; ey - sy + 1; ez - sz + 1]
          /\ bpv * (ex - sx + 1) * (ey - sy + 1) * (ez - sz + 1) <= len)).

(** [n] runs of [bytes] bytes, the first at [start] and each one [step]
    bytes after the one before, lie one after the other in a buffer of
    [len] bytes that is no longer than [MaxInt32]. *)
Definition rows_fit (n : nat) (start step bytes len : Z) : Prop :=
  0 <= start /\ 0 <= bytes <= step
  /\ start + Z.of_nat n * step <= len + (step - bytes) /\ len <= MaxInt32.

(** The position in the buffer of a slice of byte [c] of the voxel
    [(x, y, z)]: rows of [stride] bytes, one for each y of an XY slice and
    for each z of an XZ or a YZ slice, and in a row the voxels along x, for
    a YZ slice along y.  The slice starts at [(sx, sy, sz)]. *)
Definition view_index (v : Voxels) (sx sy sz x y z c : Z) : Z :=
  let bpv := BytesPerVoxel (values v) in
  if Equals (geom_DataShape (geom v)) XY then
    (y - sy) * stride v + (x - sx) * bpv + c
  else if Equals (geom_DataShape (geom v)) XZ then
    (z - sz) * stride v + (x - sx) * bpv + c
  else (z - sz) * stride v + (y - sy) * bpv + c.

(** The copy statements of a loop as a sequence: a run is the pair
    [(dataI, blockI)] of the positions of one copy statement, and all the
    runs of one loop have the same length and direction. *)
Fixpoint copy_runs (dir : direction) (bytes : Z) (runs : list (Z * Z))
    (bufs : list byte * list byte) : outcome (list byte * list byte) :=
  match runs with
  | [] => mret bufs
  | (dataI, blockI) :: rest =>
      bufs' ← copy_run dir dataI blockI bytes bufs;
      copy_runs dir bytes rest bufs'
  end.

(** The runs of [rows_loop]. *)
Definition rows_runs (n : nat) (bstep dstep blockI dataI : Z) : list (Z * Z) :=
  (fun k => (row_start k dataI dstep, row_start k blockI bstep)) <$> seq 0 n.

(** The runs of [yz_loop]. *)
Definition yz_runs (n inner : nat) (bX bY dX bytesPerVoxel bb1 bb0 db1 y bz : Z)
    : list (Z * Z) :=
  mjoin ((fun j =>
            rows_runs inner bX bytesPerVoxel
              (add32 (add32 (mul32 (row_start j bz 1) bY) (mul32 bb1 bX))
                     (mul32 bb0 bytesPerVoxel))
              (add32 (mul32 (row_start j y 1) dX) (mul32 db1 bytesPerVoxel)))
           <$> seq 0 n).

(** ** The engine: processChunk, PutImage, GetVoxels

    Modelled from the spec: the storage engine and the index iterator are
    not among the sources.  The backend is an ordered key-value store, a
    finite map from the block key to the stored value; a range read returns
    the stored pairs of a span in key order; the iterator walks z
    outermost, then y, and emits one span per (z, y) row from the first to
    the last block along x.  The chunk handlers of one call work on
    different blocks and are waited for, so they run here one after the
    other. *)
Section Engine.
Context `{SnappyLib}.

Definition key_of (k : datastore.DataKey) : Z * Z * Z * list Z :=
  (datastore.Dataset k, datastore.Data k, datastore.Version k, datastore.Index k).

Definition db_Put (db : gmap (Z * Z * Z * list Z) (list byte))
    (k : option datastore.DataKey) (v : list byte)
    : gmap (Z * Z * Z * list Z) (list byte) :=
  match k with
  | Some key => <[key_of key := v]> db
  | None => db
  end.

Definition GetRange (db : gmap (Z * Z * Z * list Z) (list byte))
    (dset dat versionID : Z) (indexBeg indexEnd : Point)
    : list (datastore.DataKey * list byte) :=
  match indexBeg, indexEnd with
  | [begX; y; z], [endX; _; _] =>
      omap (fun x =>
              let k := datastore.mkDataKey dset dat versionID [x; y; z] in
              (fun v => (k, v)) <$> db !! key_of k)
           (seqZ begX (endX - begX + 1))
  | _, _ => []
  end.

Definition IndexIterator (v : Voxels) (chunkSize : Point)
    : outcome (list (Point * Point)) :=
  let begBlock := Chunk (StartPoint (geom v)) chunkSize in
  let endBlock := Chunk (EndPoint (geom v)) chunkSize in
  match begBlock, endBlock with
  | [begX; begY; begZ], [endX; endY; endZ] =>
      mret (z ← seqZ begZ (endZ - begZ + 1);
            y ← seqZ begY (endY - begY + 1);
            [([begX; y; z], [endX; y; z])])
  | _, _ => Panics
  end.

(** processChunk: a nil chunk value stands for a block not yet stored
    and gives a zero block; a stored one is deserialized (an error there
    is logged only); an error of the transfer ends the program in
    log.Fatalln.  The view and the backend after the chunk. *)
Definition processChunk (d : Data) (op : OpType) (e : Voxels)
    (chunkK : option datastore.DataKey) (chunkV : option (list byte))
    (db : gmap (Z * Z * Z * list Z) (list byte))
    : outcome (Voxels * gmap (Z * Z * Z * list Z) (list byte)) :=
  blockData ←
    match chunkV with
    | None =>
        let n := mul64 (Prod (BlockSize d)) (BytesPerVoxel (values e)) in
        if n <? 0 then Panics else mret (make_bytes n)
    | Some v => mret (des_data (DeserializeData v true))
    end;
  (* Perform the operation. *)
  let block := mkBlock chunkK blockData in
  match op with
  | GetOp =>
      r ← ReadFromBlock e block (BlockSize d);
      match r with
      | Err _ => Panics
      | Ok (data', _) => mret (set_data e data', db)
      end
  | PutOp =>
      r ← WriteToBlock e block (BlockSize d);
      match r with
      | Err _ => Panics
      | Ok (data', blockData') =>
          let serialization :=
            match SerializeData blockData' Snappy CRC32 with
            | Ok s => s
            | Err _ => []
            end in
          mret (set_data e data', db_Put db chunkK serialization)
      end
  end.

(** The loop of PutImage over the blocks [x] of one span: the next old
    key-value pair is used when its index is at [x], else a new key with
    a nil value. *)
Fixpoint put_span (n : nat) (d : Data) (versionID x y z : Z)
    (old : list (datastore.DataKey * list byte)) (e : Voxels)
    (db : gmap (Z * Z * Z * list Z) (list byte))
    : outcome (Voxels * gmap (Z * Z * Z * list Z) (list byte)) :=
  match n with
  | O => mret (e, db)
  | S n' =>
      let key := datastore.mkDataKey (datastore.DsetID (DataID d))
                   (datastore.ID (DataID d)) versionID [x; y; z] in
      '(kvK, kvV, old') ←
        match old with
        | (oldK, oldV) :: rest =>
            ox ← Value (datastore.Index oldK) 0;
            if ox =? x then mret (Some oldK, Some oldV, rest)
            else mret (Some key, None, old)
        | [] => mret (Some key, None, [])
        end;
      '(e', db') ← processChunk d PutOp e kvK kvV db;
      put_span n' d versionID (add32 x 1) y z old' e' db'
  end.

(** The loop of PutImage over the spans. *)
Fixpoint put_spans (spans : list (Point * Point)) (d : Data) (versionID : Z)
    (ext : Extents) (extentChanged : bool) (e : Voxels)
    (db : gmap (Z * Z * Z * list Z) (list byte))
    : outcome (Extents * bool * Voxels * gmap (Z * Z * Z * list Z) (list byte)) :=
  match spans with
  | [] => mret (ext, extentChanged, e, db)
  | (ptBeg, ptEnd) :: rest =>
      begX ← Value ptBeg 0;
      endX ← Value ptEnd 0;
      let '(ext', changed) := AdjustIndices ext ptBeg ptEnd in
      (* GET all the chunks for this range. *)
      let keyvalues := GetRange db (datastore.DsetID (DataID d))
                         (datastore.ID (DataID d)) versionID ptBeg ptEnd in
      y ← Value ptBeg 1;
      z ← Value ptBeg 2;
      '(e', db') ← put_span (trips begX endX) d versionID begX y z keyvalues e db;
      put_spans rest d versionID ext' (extentChanged || changed) e' db'
  end.

(** PutImage adds a 2d image within given geometry to a version node:
    the extents, whether they changed, the view and the backend after
    the call.  The version mutex it holds meanwhile keeps other puts on
    the same data and version out. *)
Definition PutImage (versionID : Z) (i : Data) (e : Voxels)
    (db : gmap (Z * Z * Z * list Z) (list byte))
    : outcome (Extents * bool * Voxels * gmap (Z * Z * Z * list Z) (list byte)) :=
  let '(ext, extentChanged) :=
    AdjustPoints (extents i) (StartPoint (geom e)) (EndPoint (geom e)) in
  spans ← IndexIterator e (BlockSize i);
  put_spans spans i versionID ext extentChanged e db.

(** The chunks of one range read, each sent to the chunk handler. *)
Fixpoint get_chunks (kvs : list (datastore.DataKey * list byte)) (d : Data)
    (e : Voxels) (db : gmap (Z * Z * Z * list Z) (list byte)) : outcome Voxels :=
  match kvs with
  | [] => mret e
  | (k, v) :: rest =>
      '(e', _) ← processChunk d GetOp e (Some k) (Some v) db;
      get_chunks rest d e' db
  end.

Fixpoint get_spans (spans : list (Point * Point)) (d : Data) (versionID : Z)
    (e : Voxels) (db : gmap (Z * Z * Z * list Z) (list byte)) : outcome Voxels :=
  match spans with
  | [] => mret e
  | (indexBeg, indexEnd) :: rest =>
      e' ← get_chunks (GetRange db (datastore.DsetID (DataID d))
                         (datastore.ID (DataID d)) versionID indexBeg indexEnd)
             d e db;
      get_spans rest d versionID e' db
  end.

(** GetVoxels retrieves voxels from a version node and stores them in
    the ExtHandler. *)
Definition GetVoxels (versionID : Z) (i : Data) (e : Voxels)
    (db : gmap (Z * Z * Z * list Z) (list byte)) : outcome Voxels :=
  spans ← IndexIterator e (BlockSize i);
  get_spans spans i versionID e db.

End Engine.

End voxels.

(** * Properties *)

(** ** Bytes and fixed-width integers *)

Lemma byte_to_Z_range (b : byte) : 0 <= byte_to_Z b < 256.
Proof.
  unfold byte_to_Z. pose proof (Byte.to_N_bounded b). lia.
Qed.

Lemma byte_of_to_Z (b : byte) : byte_of_Z (byte_to_Z b) = b.
Proof.
  unfold byte_of_Z, wrap8. pose proof (byte_to_Z_range b) as Hr.
  rewrite Z.mod_small by lia. unfold byte_to_Z.
  rewrite N2Z.id, Byte.of_to_N. reflexivity.
Qed.

Lemma byte_to_of_Z (z : Z) : byte_to_Z (byte_of_Z z) = z mod 256.
Proof.
  unfold byte_of_Z, wrap8.
  pose proof (Z.mod_pos_bound z 256 ltac:(lia)) as Hr.
  destruct (Byte.of_N (Z.to_N (z mod 256))) as [b|] eqn:E.
  - apply Byte.to_of_N in E. unfold byte_to_Z. rewrite E. lia.
  - apply Byte.of_N_None_iff in E. lia.
Qed.

Lemma wrap32_small (z : Z) : - 2 ^ 31 <= z < 2 ^ 31 -> wrap32 z = z.
Proof.
  intros Hz. unfold wrap32. rewrite Z.mod_small; lia.
Qed.

Lemma wrap64_small (z : Z) : - 2 ^ 63 <= z < 2 ^ 63 -> wrap64 z = z.
Proof.
  intros Hz. unfold wrap64. rewrite Z.mod_small; lia.
Qed.

Lemma lxor_range (n a b : Z) :
  0 <= n -> 0 <= a < 2 ^ n -> 0 <= b < 2 ^ n -> 0 <= Z.lxor a b < 2 ^ n.
Proof.
  intros Hn Ha Hb.
  assert (H0 : 0 <= Z.lxor a b) by (apply Z.lxor_nonneg; lia).
  split; [exact H0|].
  destruct (Z.eq_dec (Z.lxor a b) 0) as [->|Hne]; [lia|].
  assert (Hn0 : 0 < n).
  { destruct (Z.eq_dec n 0) as [->|]; [|lia].
    assert (a = 0) by (simpl in Ha; lia). assert (b = 0) by (simpl in Hb; lia).
    subst. rewrite Z.lxor_0_l in Hne. lia. }
  apply Z.log2_lt_pow2; [lia|].
  pose proof (Z.log2_lxor a b ltac:(lia) ltac:(lia)) as Hl.
  assert (Hla : Z.log2 a < n).
  { destruct (Z.eq_dec a 0) as [->|]; [simpl; lia|]. apply Z.log2_lt_pow2; lia. }
  assert (Hlb : Z.log2 b < n).
  { destruct (Z.eq_dec b 0) as [->|]; [simpl; lia|]. apply Z.log2_lt_pow2; lia. }
  lia.
Qed.

Lemma testbit_above (a n i : Z) : 0 <= a < 2 ^ n -> n <= i -> Z.testbit a i = false.
Proof.
  intros Ha Hi.
  destruct (Z.eq_dec a 0) as [->|Hne]; [apply Z.bits_0|].
  apply Z.bits_above_log2; [lia|].
  assert (0 <= n).
  { destruct (Z.le_gt_cases 0 n); [assumption|].
    rewrite Z.pow_neg_r in Ha by lia. lia. }
  assert (Z.log2 a < n) by (apply Z.log2_lt_pow2; lia). lia.
Qed.

(** ** Left folds over an arbitrary step function *)
Section FoldStep.
Context {A B : Type} (f : A -> B -> A) (P : A -> Prop).
Hypothesis step_keeps : forall a b, P a -> P (f a b).

Lemma fold_left_keeps (l : list B) (a : A) : P a -> P (fold_left f l a).
Proof.
  revert a. induction l as [|b l IH]; intros a Ha; [exact Ha|].
  apply (IH (f a b)), step_keeps, Ha.
Qed.

Hypothesis step_inj : forall a a' b, P a -> P a' -> f a b = f a' b -> a = a'.

Lemma fold_left_inj (l : list B) (a a' : A) :
  P a -> P a' -> fold_left f l a = fold_left f l a' -> a = a'.
Proof.
  revert a a'. induction l as [|b l IH]; intros a a' Ha Ha' Heq; [exact Heq|].
  apply (step_inj a a' b Ha Ha').
  apply (IH (f a b) (f a' b));
    [apply step_keeps, Ha | apply step_keeps, Ha' | exact Heq].
Qed.

Lemma fold_left_middle (pre suf : list B) (b : B) (a : A) :
  fold_left f (pre ++ b :: suf) a = fold_left f suf (f (fold_left f pre a) b).
Proof.
  rewrite fold_left_app. reflexivity.
Qed.
End FoldStep.

(** ** CRC-32 *)
Module crc32_facts.
Import crc32.

Lemma shift1_range (c : Z) : 0 <= c < 2 ^ 32 -> 0 <= shift1 c < 2 ^ 32.
Proof.
  intros Hc. unfold shift1. apply lxor_range; [lia| |].
  - rewrite Z.shiftr_div_pow2 by lia. change (2 ^ 1) with 2.
    split; [apply Z.div_pos; lia|].
    apply Z.div_lt_upper_bound; lia.
  - destruct (Z.testbit c 0); unfold IEEE; lia.
Qed.

(** One shift step loses nothing: the top bit of the result tells
    whether the polynomial went in. *)
Lemma shift1_inj (a b : Z) :
  0 <= a < 2 ^ 32 -> 0 <= b < 2 ^ 32 -> shift1 a = shift1 b -> a = b.
Proof.
  intros Ha Hb Heq.
  assert (Htop : forall c, 0 <= c < 2 ^ 32 ->
                   Z.testbit (shift1 c) 31 = Z.testbit c 0).
  { intros c Hc. unfold shift1. rewrite Z.lxor_spec, Z.shiftr_spec by lia.
    rewrite (testbit_above c 32 (31 + 1)) by lia.
    destruct (Z.testbit c 0); reflexivity. }
  assert (Hpar : Z.testbit a 0 = Z.testbit b 0).
  { rewrite <- (Htop a Ha), <- (Htop b Hb), Heq. reflexivity. }
  assert (Hhi : Z.shiftr a 1 = Z.shiftr b 1).
  { unfold shift1 in Heq. rewrite Hpar in Heq.
    apply Z.lxor_eq.
    set (k := if Z.testbit b 0 then IEEE else 0) in Heq.
    assert (Hx : Z.lxor (Z.lxor (Z.shiftr a 1) k) (Z.lxor (Z.shiftr b 1) k) = 0)
      by (rewrite Heq; apply Z.lxor_nilpotent).
    rewrite Z.lxor_assoc, (Z.lxor_comm (Z.shiftr b 1) k) in Hx.
    rewrite <- (Z.lxor_assoc k k), Z.lxor_nilpotent, Z.lxor_0_l in Hx.
    exact Hx. }
  apply Z.bits_inj'. intros n Hn.
  destruct (Z.eq_dec n 0) as [->|Hn0]; [exact Hpar|].
  replace n with ((n - 1) + 1) by lia.
  rewrite <- !Z.shiftr_spec by lia. rewrite Hhi. reflexivity.
Qed.

Lemma iter_shift1_range (n : nat) (c : Z) :
  0 <= c < 2 ^ 32 -> 0 <= Nat.iter n shift1 c < 2 ^ 32.
Proof.
  intros Hc. induction n as [|n IH]; simpl; [exact Hc|].
  apply shift1_range, IH.
Qed.

Lemma iter_shift1_inj (n : nat) (a b : Z) :
  0 <= a < 2 ^ 32 -> 0 <= b < 2 ^ 32 ->
  Nat.iter n shift1 a = Nat.iter n shift1 b -> a = b.
Proof.
  intros Ha Hb. induction n as [|n IH]; simpl; [tauto|].
  intros Heq. apply IH.
  apply shift1_inj; [apply iter_shift1_range; lia..|exact Heq].
Qed.

Lemma update_byte_eq (c : Z) (b : byte) :
  update_byte c b = Nat.iter 8 shift1 (Z.lxor c (byte_to_Z b)).
Proof.
  unfold update_byte. reflexivity.
Qed.

Lemma update_byte_range (c : Z) (b : byte) :
  0 <= c < 2 ^ 32 -> 0 <= update_byte c b < 2 ^ 32.
Proof.
  intros Hc. rewrite update_byte_eq. apply iter_shift1_range.
  pose proof (byte_to_Z_range b). apply lxor_range; lia.
Qed.

Lemma fold_update_range (p : list byte) (c : Z) :
  0 <= c < 2 ^ 32 -> 0 <= fold_left update_byte p c < 2 ^ 32.
Proof.
  exact (fold_left_keeps update_byte (fun c => 0 <= c < 2 ^ 32)
           update_byte_range p c).
Qed.

Lemma ChecksumIEEE_range (p : list byte) : 0 <= ChecksumIEEE p < 2 ^ 32.
Proof.
  unfold ChecksumIEEE, update. apply lxor_range; [lia| |lia].
  apply fold_update_range. rewrite Z.lxor_0_l. lia.
Qed.

Lemma lxor_cancel_r (a b k : Z) : Z.lxor a k = Z.lxor b k -> a = b.
Proof.
  intros Heq. apply Z.lxor_eq.
  assert (Hx : Z.lxor (Z.lxor a k) (Z.lxor b k) = 0)
    by (rewrite Heq; apply Z.lxor_nilpotent).
  rewrite Z.lxor_assoc, (Z.lxor_comm b k) in Hx.
  rewrite <- (Z.lxor_assoc k k), Z.lxor_nilpotent, Z.lxor_0_l in Hx.
  exact Hx.
Qed.

Lemma update_byte_inj_state (c c' : Z) (b : byte) :
  0 <= c < 2 ^ 32 -> 0 <= c' < 2 ^ 32 ->
  update_byte c b = update_byte c' b -> c = c'.
Proof.
  intros Hc Hc' Heq. rewrite !update_byte_eq in Heq.
  pose proof (byte_to_Z_range b).
  apply iter_shift1_inj in Heq; [|apply lxor_range; lia..].
  eapply lxor_cancel_r, Heq.
Qed.

Lemma update_byte_inj_byte (c : Z) (b b' : byte) :
  0 <= c < 2 ^ 32 -> update_byte c b = update_byte c b' -> b = b'.
Proof.
  intros Hc Heq. rewrite !update_byte_eq in Heq.
  pose proof (byte_to_Z_range b). pose proof (byte_to_Z_range b').
  apply iter_shift1_inj in Heq; [|apply lxor_range; lia..].
  rewrite (Z.lxor_comm c), (Z.lxor_comm c) in Heq.
  apply lxor_cancel_r in Heq.
  rewrite <- (byte_of_to_Z b), <- (byte_of_to_Z b'), Heq. reflexivity.
Qed.

Lemma fold_update_inj_state (p : list byte) (c c' : Z) :
  0 <= c < 2 ^ 32 -> 0 <= c' < 2 ^ 32 ->
  fold_left update_byte p c = fold_left update_byte p c' -> c = c'.
Proof.
  exact (fold_left_inj update_byte (fun c => 0 <= c < 2 ^ 32)
           update_byte_range update_byte_inj_state p c c').
Qed.

(** The checksum tells any two payloads apart that differ in one byte. *)
Lemma ChecksumIEEE_single_byte (pre suf : list byte) (b b' : byte) :
  b <> b' ->
  ChecksumIEEE (pre ++ b :: suf) <> ChecksumIEEE (pre ++ b' :: suf).
Proof.
  intros Hne Heq. unfold ChecksumIEEE, update in Heq.
  apply lxor_cancel_r in Heq.
  rewrite !(fold_left_middle update_byte) in Heq.
  assert (Hc : 0 <= fold_left update_byte pre (Z.lxor 0 4294967295) < 2 ^ 32)
    by (apply fold_update_range; rewrite Z.lxor_0_l; lia).
  apply fold_update_inj_state in Heq; [|apply update_byte_range; exact Hc..].
  apply update_byte_inj_byte in Heq; [contradiction|exact Hc].
Qed.

End crc32_facts.

(** ** Little-endian words *)

Lemma byte_bit (v k n : Z) :
  0 <= k -> 0 <= n ->
  Z.testbit (Z.shiftl ((Z.shiftr v k) mod 2 ^ 8) k) n
  = (k <=? n) && (n <? k + 8) && Z.testbit v n.
Proof.
  intros Hk Hn. rewrite Z.shiftl_spec by lia.
  destruct (Z.leb_spec k n) as [Hle|Hlt].
  - rewrite Z.testbit_mod_pow2, Z.shiftr_spec by lia.
    replace (n - k + k) with n by lia.
    replace (n - k <? 8) with (n <? k + 8); [reflexivity|].
    destruct (Z.ltb_spec n (k + 8)), (Z.ltb_spec (n - k) 8); lia || reflexivity.
  - rewrite Z.testbit_neg_r by lia. reflexivity.
Qed.

Lemma Uint32_PutUint32 (v : Z) :
  match binary.PutUint32 v with
  | [b0; b1; b2; b3] => binary.Uint32 b0 b1 b2 b3 = v mod 2 ^ 32
  | _ => False
  end.
Proof.
  unfold binary.PutUint32, binary.Uint32. rewrite !byte_to_of_Z.
  change 256 with (2 ^ 8).
  rewrite <- (Z.shiftl_0_r (v mod 2 ^ 8)).
  rewrite <- (Z.shiftr_0_r v) at 1.
  apply Z.bits_inj'. intros n Hn.
  rewrite !Z.lor_spec, !byte_bit by lia.
  rewrite Z.testbit_mod_pow2 by lia.
  destruct (Z.testbit v n); rewrite ?andb_false_r, ?andb_true_r; [|reflexivity].
  destruct (Z.leb_spec 0 n), (Z.leb_spec 8 n), (Z.leb_spec 16 n), (Z.leb_spec 24 n),
    (Z.ltb_spec n (0 + 8)), (Z.ltb_spec n (8 + 8)), (Z.ltb_spec n (16 + 8)),
    (Z.ltb_spec n (24 + 8)), (Z.ltb_spec n 32); simpl; lia || reflexivity.
Qed.

(** ** The block codec *)
Section CodecFacts.
Context `{SnappyLib}.
Import dvid.

Lemma ReadUint32_PutUint32 (v : Z) (rest : list byte) :
  binary.ReadUint32 (binary.PutUint32 v ++ rest) = Ok (v mod 2 ^ 32, rest).
Proof.
  pose proof (Uint32_PutUint32 v) as Hv.
  unfold binary.PutUint32 in *. simpl. rewrite Hv. reflexivity.
Qed.

Lemma format_byte_value (c k : Z) :
  (c = Uncompressed \/ c = Snappy) -> (k = NoChecksum \/ k = CRC32) ->
  EncodeSerializationFormat c k = Z.lor (Z.shiftl c 4) k
  /\ DecodeSerializationFormat (byte_to_Z (byte_of_Z (EncodeSerializationFormat c k)))
     = (c, k).
Proof.
  intros [-> | ->] [-> | ->]; split; reflexivity.
Qed.

(** With Snappy and a stored checksum, the error of a checksum mismatch
    is overwritten by the result of [snappy.Decode]. *)
Lemma DeserializeData_snappy_crc (crc payload d : list byte) (b0 b1 b2 b3 : byte) :
  crc = [b0; b1; b2; b3] ->
  snappy_Decode payload = Ok d ->
  DeserializeData
    (byte_of_Z (EncodeSerializationFormat Snappy CRC32) :: crc ++ payload) true
  = mkDeserialized d Snappy None.
Proof.
  intros -> Hd. unfold DeserializeData. simpl. rewrite Hd. reflexivity.
Qed.

(** Without compression a single changed payload byte is reported. *)
Lemma DeserializeData_uncompressed_detects (pre suf : list byte) (b b' : byte) :
  b <> b' ->
  des_err (DeserializeData
             (byte_of_Z (EncodeSerializationFormat Uncompressed CRC32)
                :: binary.PutUint32 (crc32.ChecksumIEEE (pre ++ b :: suf))
                ++ pre ++ b' :: suf) true)
  = Some "Bad checksum"%string.
Proof.
  intros Hne. unfold DeserializeData.
  change (binary.ReadUint8 (?x :: ?r)) with (Ok (byte_to_Z x, r)).
  cbv iota beta.
  destruct (format_byte_value Uncompressed CRC32) as [_ ->]; [auto..|].
  cbv iota beta.
  change (CRC32 =? NoChecksum) with false. change (CRC32 =? CRC32) with true.
  cbv iota. rewrite ReadUint32_PutUint32.
  pose proof (crc32_facts.ChecksumIEEE_range (pre ++ b :: suf)) as Hr.
  rewrite Z.mod_small by lia.
  pose proof (crc32_facts.ChecksumIEEE_single_byte pre suf b b' Hne) as Hd.
  destruct (Z.eqb_spec (crc32.ChecksumIEEE (pre ++ b' :: suf))
              (crc32.ChecksumIEEE (pre ++ b :: suf))) as [E|E]; [congruence|].
  reflexivity.
Qed.

Lemma SerializeData_framed (p e : list byte) (c k : Z) :
  (c = Uncompressed \/ c = Snappy) -> (k = NoChecksum \/ k = CRC32) ->
  (if c =? Uncompressed then Ok p else snappy_Encode p) = Ok e ->
  SerializeData p c k
  = Ok (byte_of_Z (EncodeSerializationFormat c k)
          :: (if k =? CRC32 then binary.PutUint32 (crc32.ChecksumIEEE e) else [])
          ++ e).
Proof.
  intros Hc Hk He. unfold SerializeData. cbv zeta.
  assert (Hbody : (if c =? Uncompressed then Ok p
            else if c =? Snappy then snappy_Encode p
            else Err "Illegal compression during serialization"%string) = Ok e).
  { destruct Hc as [-> | ->]; exact He. }
  rewrite Hbody. destruct Hk as [-> | ->]; reflexivity.
Qed.

Lemma DeserializeData_framed (e : list byte) (c k : Z) :
  (c = Uncompressed \/ c = Snappy) -> (k = NoChecksum \/ k = CRC32) ->
  DeserializeData
    (byte_of_Z (EncodeSerializationFormat c k)
       :: (if k =? CRC32 then binary.PutUint32 (crc32.ChecksumIEEE e) else [])
       ++ e) true
  = if c =? Uncompressed then mkDeserialized e c None
    else match snappy_Decode e with
         | Ok d => mkDeserialized d c None
         | Err msg => mkDeserialized [] c (Some msg)
         end.
Proof.
  intros Hc Hk. unfold DeserializeData.
  change (binary.ReadUint8 (?x :: ?r)) with (Ok (byte_to_Z x, r)).
  cbv iota beta.
  destruct (format_byte_value c k Hc Hk) as [_ ->]. cbv iota beta.
  assert (Hcrc : crc32.ChecksumIEEE e mod 2 ^ 32 = crc32.ChecksumIEEE e).
  { apply Z.mod_small, crc32_facts.ChecksumIEEE_range. }
  destruct Hk as [-> | ->].
  - change (NoChecksum =? NoChecksum) with true.
    change (NoChecksum =? CRC32) with false. cbv iota.
    rewrite andb_false_l. rewrite app_nil_l.
    destruct Hc as [-> | ->]; reflexivity.
  - change (CRC32 =? NoChecksum) with false.
    change (CRC32 =? CRC32) with true. cbv iota.
    rewrite ReadUint32_PutUint32, Hcrc, Z.eqb_refl. simpl negb.
    rewrite andb_false_r.
    destruct Hc as [-> | ->]; reflexivity.
Qed.
End CodecFacts.

(** C3. For every payload [p], compression choice [c] (none or snappy) and
    checksum choice [k] (none or crc32), deserializing the serialization of
    [p] with uncompression requested returns exactly [p], with the
    compression that was used and no error.  The Snappy library enters
    through its own round trip on [p]. *)
Theorem SerializeData_DeserializeData_roundtrip
    `{SnappyLib} (p : list byte) (c k : Z) :
  (c = dvid.Uncompressed \/ c = dvid.Snappy) ->
  (k = dvid.NoChecksum \/ k = dvid.CRC32) ->
  (c = dvid.Snappy ->
   exists e, snappy_Encode p = Ok e /\ snappy_Decode e = Ok p) ->
  exists s, dvid.SerializeData p c k = Ok s
            /\ dvid.DeserializeData s true = dvid.mkDeserialized p c None.
Proof.
  intros Hc Hk Hsnappy.
  assert (Hbody : exists e,
             (if c =? dvid.Uncompressed then Ok p else snappy_Encode p) = Ok e
             /\ (if c =? dvid.Uncompressed then dvid.mkDeserialized e c None
                 else match snappy_Decode e with
                      | Ok d => dvid.mkDeserialized d c None
                      | Err msg => dvid.mkDeserialized [] c (Some msg)
                      end) = dvid.mkDeserialized p c None).
  { destruct Hc as [-> | ->].
    - exists p. split; reflexivity.
    - destruct (Hsnappy eq_refl) as (e & He & Hd). exists e.
      change (dvid.Snappy =? dvid.Uncompressed) with false. cbv iota.
      rewrite Hd. split; [exact He | reflexivity]. }
  destruct Hbody as (e & He & Hd).
  eexists. split.
  - apply SerializeData_framed; eassumption.
  - rewrite DeserializeData_framed by assumption. exact Hd.
Qed.

Lemma SerializeData_DeserializeData_roundtrip_witness :
  (dvid.Snappy = dvid.Uncompressed \/ dvid.Snappy = dvid.Snappy)
  /\ (dvid.CRC32 = dvid.NoChecksum \/ dvid.CRC32 = dvid.CRC32)
  /\ exists s, dvid.SerializeData (H := snappy_reference) [x61; x62; x63]
                 dvid.Snappy dvid.CRC32 = Ok s
               /\ dvid.DeserializeData (H := snappy_reference) s true
                  = dvid.mkDeserialized [x61; x62; x63] dvid.Snappy None.
Proof.
  split; [right; reflexivity|]. split; [right; reflexivity|].
  apply (@SerializeData_DeserializeData_roundtrip snappy_reference
           [x61; x62; x63] dvid.Snappy dvid.CRC32).
  - right; reflexivity.
  - right; reflexivity.
  - intros _. exists [x03; x08; x61; x62; x63]. split; vm_compute; reflexivity.
Defined.

(** C4, as the code has it.  For every payload, compression choice (none or
    snappy) and checksum choice (none or crc32), the first byte of the
    serialized value is [(compression << 4) | checksum], where the
    compression code is 0 for no compression and 2 for snappy and the
    checksum code is 0 for no checksum and 2 for crc32. *)
Theorem SerializeData_frame_byte `{SnappyLib} (p s : list byte) (c k : Z) :
  (c = dvid.Uncompressed \/ c = dvid.Snappy) ->
  (k = dvid.NoChecksum \/ k = dvid.CRC32) ->
  dvid.SerializeData p c k = Ok s ->
  head s = Some (byte_of_Z (Z.lor (Z.shiftl c 4) k))
  /\ dvid.Uncompressed = 0 /\ dvid.Snappy = 2
  /\ dvid.NoChecksum = 0 /\ dvid.CRC32 = 2.
Proof.
  intros Hc Hk Hs. split; [|repeat split; reflexivity].
  destruct (format_byte_value c k Hc Hk) as [<- _].
  unfold dvid.SerializeData in Hs. cbv zeta in Hs.
  destruct (if c =? dvid.Uncompressed then Ok p
            else if c =? dvid.Snappy then snappy_Encode p
            else Err "Illegal compression during serialization"%string)
    as [byteData|msg]; [|discriminate].
  destruct (k =? dvid.NoChecksum); [injection Hs as <-; reflexivity|].
  destruct (k =? dvid.CRC32); [injection Hs as <-; reflexivity|discriminate].
Qed.

Lemma SerializeData_frame_byte_witness :
  (dvid.Snappy = dvid.Uncompressed \/ dvid.Snappy = dvid.Snappy)
  /\ (dvid.CRC32 = dvid.NoChecksum \/ dvid.CRC32 = dvid.CRC32)
  /\ dvid.SerializeData (H := snappy_reference) [x61] dvid.Snappy dvid.CRC32
     = Ok [x22; xeb; xe2; x36; xc4; x01; x00; x61]
  /\ head [x22; xeb; xe2; x36; xc4; x01; x00; x61]
     = Some (byte_of_Z (Z.lor (Z.shiftl dvid.Snappy 4) dvid.CRC32)).
Proof.
  split; [right; reflexivity|]. split; [right; reflexivity|].
  split; [vm_compute; reflexivity|].
  apply (@SerializeData_frame_byte snappy_reference [x61]
           [x22; xeb; xe2; x36; xc4; x01; x00; x61] dvid.Snappy dvid.CRC32).
  - right; reflexivity.
  - right; reflexivity.
  - vm_compute; reflexivity.
Defined.

(** C4, as stated, fails: with no compression and a crc32 checksum the
    first byte is 0x02, not [(0 << 4) | 1]; with snappy and crc32 it is
    0x22, not [(1 << 4) | 1]. *)
Lemma SerializeData_frame_byte_not_0x01 :
  (exists s, dvid.SerializeData (H := snappy_reference) [] dvid.Uncompressed dvid.CRC32
             = Ok s
             /\ head s = Some x02
             /\ head s <> Some (byte_of_Z (Z.lor (Z.shiftl 0 4) 1)))
  /\ (exists s, dvid.SerializeData (H := snappy_reference) [] dvid.Snappy dvid.CRC32
                = Ok s
                /\ head s = Some x22
                /\ head s <> Some (byte_of_Z (Z.lor (Z.shiftl 1 4) 1))).
Proof.
  split; eexists; (split; [vm_compute; reflexivity|]);
    (split; [reflexivity | vm_compute; discriminate]).
Qed.

(** C5 at a failing input.  The payload "a" serialized with Snappy and
    CRC32 is [22 eb e2 36 c4 | 01 00 61]; with the last payload byte changed
    to 62 the stored checksum no longer matches the payload, yet
    DeserializeData returns the changed data "b" and a nil error: the error
    set at the checksum test is overwritten by the result of
    [snappy.Decode]. *)
Theorem DeserializeData_snappy_corruption_unreported :
  dvid.SerializeData (H := snappy_reference) [x61] dvid.Snappy dvid.CRC32
  = Ok [x22; xeb; xe2; x36; xc4; x01; x00; x61]
  /\ crc32.ChecksumIEEE [x01; x00; x62] <> binary.Uint32 xeb xe2 x36 xc4
  /\ dvid.DeserializeData (H := snappy_reference)
       [x22; xeb; xe2; x36; xc4; x01; x00; x62] true
     = dvid.mkDeserialized [x62] dvid.Snappy None.
Proof.
  split; [vm_compute; reflexivity|].
  split; [vm_compute; discriminate|].
  vm_compute; reflexivity.
Qed.

(** ** Extents *)

(** When both bounds are set, the flag of the [Min] step is overwritten:
    what AdjustPoints and AdjustIndices return is the flag of [Max] alone. *)
Lemma AdjustPoints_returns_Max_flag (ext : voxels.Extents) (lo hi pointBeg pointEnd : dvid.Point) :
  voxels.MinPoint ext = Some lo -> voxels.MaxPoint ext = Some hi ->
  snd (voxels.AdjustPoints ext pointBeg pointEnd) = snd (dvid.Max hi pointEnd).
Proof.
  intros Hlo Hhi. unfold voxels.AdjustPoints. rewrite Hlo, Hhi. reflexivity.
Qed.

Lemma AdjustIndices_returns_Max_flag (ext : voxels.Extents) (lo hi indexBeg indexEnd : dvid.Point) :
  voxels.MinIndex ext = Some lo -> voxels.MaxIndex ext = Some hi ->
  snd (voxels.AdjustIndices ext indexBeg indexEnd) = snd (dvid.Max hi indexEnd).
Proof.
  intros Hlo Hhi. unfold voxels.AdjustIndices. rewrite Hlo, Hhi. reflexivity.
Qed.

(** C6 at a failing input.  With point extents (0,0,0)..(10,10,10),
    AdjustPoints((-5,0,0), (3,3,3)) extends the stored minimum to (-5,0,0)
    and returns false; AdjustIndices does the same on the index extents. *)
Theorem Adjust_min_extension_unreported :
  let ext := voxels.mkExtents (Some [0; 0; 0]) (Some [10; 10; 10])
                              (Some [0; 0; 0]) (Some [10; 10; 10]) in
  voxels.AdjustPoints ext [-5; 0; 0] [3; 3; 3]
  = (voxels.mkExtents (Some [-5; 0; 0]) (Some [10; 10; 10])
                      (Some [0; 0; 0]) (Some [10; 10; 10]), false)
  /\ voxels.AdjustIndices ext [-5; 0; 0] [3; 3; 3]
     = (voxels.mkExtents (Some [0; 0; 0]) (Some [10; 10; 10])
                         (Some [-5; 0; 0]) (Some [10; 10; 10]), false).
Proof.
  split; reflexivity.
Qed.

(** ** Version mutexes *)
Module mutex_facts.
Import datastore.

Lemma init_ok : store_ok init.
Proof.
  split; simpl; intros *; rewrite lookup_empty; discriminate.
Qed.

(** A call leaves the store well formed, binds its triple to the mutex it
    returns, and keeps every binding there was. *)
Lemma VersionMutex_step (d : DataID) (v : Z) (st : MutexStore) :
  store_ok st ->
  let r := VersionMutex d v st in
  store_ok (snd r)
  /\ versionMutexes (snd r) !! node (d, v) = Some (fst r)
  /\ (forall id m, versionMutexes st !! id = Some m ->
                   versionMutexes (snd r) !! id = Some m).
Proof.
  intros [Hlt Hinj]. unfold VersionMutex, node, store_ok. cbn.
  destruct (versionMutexes st !! (DsetID d, ID d, v)) as [m|] eqn:E; cbn.
  - split; [split; assumption|]. split; [exact E|auto].
  - split; [split|split].
    + intros id m. rewrite lookup_insert.
      case_decide; [intros [= <-]; lia|]. intros Hm. apply Hlt in Hm. lia.
    + intros id1 id2 m. rewrite !lookup_insert.
      repeat case_decide; subst.
      * reflexivity.
      * intros [= <-] Hm. apply Hlt in Hm. lia.
      * intros Hm [= <-]. apply Hlt in Hm. lia.
      * apply Hinj.
    + apply lookup_insert_eq.
    + intros id m Hm. rewrite lookup_insert_ne; [exact Hm|]. congruence.
Qed.

(** After a sequence of calls, the [i]-th call's triple is bound to the
    [i]-th returned mutex. *)
Lemma VersionMutex_calls_bound (calls : list (DataID * Z)) (st : MutexStore) :
  store_ok st ->
  let r := VersionMutex_calls calls st in
  store_ok (snd r)
  /\ (forall id m, versionMutexes st !! id = Some m ->
                   versionMutexes (snd r) !! id = Some m)
  /\ length (fst r) = length calls
  /\ (forall i call m, calls !! i = Some call -> fst r !! i = Some m ->
                       versionMutexes (snd r) !! node call = Some m).
Proof.
  revert st. induction calls as [|[d v] rest IH]; intros st Hok; simpl.
  - repeat split; try apply Hok; auto.
    intros i call m Hc. rewrite lookup_nil in Hc. discriminate.
  - pose proof (VersionMutex_step d v st Hok) as (Hok1 & Hb1 & Hk1).
    destruct (VersionMutex d v st) as [m0 st1] eqn:E1. simpl in *.
    specialize (IH st1 Hok1). simpl in IH.
    destruct (VersionMutex_calls rest st1) as [ms st2] eqn:E2. simpl in *.
    destruct IH as (Hok2 & Hk2 & Hlen & Hb2).
    split; [exact Hok2|]. split; [auto|]. split; [congruence|].
    intros [|i] call m Hc Hm; simpl in *.
    + injection Hc as <-. injection Hm as <-. apply Hk2, Hb1.
    + eapply Hb2; eassumption.
Qed.

End mutex_facts.

Module call_facts.
Import datastore.

(** A turn of the call in the middle of the list. *)
Lemma run_turn (pre post : list Call) (c : Call) (rest : list nat) (st : MutexStore) :
  run (length pre :: rest) (pre ++ c :: post) st
  = run rest (pre ++ fst (step c st) :: post) (snd (step c st)).
Proof.
  cbn [run]. rewrite list_lookup_middle by reflexivity.
  destruct (step c st) as [c' st']. cbn [fst snd].
  rewrite insert_app_r_alt by lia. rewrite Nat.sub_diag. reflexivity.
Qed.

Lemma run_app (s1 s2 : list nat) (calls : list Call) (st : MutexStore) :
  run (s1 ++ s2) calls st
  = run s2 (fst (run s1 calls st)) (snd (run s1 calls st)).
Proof.
  revert calls st. induction s1 as [|i s1 IH]; intros calls st; [reflexivity|].
  cbn [app run]. destruct (calls !! i) as [c|]; [|apply IH].
  destruct (step c st) as [c' st']. apply IH.
Qed.

(** A call that runs its five statements with no other call in between
    does what the function does. *)
Lemma run_whole_call (pre post : list Call) (d : DataID) (versionID : Z)
    (st : MutexStore) :
  run (replicate 5 (length pre)) (pre ++ AtLock d versionID :: post) st
  = (pre ++ Returned (fst (VersionMutex d versionID st)) :: post,
     snd (VersionMutex d versionID st)).
Proof.
  cbn [replicate]. rewrite run_turn. cbn [step fst snd]. rewrite run_turn.
  unfold VersionMutex. cbn [step].
  destruct (versionMutexes st !! (DsetID d, ID d, versionID)) as [m|]; cbn [fst snd].
  - rewrite run_turn. cbn [step fst snd]. rewrite !run_turn. reflexivity.
  - rewrite run_turn. cbn [step fst snd versionMutexes allocated].
    rewrite run_turn. cbn [step fst snd versionMutexes allocated].
    rewrite run_turn. reflexivity.
Qed.

(** Calls that run one after the other return what [VersionMutex_calls]
    returns, and leave the map it leaves. *)
Lemma run_one_by_one (calls : list (DataID * Z)) (pre : list Call) (st : MutexStore) :
  run (one_by_one (length pre) (length calls))
      (pre ++ ((fun call => AtLock (fst call) (snd call)) <$> calls)) st
  = (pre ++ (Returned <$> fst (VersionMutex_calls calls st)),
     snd (VersionMutex_calls calls st)).
Proof.
  revert pre st. induction calls as [|[d v] rest IH]; intros pre st.
  - reflexivity.
  - unfold one_by_one. cbn [length seq fmap list_fmap mjoin list_join fst snd].
    rewrite run_app, run_whole_call. cbn [fst snd VersionMutex_calls].
    destruct (VersionMutex d v st) as [m st1]. cbn [fst snd].
    specialize (IH (pre ++ [Returned m]) st1).
    rewrite length_app in IH. cbn [length] in IH.
    rewrite Nat.add_1_r in IH. rewrite <- !app_assoc in IH. cbn [app] in IH.
    etransitivity; [exact IH|].
    destruct (VersionMutex_calls rest st1) as [ms st2]. reflexivity.
Qed.

(** Two calls for a triple that the map does not hold yet, each running a
    statement in turn: both look the triple up before either stores a
    mutex, so each creates one. *)
Lemma run_both_miss (d : DataID) (versionID : Z) (st : MutexStore) :
  versionMutexes st !! node (d, versionID) = None ->
  run [0; 1; 0; 1; 0; 1; 0; 1; 0; 1]%nat [AtLock d versionID; AtLock d versionID] st
  = ([Returned (allocated st); Returned (S (allocated st))],
     mkMutexStore (<[node (d, versionID) := S (allocated st)]>
                     (<[node (d, versionID) := allocated st]> (versionMutexes st)))
                  (S (S (allocated st)))).
Proof.
  unfold node. cbn [fst snd]. intros Hnone.
  cbn [run lookup list_lookup step insert list_insert]. rewrite Hnone.
  cbn [run lookup list_lookup step insert list_insert versionMutexes allocated].
  rewrite Hnone.
  cbn [run lookup list_lookup step insert list_insert versionMutexes allocated].
  reflexivity.
Qed.

End call_facts.

(** C10. Two calls of VersionMutex for the same (dataset, data, version)
    triple that run at the same time can return two different mutex
    objects.  From the empty map, with the two calls running a statement
    each in turn, both calls return, the first the mutex 0 and the second
    the mutex 1, and the map keeps the second mutex for the triple: the
    lock each call takes is a local variable of that call, so both look the
    triple up before either has stored a mutex.  When the same two calls
    run one after the other, both return the mutex 0. *)
Theorem VersionMutex_concurrent_calls_differ (d : datastore.DataID) (versionID : Z) :
  let calls := [datastore.AtLock d versionID; datastore.AtLock d versionID] in
  (exists st,
     datastore.run [0; 1; 0; 1; 0; 1; 0; 1; 0; 1]%nat calls datastore.init
     = ([datastore.Returned 0; datastore.Returned 1], st)
     /\ datastore.versionMutexes st !! datastore.node (d, versionID) = Some 1%nat
     /\ datastore.allocated st = 2%nat)
  /\ (exists st,
        datastore.run (datastore.one_by_one 0 2) calls datastore.init
        = ([datastore.Returned 0; datastore.Returned 0], st)
        /\ datastore.versionMutexes st !! datastore.node (d, versionID) = Some 0%nat
        /\ datastore.allocated st = 1%nat).
Proof.
  intros calls. split.
  - eexists. split; [apply call_facts.run_both_miss; apply lookup_empty|].
    split; [apply lookup_insert_eq | reflexivity].
  - pose proof (call_facts.run_one_by_one [(d, versionID); (d, versionID)] []
                  datastore.init) as Hrun.
    cbn [length app fmap list_fmap fst snd] in Hrun. fold calls in Hrun.
    assert (E : datastore.VersionMutex_calls [(d, versionID); (d, versionID)]
                  datastore.init
                = ([0; 0]%nat,
                   datastore.mkMutexStore
                     (<[datastore.node (d, versionID) := 0%nat]> ∅) 1)).
    { unfold datastore.node, datastore.init. cbn [fst snd datastore.VersionMutex_calls].
      unfold datastore.VersionMutex at 1.
      cbn [datastore.versionMutexes datastore.allocated].
      rewrite lookup_empty.
      unfold datastore.VersionMutex.
      cbn [datastore.versionMutexes datastore.allocated].
      rewrite lookup_insert_eq. reflexivity. }
    rewrite E in Hrun. cbn [fst snd fmap list_fmap] in Hrun.
    eexists. split; [exact Hrun|].
    split; [apply lookup_insert_eq | reflexivity].
Qed.

(** ** NewExtHandler *)

(** What NewExtHandler does with the count that [geom.NumVoxels()] returns,
    for any cap: an error when the count is not positive, an error when it
    exceeds the cap, else a zero buffer of bytesPerVoxel times the count. *)
Lemma NewExtHandler_NoImage (Giga : Z) (d : voxels.Data) (g : dvid.Geometry) (size0 : Z) :
  dvid.Value (dvid.Size g) 0 = Returns size0 ->
  (dvid.NumVoxels g <= 0 ->
   exists msg, voxels.NewExtHandler Giga d g voxels.NoImage = Returns (Err msg))
  /\ (Giga < dvid.NumVoxels g ->
      exists msg, voxels.NewExtHandler Giga d g voxels.NoImage = Returns (Err msg))
  /\ (0 < dvid.NumVoxels g <= Giga -> Giga <= 2 ^ 32 ->
      0 <= voxels.BytesPerVoxel (voxels.Values d) < 2 ^ 31 ->
      voxels.NewExtHandler Giga d g voxels.NoImage
      = Returns (Ok (voxels.mkVoxels g (voxels.Values d)
                       (make_bytes (voxels.BytesPerVoxel (voxels.Values d)
                                    * dvid.NumVoxels g))
                       (mul32 size0 (voxels.BytesPerVoxel (voxels.Values d)))))).
Proof.
  intros Hsize. unfold voxels.NewExtHandler, voxels.MaxVoxelsRequest.
  rewrite Hsize. cbn [mbind outcome_bind].
  split; [|split].
  - intros Hn. destruct (Z.leb_spec (dvid.NumVoxels g) 0); [|lia]. eexists; reflexivity.
  - intros Hn. destruct (Z.leb_spec (dvid.NumVoxels g) 0); [eexists; reflexivity|].
    destruct (Z.ltb_spec Giga (dvid.NumVoxels g)); [|lia]. eexists; reflexivity.
  - intros Hn HG Hb.
    destruct (Z.leb_spec (dvid.NumVoxels g) 0); [lia|].
    destruct (Z.ltb_spec Giga (dvid.NumVoxels g)); [lia|].
    unfold mul64. rewrite wrap64_small by nia.
    destruct (Z.ltb_spec (voxels.BytesPerVoxel (voxels.Values d) * dvid.NumVoxels g) 0);
      [nia|reflexivity].
Qed.

(** C8 at a failing input.  An XY slice of 65537 x 65536 voxels has
    4295032832 voxels, more than the cap of 10^9; [OrthogSlice.NumVoxels]
    multiplies the two int32 sizes before widening, so the count it reports
    is 65536, and NewExtHandler returns a handler with a buffer of 65536
    bytes instead of failing. *)
Theorem NewExtHandler_oversize_slice_accepted :
  let d := voxels.mkData (datastore.mkDataID "grayscale" 1 1)
             [voxels.mkDataValue "uint8" "grayscale"] [32; 32; 32]
             (voxels.mkExtents None None None None) in
  exists s,
    dvid.NewOrthogSlice dvid.XY [0; 0; 0] (65537, 65536) = Ok s
    /\ 10 ^ 9 < 65537 * 65536
    /\ dvid.NumVoxels (dvid.OrthogSlice_Geometry s) = 65536
    /\ voxels.NewExtHandler (10 ^ 9) d (dvid.OrthogSlice_Geometry s) voxels.NoImage
       = Returns (Ok (voxels.mkVoxels (dvid.OrthogSlice_Geometry s) (voxels.Values d)
                        (make_bytes 65536) 65537)).
Proof.
  intros d. eexists. split; [reflexivity|]. split; [reflexivity|].
  split; [reflexivity|].
  match goal with
  | |- voxels.NewExtHandler _ _ ?g _ = _ =>
      destruct (NewExtHandler_NoImage (10 ^ 9) d g 65537 eq_refl) as (_ & _ & Hok)
  end.
  rewrite Hok.
  - reflexivity.
  - split; [reflexivity | discriminate].
  - discriminate.
  - split; [discriminate | reflexivity].
Qed.

(** ** Shapes *)

Lemma shape_loop_eq (l l2 : list Z) :
  length l = length l2 -> dvid.shape_loop l l2 = true <-> l = l2.
Proof.
  revert l2. induction l as [|a l IH]; intros [|b l2] Hlen; simpl in *;
    try discriminate; [tauto|].
  destruct (Z.eqb_spec b a) as [->|Hne]; simpl.
  - rewrite IH by congruence. split; [intros ->; reflexivity|congruence].
  - split; [discriminate|congruence].
Qed.

(** [Equals] decides the equality of shapes. *)
Lemma Equals_eq (s s2 : dvid.DataShape) : dvid.Equals s s2 = true <-> s = s2.
Proof.
  unfold dvid.Equals. destruct s as [d l], s2 as [d2 l2]; simpl.
  destruct (Z.eqb_spec d d2) as [->|Hd]; simpl.
  - destruct (Nat.eqb_spec (length l) (length l2)) as [Hl|Hl].
    + rewrite shape_loop_eq by assumption. split; congruence.
    + split; [discriminate|]. intros [= ->]. contradiction.
  - split; [discriminate|congruence].
Qed.

Lemma Equals_neq (s s2 : dvid.DataShape) : s <> s2 -> dvid.Equals s s2 = false.
Proof.
  intros Hne. destruct (dvid.Equals s s2) eqn:E; [|reflexivity].
  apply Equals_eq in E. contradiction.
Qed.

(** C9. For every view whose shape is none of XY, XZ, YZ and Vol3d, and
    for every block size of more than three dimensions, the block transfer
    returns an error; the error is returned before any copy statement, so
    neither buffer is written.  The block size is asked for its x and y
    extents before the shape is looked at, so it must have them. *)
Theorem transferBlock_unsupported
    (op : voxels.OpType) (v : voxels.Voxels) (block : voxels.Block)
    (blockSize : dvid.Point) :
  3 < dvid.NumDims blockSize
  \/ (2 <= dvid.NumDims blockSize
      /\ dvid.geom_DataShape (voxels.geom v) <> dvid.XY
      /\ dvid.geom_DataShape (voxels.geom v) <> dvid.XZ
      /\ dvid.geom_DataShape (voxels.geom v) <> dvid.YZ
      /\ dvid.geom_DataShape (voxels.geom v) <> dvid.Vol3d) ->
  exists msg, voxels.transferBlock op v block blockSize = Returns (Err msg).
Proof.
  unfold voxels.transferBlock.
  intros [Hdims | (Hdims & Hxy & Hxz & Hyz & Hvol)].
  - destruct (Z.ltb_spec 3 (dvid.NumDims blockSize)); [|lia]. eexists; reflexivity.
  - destruct (3 <? dvid.NumDims blockSize); [eexists; reflexivity|].
    destruct (voxels.ComputeTransform v block blockSize) as [opBounds|msg];
      [|eexists; reflexivity].
    destruct blockSize as [|bs0 [|bs1 rest]];
      [unfold dvid.NumDims in Hdims; simpl in Hdims; lia..|].
    cbn [dvid.Value Z.ltb Z.compare Z.to_nat lookup list_lookup Pos.to_nat
         Pos.iter_op Nat.add mbind outcome_bind].
    rewrite (Equals_neq _ _ Hxy), (Equals_neq _ _ Hxz), (Equals_neq _ _ Hyz),
      (Equals_neq _ _ Hvol).
    destruct (dvid.ShapeDimensions _ =? 2); eexists; reflexivity.
Qed.

Lemma transferBlock_unsupported_witness :
  let arb := voxels.mkVoxels
               (dvid.mkGeometry dvid.Arb [4; 4] 16 [0; 0; 0] [3; 3; 0])
               [voxels.mkDataValue "uint8" "grayscale"] (make_bytes 16) 4 in
  let block := voxels.mkBlock (Some (datastore.mkDataKey 1 1 1 [0; 0; 0]))
                              (make_bytes 8) in
  (exists msg, voxels.transferBlock voxels.PutOp arb block [2; 2; 2; 2]
               = Returns (Err msg))
  /\ (exists msg, voxels.transferBlock voxels.GetOp arb block [2; 2; 2]
                  = Returns (Err msg)).
Proof.
  intros arb block. split.
  - apply (transferBlock_unsupported voxels.PutOp arb block [2; 2; 2; 2]).
    left. reflexivity.
  - apply (transferBlock_unsupported voxels.GetOp arb block [2; 2; 2]).
    right. split; [discriminate|]. repeat split; discriminate.
Defined.

(** ** Block transfer *)

(** Index arithmetic of the row-major, x-fastest block layout. *)
Lemma run_in_box (bpv bsx bsy x0 nx y z i : Z) :
  0 < bpv -> 0 < bsx -> 0 < bsy ->
  0 <= x0 -> x0 + nx <= bsx -> 0 <= y < bsy -> 0 <= z ->
  z * (bsy * (bsx * bpv)) + y * (bsx * bpv) + x0 * bpv <= i
    < z * (bsy * (bsx * bpv)) + y * (bsx * bpv) + x0 * bpv + nx * bpv ->
  x0 <= (i / bpv) mod bsx < x0 + nx
  /\ (i / (bpv * bsx)) mod bsy = y
  /\ i / (bpv * bsx * bsy) = z.
Proof.
  intros Hbpv Hbsx Hbsy Hx0 Hnx Hy Hz Hi.
  set (q := i / bpv).
  assert (Hq : (z * bsy + y) * bsx + x0 <= q < (z * bsy + y) * bsx + x0 + nx).
  { unfold q. split.
    - apply Z.div_le_lower_bound; nia.
    - apply Z.div_lt_upper_bound; nia. }
  assert (Hqx : q mod bsx = q - (z * bsy + y) * bsx).
  { symmetry. apply (Z.mod_unique q bsx (z * bsy + y)); [left; lia | lia]. }
  assert (Hq2 : i / (bpv * bsx) = z * bsy + y).
  { rewrite <- Z.div_div by lia. fold q.
    symmetry. apply (Z.div_unique q bsx (z * bsy + y) (q - (z * bsy + y) * bsx)); [left; lia | lia]. }
  assert (Hq3 : i / (bpv * bsx * bsy) = z).
  { rewrite <- Z.div_div by nia. rewrite Hq2.
    symmetry. apply (Z.div_unique (z * bsy + y) bsy z y); [left; lia | lia]. }
  split; [rewrite Hqx; lia|]. split; [|exact Hq3].
  rewrite Hq2. symmetry. apply (Z.mod_unique (z * bsy + y) bsy z y); [left; lia | lia].
Qed.

Lemma run_bound (bpv bsx bsy bsz x0 nx y z : Z) :
  0 < bpv -> 0 < bsx -> 0 < bsy -> 0 < bsz ->
  0 <= x0 -> 0 <= nx -> x0 + nx <= bsx -> 0 <= y < bsy -> 0 <= z < bsz ->
  0 <= z * (bsy * (bsx * bpv)) + y * (bsx * bpv) + x0 * bpv
  /\ z * (bsy * (bsx * bpv)) + y * (bsx * bpv) + x0 * bpv + nx * bpv
     <= bpv * bsx * bsy * bsz.
Proof.
  intros. split; [nia|].
  assert (x0 * bpv + nx * bpv <= bsx * bpv) by nia.
  assert (y * (bsx * bpv) + bsx * bpv <= bsy * (bsx * bpv)) by nia.
  assert (z * (bsy * (bsx * bpv)) + bsy * (bsx * bpv) <= bsz * (bsy * (bsx * bpv))) by nia.
  nia.
Qed.

Module transfer_facts.
Import dvid voxels.

Lemma go_copy_frame (dst src dst' : list byte) (a b c d : Z) :
  go_copy dst a b src c d = Returns dst' ->
  length dst' = length dst
  /\ forall i : nat, ~ (a <= Z.of_nat i < b) -> dst' !! i = dst !! i.
Proof.
  unfold go_copy, slice_ok. intros Hc.
  destruct (_ && _) eqn:Hok in Hc; [|discriminate].
  injection Hc as <-.
  repeat (apply andb_prop in Hok; destruct Hok as [Hok ?]).
  repeat match goal with
         | H : (_ <=? _) = true |- _ => apply Z.leb_le in H
         end.
  set (n := Z.to_nat (Z.min (b - a) (d - c))).
  assert (Hn : (n <= length src - Z.to_nat c)%nat) by lia.
  assert (Hmid : length (take n (drop (Z.to_nat c) src)) = n).
  { rewrite length_take, length_drop. lia. }
  split.
  - rewrite !length_app, Hmid, length_take, length_drop. lia.
  - intros i Hi.
    destruct (Z.lt_ge_cases (Z.of_nat i) a) as [Hlt|Hge].
    + rewrite lookup_app_l by (rewrite length_take; lia).
      apply lookup_take_lt. lia.
    + rewrite lookup_app_r by (rewrite length_take; lia).
      rewrite length_take.
      rewrite lookup_app_r by (rewrite Hmid; lia).
      rewrite Hmid, lookup_drop. f_equal. lia.
Qed.

(** A copy into the view leaves the block alone, and the other way round. *)
Lemma copy_run_ToData (dataI blockI bytes : Z) (dat blk dat' blk' : list byte) :
  copy_run ToData dataI blockI bytes (dat, blk) = Returns (dat', blk') ->
  blk' = blk.
Proof.
  unfold copy_run. destruct (go_copy _ _ _ _ _ _); simpl; [|discriminate].
  intros [= _ <-]. reflexivity.
Qed.

Lemma copy_run_ToBlock (dataI blockI bytes : Z) (dat blk dat' blk' : list byte) :
  copy_run ToBlock dataI blockI bytes (dat, blk) = Returns (dat', blk') ->
  dat' = dat
  /\ length blk' = length blk
  /\ forall i : nat, ~ (blockI <= Z.of_nat i < add32 blockI bytes) ->
                     blk' !! i = blk !! i.
Proof.
  unfold copy_run. destruct (go_copy _ _ _ _ _ _) as [blk0|] eqn:E; simpl; [|discriminate].
  intros [= <- <-]. split; [reflexivity|]. eapply go_copy_frame, E.
Qed.

Ltac loop_simpl :=
  cbn [rows_loop yz_loop vol_rows vol_loop mbind outcome_bind mret outcome_ret].

Lemma kept_refl dir bufs : kept dir bufs bufs.
Proof. destruct dir; reflexivity. Qed.

Lemma kept_trans dir b1 b2 b3 : kept dir b1 b2 -> kept dir b2 b3 -> kept dir b1 b3.
Proof. destruct dir; unfold kept; congruence. Qed.

Lemma copy_run_kept dir dataI blockI bytes bufs bufs' :
  copy_run dir dataI blockI bytes bufs = Returns bufs' -> kept dir bufs bufs'.
Proof.
  destruct bufs as [dat blk], bufs' as [dat' blk'], dir; intros Hc; loop_simpl.
  - eapply copy_run_ToData, Hc.
  - eapply copy_run_ToBlock, Hc.
Qed.

Lemma rows_loop_kept n dir bstep dstep bytes blockI dataI bufs bufs' :
  rows_loop n dir bstep dstep bytes blockI dataI bufs = Returns bufs' ->
  kept dir bufs bufs'.
Proof.
  revert blockI dataI bufs. induction n as [|n IH]; intros blockI dataI bufs; loop_simpl.
  - intros [= <-]. apply kept_refl.
  - destruct (copy_run dir dataI blockI bytes bufs) as [b1|] eqn:E; loop_simpl; [|discriminate].
    intros Hr. eapply kept_trans; [eapply copy_run_kept, E | eapply IH, Hr].
Qed.

Lemma yz_loop_kept n dir inner bX bY dX bpv bb1 bb0 db1 y bz bufs bufs' :
  yz_loop n dir inner bX bY dX bpv bb1 bb0 db1 y bz bufs = Returns bufs' ->
  kept dir bufs bufs'.
Proof.
  revert y bz bufs. induction n as [|n IH]; intros y bz bufs; loop_simpl.
  - intros [= <-]. apply kept_refl.
  - destruct (rows_loop inner dir bX bpv bpv _ _ bufs) as [b1|] eqn:E; loop_simpl; [|discriminate].
    intros Hr. eapply kept_trans; [eapply rows_loop_kept, E | eapply IH, Hr].
Qed.

Lemma vol_rows_kept n dir bX bY dX dY bo do_ bytes bz dz dataY blockY bufs bufs' :
  vol_rows n dir bX bY dX dY bo do_ bytes bz dz dataY blockY bufs = Returns bufs' ->
  kept dir bufs bufs'.
Proof.
  revert dataY blockY bufs. induction n as [|n IH]; intros dataY blockY bufs; loop_simpl.
  - intros [= <-]. apply kept_refl.
  - destruct (copy_run dir _ _ bytes bufs) as [b1|] eqn:E; loop_simpl; [|discriminate].
    intros Hr. eapply kept_trans; [eapply copy_run_kept, E | eapply IH, Hr].
Qed.

Lemma vol_loop_kept n dir inner bX bY dX dY bo do_ bytes db1 bb1 dataZ blockZ bufs bufs' :
  vol_loop n dir inner bX bY dX dY bo do_ bytes db1 bb1 dataZ blockZ bufs = Returns bufs' ->
  kept dir bufs bufs'.
Proof.
  revert dataZ blockZ bufs. induction n as [|n IH]; intros dataZ blockZ bufs; loop_simpl.
  - intros [= <-]. apply kept_refl.
  - destruct (vol_rows inner dir _ _ _ _ _ _ _ _ _ _ _ bufs) as [b1|] eqn:E; loop_simpl; [|discriminate].
    intros Hr. eapply kept_trans; [eapply vol_rows_kept, E | eapply IH, Hr].
Qed.

Lemma row_start_small (k : nat) (blockI bstep : Z) :
  (forall j : nat, (j <= k)%nat ->
     - 2 ^ 31 <= blockI + Z.of_nat j * bstep < 2 ^ 31) ->
  row_start k blockI bstep = blockI + Z.of_nat k * bstep.
Proof.
  revert blockI. induction k as [|k IH]; intros blockI Hr; simpl row_start.
  - lia.
  - unfold add32. rewrite wrap32_small by (specialize (Hr 1%nat); lia).
    rewrite IH; [lia|].
    intros j Hj. specialize (Hr (S j)). lia.
Qed.

(** What a run of row copies into the block can change. *)
Lemma rows_loop_ToBlock n bstep dstep bytes blockI dataI dat blk dat' blk' :
  rows_loop n ToBlock bstep dstep bytes blockI dataI (dat, blk) = Returns (dat', blk') ->
  length blk' = length blk
  /\ forall i : nat,
       (forall k : nat, (k < n)%nat ->
          ~ (row_start k blockI bstep <= Z.of_nat i
             < add32 (row_start k blockI bstep) bytes)) ->
       blk' !! i = blk !! i.
Proof.
  revert blockI dataI dat blk. induction n as [|n IH]; intros blockI dataI dat blk; loop_simpl.
  - intros [= <- <-]. split; [reflexivity|]. reflexivity.
  - destruct (copy_run ToBlock dataI blockI bytes (dat, blk)) as [[d1 b1]|] eqn:E;
      loop_simpl; [|discriminate].
    intros Hr. pose proof (copy_run_ToBlock _ _ _ _ _ _ _ E) as (Hd & Hlen1 & Hf1).
    subst d1.
    apply IH in Hr as (Hlen2 & Hf2). split; [congruence|].
    intros i Hi. rewrite Hf2.
    + apply Hf1. apply (Hi 0%nat). lia.
    + intros k Hk. apply (Hi (S k)). lia.
Qed.

Lemma yz_loop_ToBlock n inner bX bY dX bpv bb1 bb0 db1 y bz dat blk dat' blk' :
  yz_loop n ToBlock inner bX bY dX bpv bb1 bb0 db1 y bz (dat, blk) = Returns (dat', blk') ->
  length blk' = length blk
  /\ forall i : nat,
       (forall j k : nat, (j < n)%nat -> (k < inner)%nat ->
          let blockI := add32 (add32 (mul32 (row_start j bz 1) bY) (mul32 bb1 bX))
                              (mul32 bb0 bpv) in
          ~ (row_start k blockI bX <= Z.of_nat i < add32 (row_start k blockI bX) bpv)) ->
       blk' !! i = blk !! i.
Proof.
  revert y bz dat blk. induction n as [|n IH]; intros y bz dat blk; loop_simpl.
  - intros [= <- <-]. split; reflexivity.
  - destruct (rows_loop inner ToBlock bX bpv bpv _ _ (dat, blk)) as [[d1 b1]|] eqn:E;
      loop_simpl; [|discriminate].
    intros Hr. pose proof (rows_loop_ToBlock _ _ _ _ _ _ _ _ _ _ E) as (Hlen1 & Hf1).
    apply IH in Hr as (Hlen2 & Hf2). split; [congruence|].
    intros i Hi. rewrite Hf2.
    + apply Hf1. intros k Hk. apply (Hi 0%nat k); lia.
    + intros j k Hj Hk. apply (Hi (S j) k); lia.
Qed.

End transfer_facts.

(** ** The frame of a write *)

Import dvid voxels transfer_facts.

Lemma axis_facts (c bs s e : Z) :
  axis_ok c bs s e ->
  mul32 c bs = c * bs
  /\ add32 (c * bs) (sub32 bs 1) = c * bs + bs - 1
  /\ sub32 (Z.max s (c * bs)) s = Z.max s (c * bs) - s
  /\ sub32 (Z.min e (c * bs + bs - 1)) s = Z.min e (c * bs + bs - 1) - s
  /\ sub32 (Z.max s (c * bs)) (c * bs) = Z.max s (c * bs) - c * bs.
Proof.
  unfold axis_ok, MinInt32, MaxInt32, mul32, add32, sub32.
  intros (? & ? & ? & ? & ? & ? & ? & ? & ? & ?).
  rewrite (wrap32_small (bs - 1)) by lia.
  rewrite !wrap32_small by lia. repeat split; lia.
Qed.


Lemma Value_0 (a : Z) (l : Point) : Value (a :: l) 0 = Returns a.
Proof. reflexivity. Qed.
Lemma Value_1 (a b : Z) (l : Point) : Value (a :: b :: l) 1 = Returns b.
Proof. reflexivity. Qed.
Lemma Value_2 (a b c : Z) (l : Point) : Value (a :: b :: c :: l) 2 = Returns c.
Proof. reflexivity. Qed.

Section BlockLayout.
Variables bpv bsx bsy bsz : Z.
Hypothesis Hbpv : 0 < bpv.
Hypothesis Hbsx : 0 < bsx.
Hypothesis Hbsy : 0 < bsy.
Hypothesis Hbsz : 0 < bsz.
Hypothesis HT : bpv * bsx * bsy * bsz <= MaxInt32.

Lemma strides_nowrap :
  mul32 bsx bpv = bsx * bpv /\ mul32 bsy (bsx * bpv) = bsy * (bsx * bpv).
Proof.
  unfold mul32, MaxInt32 in *.
  assert (0 < bsx * bpv) by nia.
  assert (0 < bsy * (bsx * bpv)) by nia.
  assert (bsy * (bsx * bpv) <= bpv * bsx * bsy * bsz) by nia.
  assert (bsx * bpv <= bsy * (bsx * bpv)) by nia.
  split; apply wrap32_small; lia.
Qed.

Lemma blockI_nowrap (z y x : Z) :
  0 <= z < bsz -> 0 <= y < bsy -> 0 <= x < bsx ->
  add32 (add32 (mul32 z (bsy * (bsx * bpv))) (mul32 y (bsx * bpv))) (mul32 x bpv)
  = z * (bsy * (bsx * bpv)) + y * (bsx * bpv) + x * bpv.
Proof.
  intros Hz Hy Hx. unfold add32, mul32, MaxInt32 in *.
  pose proof (run_bound bpv bsx bsy bsz x 0 y z) as Hb.
  pose proof (run_bound bpv bsx bsy bsz 0 0 y z) as Hb1.
  pose proof (run_bound bpv bsx bsy bsz 0 0 0 z) as Hb2.
  pose proof (run_bound bpv bsx bsy bsz 0 0 y 0) as Hb3.
  pose proof (run_bound bpv bsx bsy bsz x 0 0 0) as Hb4.
  rewrite (wrap32_small (z * _)) by lia.
  rewrite (wrap32_small (y * _)) by lia.
  rewrite (wrap32_small (x * _)) by lia.
  rewrite (wrap32_small (z * _ + y * _)) by lia.
  apply wrap32_small. lia.
Qed.

Lemma run_nowrap (z y x n : Z) :
  0 <= z < bsz -> 0 <= y < bsy -> 0 <= x -> 0 <= n -> x + n <= bsx ->
  mul32 n bpv = n * bpv
  /\ add32 (z * (bsy * (bsx * bpv)) + y * (bsx * bpv) + x * bpv) (n * bpv)
     = z * (bsy * (bsx * bpv)) + y * (bsx * bpv) + x * bpv + n * bpv.
Proof.
  intros Hz Hy Hx Hn Hxn. unfold add32, mul32, MaxInt32 in *.
  pose proof (run_bound bpv bsx bsy bsz x n y z) as Hb.
  pose proof (run_bound bpv bsx bsy bsz 0 n 0 0) as Hb1.
  split; apply wrap32_small; lia.
Qed.
End BlockLayout.


Section WriteFrame.
Variables bpv bsx bsy bsz cx cy cz sx sy sz ex ey ez : Z.
Hypothesis Hbpv : 0 < bpv.
Hypothesis HT : bpv * bsx * bsy * bsz <= MaxInt32.
Hypothesis Hx : axis_ok cx bsx sx ex.
Hypothesis Hy : axis_ok cy bsy sy ey.
Hypothesis Hz : axis_ok cz bsz sz ez.

Let bvx := Z.max sx (cx * bsx).
Let bvy := Z.max sy (cy * bsy).
Let bvz := Z.max sz (cz * bsz).
Let evx := Z.min ex (cx * bsx + bsx - 1).
Let evy := Z.min ey (cy * bsy + bsy - 1).
Let evz := Z.min ez (cz * bsz + bsz - 1).

(** The byte offset of the voxel [(x, y, z)] of the block. *)
Let offset (z y x : Z) : Z := z * (bsy * (bsx * bpv)) + y * (bsx * bpv) + x * bpv.

Lemma clip_facts :
  (0 < bsx /\ 0 < bsy /\ 0 < bsz)
  /\ (sx <= bvx <= evx /\ evx <= ex /\ 0 <= bvx - cx * bsx /\ evx - cx * bsx < bsx)
  /\ (sy <= bvy <= evy /\ evy <= ey /\ 0 <= bvy - cy * bsy /\ evy - cy * bsy < bsy)
  /\ (sz <= bvz <= evz /\ evz <= ez /\ 0 <= bvz - cz * bsz /\ evz - cz * bsz < bsz).
Proof.
  unfold axis_ok, bvx, bvy, bvz, evx, evy, evz in *. lia.
Qed.

(** A run of [n] voxels from the clipped start along x, in a row [y] and a
    plane [z] of the clipped region, lies in the view. *)
Lemma written_in_view (z y n i : Z) :
  bvz - cz * bsz <= z <= evz - cz * bsz ->
  bvy - cy * bsy <= y <= evy - cy * bsy ->
  0 <= n <= evx - bvx + 1 ->
  offset z y (bvx - cx * bsx) <= i < offset z y (bvx - cx * bsx) + n * bpv ->
  sx <= cx * bsx + (i / bpv) mod bsx <= ex
  /\ sy <= cy * bsy + (i / (bpv * bsx)) mod bsy <= ey
  /\ sz <= cz * bsz + i / (bpv * bsx * bsy) <= ez.
Proof.
  intros Hzr Hyr Hn Hi.
  destruct clip_facts as ((? & ? & ?) & (? & ? & ? & ?) & (? & ? & ? & ?) & (? & ? & ? & ?)).
  unfold offset in Hi.
  assert (Hbox : bvx - cx * bsx <= (i / bpv) mod bsx < bvx - cx * bsx + n
                 /\ (i / (bpv * bsx)) mod bsy = y
                 /\ i / (bpv * bsx * bsy) = z)
    by (apply run_in_box; lia).
  destruct Hbox as (Hxi & Hyi & Hzi).
  rewrite Hyi, Hzi. lia.
Qed.

Lemma offset_nowrap (z y : Z) :
  bvz - cz * bsz <= z <= evz - cz * bsz ->
  bvy - cy * bsy <= y <= evy - cy * bsy ->
  add32 (add32 (mul32 z (bsy * (bsx * bpv))) (mul32 y (bsx * bpv)))
        (mul32 (bvx - cx * bsx) bpv)
  = offset z y (bvx - cx * bsx)
  /\ - 2 ^ 31 <= offset z y (bvx - cx * bsx) < 2 ^ 31.
Proof.
  intros Hzr Hyr.
  destruct clip_facts as ((? & ? & ?) & (? & ? & ? & ?) & (? & ? & ? & ?) & (? & ? & ? & ?)).
  split.
  - apply (blockI_nowrap bpv bsx bsy bsz); try assumption; lia.
  - pose proof (run_bound bpv bsx bsy bsz (bvx - cx * bsx) 0 y z) as Hb.
    unfold offset, MaxInt32 in *. lia.
Qed.

Lemma run_end_nowrap (z y n : Z) :
  bvz - cz * bsz <= z <= evz - cz * bsz ->
  bvy - cy * bsy <= y <= evy - cy * bsy ->
  0 <= n <= evx - bvx + 1 ->
  mul32 n bpv = n * bpv
  /\ add32 (offset z y (bvx - cx * bsx)) (n * bpv)
     = offset z y (bvx - cx * bsx) + n * bpv.
Proof.
  intros Hzr Hyr Hn.
  destruct clip_facts as ((? & ? & ?) & (? & ? & ? & ?) & (? & ? & ? & ?) & (? & ? & ? & ?)).
  apply run_nowrap with (bsz := bsz); try assumption; lia.
Qed.

Lemma bytes_nowrap :
  mul32 (add32 (sub32 (evx - sx) (bvx - sx)) 1) bpv = (evx - bvx + 1) * bpv.
Proof.
  destruct clip_facts as ((? & ? & ?) & (? & ? & ? & ?) & (? & ? & ? & ?) & (? & ? & ? & ?)).
  unfold sub32, add32.
  rewrite (wrap32_small (evx - sx - (bvx - sx))) by (unfold axis_ok, MaxInt32 in *; lia).
  rewrite (wrap32_small (_ + 1)) by (unfold axis_ok, MaxInt32 in *; lia).
  replace (evx - sx - (bvx - sx) + 1) with (evx - bvx + 1) by lia.
  apply (run_end_nowrap (bvz - cz * bsz) (bvy - cy * bsy)); lia.
Qed.

(** Rows of the XY case: row [k] is row [bby + k] of plane [bbz]. *)
Lemma xy_rows_in_view (k : nat) (i : Z) :
  (k < trips (bvy - sy) (evy - sy))%nat ->
  let blockI := offset (bvz - cz * bsz) (bvy - cy * bsy) (bvx - cx * bsx) in
  row_start k blockI (bsx * bpv) <= i
    < add32 (row_start k blockI (bsx * bpv)) ((evx - bvx + 1) * bpv) ->
  sx <= cx * bsx + (i / bpv) mod bsx <= ex
  /\ sy <= cy * bsy + (i / (bpv * bsx)) mod bsy <= ey
  /\ sz <= cz * bsz + i / (bpv * bsx * bsy) <= ez.
Proof.
  intros Hk blockI.
  destruct clip_facts as ((? & ? & ?) & (? & ? & ? & ?) & (? & ? & ? & ?) & (? & ? & ? & ?)).
  unfold trips in Hk.
  assert (Hrow : forall j : nat, (j <= k)%nat ->
            blockI + Z.of_nat j * (bsx * bpv)
            = offset (bvz - cz * bsz) (bvy - cy * bsy + Z.of_nat j) (bvx - cx * bsx)).
  { intros j Hj. unfold blockI, offset. ring. }
  rewrite row_start_small.
  2:{ intros j Hj. rewrite (Hrow j Hj). apply offset_nowrap; lia. }
  rewrite (Hrow k) by lia.
  destruct (run_end_nowrap (bvz - cz * bsz) (bvy - cy * bsy + Z.of_nat k)
              (evx - bvx + 1)) as [_ ->]; try lia.
  apply written_in_view; lia.
Qed.

(** Rows of the XZ case: row [k] is row [bby] of plane [bbz + k]. *)
Lemma xz_rows_in_view (k : nat) (i : Z) :
  (k < trips (bvz - sz) (evz - sz))%nat ->
  let blockI := offset (bvz - cz * bsz) (bvy - cy * bsy) (bvx - cx * bsx) in
  row_start k blockI (bsy * (bsx * bpv)) <= i
    < add32 (row_start k blockI (bsy * (bsx * bpv))) ((evx - bvx + 1) * bpv) ->
  sx <= cx * bsx + (i / bpv) mod bsx <= ex
  /\ sy <= cy * bsy + (i / (bpv * bsx)) mod bsy <= ey
  /\ sz <= cz * bsz + i / (bpv * bsx * bsy) <= ez.
Proof.
  intros Hk blockI.
  destruct clip_facts as ((? & ? & ?) & (? & ? & ? & ?) & (? & ? & ? & ?) & (? & ? & ? & ?)).
  unfold trips in Hk.
  assert (Hrow : forall j : nat, (j <= k)%nat ->
            blockI + Z.of_nat j * (bsy * (bsx * bpv))
            = offset (bvz - cz * bsz + Z.of_nat j) (bvy - cy * bsy) (bvx - cx * bsx)).
  { intros j Hj. unfold blockI, offset. ring. }
  rewrite row_start_small.
  2:{ intros j Hj. rewrite (Hrow j Hj). apply offset_nowrap; lia. }
  rewrite (Hrow k) by lia.
  destruct (run_end_nowrap (bvz - cz * bsz + Z.of_nat k) (bvy - cy * bsy)
              (evx - bvx + 1)) as [_ ->]; try lia.
  apply written_in_view; lia.
Qed.

(** Voxels of the YZ case: turn [j] of the outer and [k] of the inner loop
    is the voxel at the clipped x of row [bby + k] in plane [bbz + j]. *)
Lemma yz_voxels_in_view (j k : nat) (i : Z) :
  (j < trips (bvz - sz) (evz - sz))%nat ->
  (k < trips (bvy - sy) (evy - sy))%nat ->
  let blockI :=
    add32 (add32 (mul32 (row_start j (bvz - cz * bsz) 1) (bsy * (bsx * bpv)))
                 (mul32 (bvy - cy * bsy) (bsx * bpv)))
          (mul32 (bvx - cx * bsx) bpv) in
  row_start k blockI (bsx * bpv) <= i < add32 (row_start k blockI (bsx * bpv)) bpv ->
  sx <= cx * bsx + (i / bpv) mod bsx <= ex
  /\ sy <= cy * bsy + (i / (bpv * bsx)) mod bsy <= ey
  /\ sz <= cz * bsz + i / (bpv * bsx * bsy) <= ez.
Proof.
  intros Hj Hk.
  destruct clip_facts as ((? & ? & ?) & (? & ? & ? & ?) & (? & ? & ? & ?) & (? & ? & ? & ?)).
  unfold trips in Hj, Hk.
  rewrite (row_start_small j) by (intros; unfold axis_ok, MaxInt32, MinInt32 in *; lia).
  rewrite Z.mul_1_r.
  destruct (offset_nowrap (bvz - cz * bsz + Z.of_nat j) (bvy - cy * bsy)) as [-> _];
    try lia.
  intros blockI.
  assert (Hrow : forall m : nat, (m <= k)%nat ->
            blockI + Z.of_nat m * (bsx * bpv)
            = offset (bvz - cz * bsz + Z.of_nat j) (bvy - cy * bsy + Z.of_nat m)
                     (bvx - cx * bsx)).
  { intros m Hm. unfold blockI, offset. ring. }
  rewrite row_start_small.
  2:{ intros m Hm. rewrite (Hrow m Hm). apply offset_nowrap; lia. }
  rewrite (Hrow k) by lia.
  destruct (run_end_nowrap (bvz - cz * bsz + Z.of_nat j) (bvy - cy * bsy + Z.of_nat k) 1)
    as [_ Hend]; try lia.
  rewrite Z.mul_1_l in Hend. rewrite Hend.
  intros Hi.
  apply (written_in_view (bvz - cz * bsz + Z.of_nat j) (bvy - cy * bsy + Z.of_nat k) 1);
    [lia | lia | lia | rewrite Z.mul_1_l; exact Hi].
Qed.
End WriteFrame.

Ltac eval_values H :=
  repeat (first [rewrite Value_0 in H | rewrite Value_1 in H | rewrite Value_2 in H];
          cbn [mbind outcome_bind] in H).

(** C7, amended.  For every block of at most [MaxInt32] bytes that meets a
    view, after a write of the view into the block every byte of the block
    buffer at a position outside the view's region has the value it had
    before the write (and the buffer has kept its length).  Byte [i] of the
    row-major, x-fastest buffer of block [(cx, cy, cz)] belongs to the voxel
    [(cx * bsx + (i / bpv) mod bsx, cy * bsy + (i / (bpv * bsx)) mod bsy,
      cz * bsz + i / (bpv * bsx * bsy))]; the view's region is the box from
    its start point to its end point.  The sizes and coordinates are those
    of a well-formed request: they fit int32 and the block holds at most
    [MaxInt32] bytes. *)
Theorem WriteToBlock_frame
    (v : Voxels) (key : datastore.DataKey) (blockV data' blockV' : list byte)
    (bsx bsy bsz cx cy cz sx sy sz ex ey ez : Z) :
  let bpv := BytesPerVoxel (values v) in
  StartPoint (geom v) = [sx; sy; sz] -> EndPoint (geom v) = [ex; ey; ez] ->
  datastore.Index key = [cx; cy; cz] ->
  0 < bpv -> bpv * bsx * bsy * bsz <= MaxInt32 ->
  axis_ok cx bsx sx ex -> axis_ok cy bsy sy ey -> axis_ok cz bsz sz ez ->
  WriteToBlock v (mkBlock (Some key) blockV) [bsx; bsy; bsz] = Returns (Ok (data', blockV')) ->
  length blockV' = length blockV
  /\ forall i : nat,
      ~ (sx <= cx * bsx + (Z.of_nat i / bpv) mod bsx <= ex
         /\ sy <= cy * bsy + (Z.of_nat i / (bpv * bsx)) mod bsy <= ey
         /\ sz <= cz * bsz + Z.of_nat i / (bpv * bsx * bsy) <= ez) ->
      blockV' !! i = blockV !! i.
Proof.
  intros bpv Hs He Hk Hbpv HT Hx Hy Hz Hw.
  unfold WriteToBlock, transferBlock in Hw.
  change (3 <? NumDims [bsx; bsy; bsz]) with false in Hw. cbv iota in Hw.
  unfold ComputeTransform in Hw. cbn [K datastore.KeyToPointIndexer] in Hw.
  rewrite Hs, He, Hk in Hw.
  cbn [FirstPoint LastPoint Max Min Sub zip_with fst blockBeg dataBeg dataEnd V] in Hw.
  fold bpv in Hw.
  destruct (axis_facts _ _ _ _ Hx) as (Ex1 & Ex2 & Ex3 & Ex4 & Ex5).
  destruct (axis_facts _ _ _ _ Hy) as (Ey1 & Ey2 & Ey3 & Ey4 & Ey5).
  destruct (axis_facts _ _ _ _ Hz) as (Ez1 & Ez2 & Ez3 & Ez4 & Ez5).
  rewrite Ex1, Ey1, Ez1, Ex2, Ey2, Ez2, Ex3, Ey3, Ez3, Ex4, Ey4, Ez4, Ex5, Ey5, Ez5 in Hw.
  clear Ex1 Ey1 Ez1 Ex2 Ey2 Ez2 Ex3 Ey3 Ez3 Ex4 Ey4 Ez4 Ex5 Ey5 Ez5.
  eval_values Hw.
  assert (Hpos : 0 < bsx /\ 0 < bsy /\ 0 < bsz) by (unfold axis_ok in *; lia).
  destruct Hpos as (Hbsx & Hbsy & Hbsz).
  destruct (strides_nowrap bpv bsx bsy bsz Hbpv Hbsx Hbsy Hbsz HT) as [EbX EbY].
  rewrite EbX, EbY in Hw.
  assert (Hstay : forall i : nat, blockV !! i = blockV !! i) by reflexivity.
  destruct (Equals (geom_DataShape (geom v)) XY) eqn:Exy;
    [|destruct (Equals (geom_DataShape (geom v)) XZ) eqn:Exz;
      [|destruct (Equals (geom_DataShape (geom v)) YZ) eqn:Eyz;
        [|destruct (ShapeDimensions (geom_DataShape (geom v)) =? 2);
          [discriminate
          |destruct (Equals (geom_DataShape (geom v)) Vol3d) eqn:Evol;
            [|discriminate]]]]].
  - (* XY *)
    eval_values Hw.
    destruct (offset_nowrap bpv bsx bsy bsz cx cy cz sx sy sz ex ey ez Hbpv HT Hx Hy Hz
                (Z.max sz (cz * bsz) - cz * bsz) (Z.max sy (cy * bsy) - cy * bsy)) as [Eoff _];
      [unfold axis_ok in *; lia | unfold axis_ok in *; lia|].
    rewrite Eoff in Hw.
    rewrite (bytes_nowrap bpv bsx bsy bsz cx cy cz sx sy sz ex ey ez Hbpv HT Hx Hy Hz) in Hw.
    match type of Hw with
    | mbind _ ?m = _ => destruct m as [[d1 b1]|] eqn:E
    end; cbn in Hw; [|discriminate].
    injection Hw as <- <-.
    destruct (rows_loop_ToBlock _ _ _ _ _ _ _ _ _ _ E) as [Hlen Hf].
    split; [exact Hlen|]. intros i Hnot. apply Hf. intros k Hlt Hi. apply Hnot.
    eapply (xy_rows_in_view bpv bsx bsy bsz cx cy cz sx sy sz ex ey ez Hbpv HT Hx Hy Hz);
      eassumption.
  - (* XZ *)
    eval_values Hw.
    destruct (offset_nowrap bpv bsx bsy bsz cx cy cz sx sy sz ex ey ez Hbpv HT Hx Hy Hz
                (Z.max sz (cz * bsz) - cz * bsz) (Z.max sy (cy * bsy) - cy * bsy)) as [Eoff _];
      [unfold axis_ok in *; lia | unfold axis_ok in *; lia|].
    rewrite Eoff in Hw.
    rewrite (bytes_nowrap bpv bsx bsy bsz cx cy cz sx sy sz ex ey ez Hbpv HT Hx Hy Hz) in Hw.
    match type of Hw with
    | mbind _ ?m = _ => destruct m as [[d1 b1]|] eqn:E
    end; cbn in Hw; [|discriminate].
    injection Hw as <- <-.
    destruct (rows_loop_ToBlock _ _ _ _ _ _ _ _ _ _ E) as [Hlen Hf].
    split; [exact Hlen|]. intros i Hnot. apply Hf. intros k Hlt Hi. apply Hnot.
    eapply (xz_rows_in_view bpv bsx bsy bsz cx cy cz sx sy sz ex ey ez Hbpv HT Hx Hy Hz);
      eassumption.
  - (* YZ *)
    eval_values Hw.
    match type of Hw with context [(?t =? 0)%nat] => destruct (t =? 0)%nat end.
    { injection Hw as <- <-. split; [reflexivity|]. intros; reflexivity. }
    eval_values Hw.
    match type of Hw with
    | mbind _ ?m = _ => destruct m as [[d1 b1]|] eqn:E
    end; cbn in Hw; [|discriminate].
    injection Hw as <- <-.
    destruct (yz_loop_ToBlock _ _ _ _ _ _ _ _ _ _ _ _ _ _ _ E) as [Hlen Hf].
    split; [exact Hlen|]. intros i Hnot. apply Hf. intros j k Hj Hlt blockI Hi. apply Hnot.
    eapply (yz_voxels_in_view bpv bsx bsy bsz cx cy cz sx sy sz ex ey ez Hbpv HT Hx Hy Hz);
      eassumption.
  - (* Vol3d: the write copies out of the block *)
    eval_values Hw.
    destruct (Value (Size (geom v)) 0) as [size0|]; cbn [mbind outcome_bind] in Hw;
      [|discriminate].
    destruct (Value (Size (geom v)) 1) as [size1|]; cbn [mbind outcome_bind] in Hw;
      [|discriminate].
    eval_values Hw.
    match type of Hw with context [(?t =? 0)%nat] => destruct (t =? 0)%nat end.
    { injection Hw as <- <-. split; [reflexivity|]. intros; reflexivity. }
    eval_values Hw.
    match type of Hw with
    | mbind _ ?m = _ => destruct m as [[d1 b1]|] eqn:E
    end; cbn in Hw; [|discriminate].
    injection Hw as <- <-.
    apply vol_loop_kept in E. simpl in E. subst b1.
    split; [reflexivity|]. intros; reflexivity.
Qed.

Lemma WriteToBlock_frame_witness :
  let v := mkVoxels (mkGeometry XY [3; 2] 6 [1; 1; 0] [3; 2; 0])
             [mkDataValue "uint8" "grayscale"]
             [x01; x02; x03; x04; x05; x06] 3 in
  let key := datastore.mkDataKey 1 1 1 [0; 0; 0] in
  let blockV' := [x00; x00; x00; x01; x00; x00; x00; x00] in
  WriteToBlock v (mkBlock (Some key) (make_bytes 8)) [2; 2; 2]
  = Returns (Ok (data v, blockV'))
  /\ length blockV' = length (make_bytes 8)
  /\ forall i : nat,
      ~ (1 <= 0 * 2 + (Z.of_nat i / 1) mod 2 <= 3
         /\ 1 <= 0 * 2 + (Z.of_nat i / (1 * 2)) mod 2 <= 2
         /\ 0 <= 0 * 2 + Z.of_nat i / (1 * 2 * 2) <= 0) ->
      blockV' !! i = make_bytes 8 !! i.
Proof.
  intros v key blockV'. split; [vm_compute; reflexivity|].
  apply (WriteToBlock_frame v key (make_bytes 8) (data v) blockV'
           2 2 2 0 0 0 1 1 0 3 2 0);
    try reflexivity;
    try (unfold axis_ok, MinInt32, MaxInt32; lia).
  vm_compute. discriminate.
Defined.

(** C7, as stated for every block, fails for a block of more than
    [MaxInt32] bytes: with blocks of 65536 x 65536 x 2 one-byte voxels the
    stride of a plane, 65536 * 65536, is 0 in int32, so the write of the
    one voxel of an XY slice at [z = 1] goes to byte 0 of block
    [(0, 0, 0)], the byte of the voxel [(0, 0, 0)], which is outside the
    slice.  Coordinates and sizes fit int32 and the block meets the view. *)
Lemma WriteToBlock_frame_plane_stride_wraps :
  let v := mkVoxels (mkGeometry XY [1; 1] 1 [0; 0; 1] [0; 0; 1])
             [mkDataValue "uint8" "grayscale"] [xab] 1 in
  let key := datastore.mkDataKey 1 1 1 [0; 0; 0] in
  let bpv := BytesPerVoxel (values v) in
  (axis_ok 0 65536 0 0 /\ axis_ok 0 65536 0 0 /\ axis_ok 0 2 1 1)
  /\ bpv = 1 /\ MaxInt32 < bpv * 65536 * 65536 * 2
  /\ WriteToBlock v (mkBlock (Some key) [x11; x22]) [65536; 65536; 2]
     = Returns (Ok ([xab], [xab; x22]))
  /\ ~ (1 <= 0 * 2 + Z.of_nat 0 / (bpv * 65536 * 65536) <= 1)
  /\ [xab; x22] !! 0%nat <> [x11; x22] !! 0%nat.
Proof.
  intros v key bpv.
  split; [unfold axis_ok, MinInt32, MaxInt32; lia|].
  split; [reflexivity|].
  split; [vm_compute; reflexivity|].
  split; [vm_compute; reflexivity|].
  split; [intros [H _]; vm_compute in H; apply H; reflexivity|].
  discriminate.
Qed.

(** ** The direction of a transfer *)

Ltac bind_values H :=
  repeat match type of H with
         | context [mbind _ (Value ?p ?d)] =>
             destruct (Value p d); cbn [mbind outcome_bind] in H; [|discriminate H]
         end.

Ltac bind_loop H E :=
  match type of H with
  | mbind _ ?m = _ => destruct m eqn:E; cbn [mbind outcome_bind mret outcome_ret] in H;
                      [|discriminate H]
  end.

(** Which buffer a transfer that returns nil has left alone: for the XY, XZ
    and YZ shapes a read copies to the view and a write copies to the
    block; in the remaining case, Vol3d, a read copies to the block and a
    write copies to the view. *)
Lemma transferBlock_kept (op : OpType) (v : Voxels) (block : Block)
    (blockSize : Point) (bufs' : list byte * list byte) :
  transferBlock op v block blockSize = Returns (Ok bufs') ->
  let s := geom_DataShape (geom v) in
  kept (if Equals s XY || Equals s XZ || Equals s YZ
        then match op with GetOp => ToData | PutOp => ToBlock end
        else match op with GetOp => ToBlock | PutOp => ToData end)
       (data v, V block) bufs'.
Proof.
  intros Hw s. unfold transferBlock in Hw. fold s in Hw.
  destruct (3 <? NumDims blockSize); [discriminate|].
  destruct (ComputeTransform v block blockSize) as [ob|]; [|discriminate].
  destruct (Value blockSize 0); cbn [mbind outcome_bind] in Hw; [|discriminate].
  destruct (Value blockSize 1); cbn [mbind outcome_bind] in Hw; [|discriminate].
  destruct (Equals s XY); cbn [orb].
  { bind_values Hw. bind_loop Hw E. injection Hw as <-.
    eapply rows_loop_kept, E. }
  destruct (Equals s XZ); cbn [orb].
  { bind_values Hw. bind_loop Hw E. injection Hw as <-.
    eapply rows_loop_kept, E. }
  destruct (Equals s YZ); cbn [orb].
  { bind_values Hw.
    match type of Hw with context [(?t =? 0)%nat] => destruct (t =? 0)%nat end.
    - injection Hw as <-. apply kept_refl.
    - bind_values Hw. bind_loop Hw E. injection Hw as <-.
      eapply yz_loop_kept, E. }
  destruct (ShapeDimensions s =? 2); [discriminate|].
  destruct (Equals s Vol3d); [|discriminate].
  bind_values Hw.
  match type of Hw with context [(?t =? 0)%nat] => destruct (t =? 0)%nat end.
  - injection Hw as <-. apply kept_refl.
  - bind_values Hw. bind_loop Hw E. injection Hw as <-.
    eapply vol_loop_kept, E.
Qed.

(** A read of a 3d subvolume never changes the view buffer. *)
Lemma ReadFromBlock_Vol3d_keeps_view (v : Voxels) (block : Block)
    (blockSize : Point) (data' blockV' : list byte) :
  geom_DataShape (geom v) = Vol3d ->
  ReadFromBlock v block blockSize = Returns (Ok (data', blockV')) ->
  data' = data v.
Proof.
  intros Hs Hr. apply transferBlock_kept in Hr. rewrite Hs in Hr. exact Hr.
Qed.

(** A write of a 3d subvolume never changes the block buffer. *)
Lemma WriteToBlock_Vol3d_keeps_block (v : Voxels) (block : Block)
    (blockSize : Point) (data' blockV' : list byte) :
  geom_DataShape (geom v) = Vol3d ->
  WriteToBlock v block blockSize = Returns (Ok (data', blockV')) ->
  blockV' = V block.
Proof.
  intros Hs Hr. apply transferBlock_kept in Hr. rewrite Hs in Hr. exact Hr.
Qed.

(** C2 at a failing input.  For the 3d subvolume of the one voxel (0,0,0),
    holding ab, and block (0,0,0) of size (2,2,2), holding 11 throughout:
    the read leaves the view as it is and writes ab into the block; the
    write leaves the block as it is and overwrites the view with 11.  For
    the XY slice of the same voxel the read copies 11 into the view and
    the write copies ab into the block. *)
Theorem transferBlock_Vol3d_direction_swapped :
  let values := [mkDataValue "uint8" "grayscale"] in
  let vol := mkVoxels (Subvolume_Geometry (NewSubvolume [0; 0; 0] [1; 1; 1]))
               values [xab] 1 in
  let xy := mkVoxels (mkGeometry XY [1; 1] 1 [0; 0; 0] [0; 0; 0]) values [xab] 1 in
  let blockV := [x11; x11; x11; x11; x11; x11; x11; x11] in
  let block := mkBlock (Some (datastore.mkDataKey 1 1 1 [0; 0; 0])) blockV in
  ReadFromBlock vol block [2; 2; 2]
  = Returns (Ok ([xab], [xab; x11; x11; x11; x11; x11; x11; x11]))
  /\ WriteToBlock vol block [2; 2; 2] = Returns (Ok ([x11], blockV))
  /\ ReadFromBlock xy block [2; 2; 2] = Returns (Ok ([x11], blockV))
  /\ WriteToBlock xy block [2; 2; 2]
     = Returns (Ok ([xab], [xab; x11; x11; x11; x11; x11; x11; x11])).
Proof.
  repeat split; vm_compute; reflexivity.
Qed.

(** C1 at a failing input.  On a uint8 data instance with blocks of
    (2,2,2) and an empty backend, PutImage of the 3d subvolume of the one
    voxel (0,0,0) holding ab stores an all-zero block (and overwrites the
    caller's buffer with 00); GetVoxels of the same subvolume into a fresh
    handler then returns 00, not ab.  The same round trip through an XY
    slice returns ab; and after the put of the XY slice, GetVoxels of the
    3d subvolume of that voxel still returns 00. *)
Theorem PutImage_GetVoxels_Vol3d_loses_data :
  let values := [mkDataValue "uint8" "grayscale"] in
  let d := mkData (datastore.mkDataID "grayscale" 1 1) values [2; 2; 2]
                  (mkExtents None None None None) in
  let g := Subvolume_Geometry (NewSubvolume [0; 0; 0] [1; 1; 1]) in
  let put_get (gput gget : Geometry) :=
    '(_, _, e, db) ← PutImage (H := snappy_reference) 7 d (mkVoxels gput values [xab] 1) ∅;
    r ← NewExtHandler (10 ^ 9) d gget NoImage;
    match r with
    | Err _ => Panics
    | Ok fresh =>
        e' ← GetVoxels (H := snappy_reference) 7 d fresh db;
        mret (data e, data e')
    end in
  let xy := mkGeometry XY [1; 1] 1 [0; 0; 0] [0; 0; 0] in
  put_get g g = Returns ([x00], [x00])
  /\ put_get xy xy = Returns ([xab], [xab])
  /\ put_get xy g = Returns ([xab], [x00]).
Proof.
  repeat split; vm_compute; reflexivity.
Qed.

(** * Further properties *)

(** ** The format byte and the codec's error paths *)

Lemma land15_wrap8 (x : Z) : Z.land (wrap8 x) 15 = x mod 16.
Proof.
  unfold wrap8. change 15 with (Z.ones 4). rewrite Z.land_ones by lia.
  change (2 ^ 4) with 16. apply Z.mod_mod_divide.
  exists 16. reflexivity.
Qed.

Lemma nibble_cases (a : Z) :
  0 <= a < 16 ->
  a = 0 \/ a = 1 \/ a = 2 \/ a = 3 \/ a = 4 \/ a = 5 \/ a = 6 \/ a = 7
  \/ a = 8 \/ a = 9 \/ a = 10 \/ a = 11 \/ a = 12 \/ a = 13 \/ a = 14 \/ a = 15.
Proof. lia. Qed.

(** X1. The format byte keeps the low four bits of each code: for every
    compression code and checksum code, decoding the encoded byte gives both
    codes back modulo 16, so every code below 16 comes back as it was; the
    encoded value fits one byte. *)
Theorem SerializationFormat_roundtrip (c k : Z) :
  DecodeSerializationFormat (EncodeSerializationFormat c k) = (c mod 16, k mod 16)
  /\ 0 <= EncodeSerializationFormat c k < 256.
Proof.
  unfold DecodeSerializationFormat, EncodeSerializationFormat. cbv zeta.
  rewrite !land15_wrap8.
  pose proof (nibble_cases (c mod 16) (Z.mod_pos_bound c 16 eq_refl)) as Hc.
  pose proof (nibble_cases (k mod 16) (Z.mod_pos_bound k 16 eq_refl)) as Hk.
  generalize dependent (k mod 16). generalize dependent (c mod 16).
  intros a Ha b Hb.
  repeat (destruct Ha as [-> | Ha]); try subst a;
    repeat (destruct Hb as [-> | Hb]); try subst b;
    (split; [reflexivity | vm_compute; split; [discriminate | reflexivity]]).
Qed.

(** X2. DeserializeData gives no data and an error for every input with a
    malformed header: the empty input, an input whose format byte names a
    checksum other than none and CRC32, and an input that announces a CRC32
    but holds fewer than four bytes after the format byte. *)
Theorem DeserializeData_malformed_header `{SnappyLib} (s : list byte) (uncompress : bool) :
  match s with
  | [] => True
  | b :: rest =>
      let checksum := snd (DecodeSerializationFormat (byte_to_Z b)) in
      (checksum <> NoChecksum /\ checksum <> CRC32)
      \/ (checksum = CRC32 /\ (length rest < 4)%nat)
  end ->
  des_data (DeserializeData s uncompress) = []
  /\ des_err (DeserializeData s uncompress) <> None.
Proof.
  destruct s as [|b rest]; [intros _; split; [reflexivity | discriminate]|].
  cbv zeta. intros Hbad. unfold DeserializeData.
  change (binary.ReadUint8 (b :: rest)) with (Ok (byte_to_Z b, rest)).
  cbv iota beta.
  destruct (DecodeSerializationFormat (byte_to_Z b)) as [compress checksum].
  cbn [snd] in Hbad.
  destruct Hbad as [[Hn Hc] | [-> Hlen]].
  - destruct (Z.eqb_spec checksum NoChecksum); [contradiction|].
    destruct (Z.eqb_spec checksum CRC32); [contradiction|].
    split; [reflexivity | discriminate].
  - change (CRC32 =? NoChecksum) with false. change (CRC32 =? CRC32) with true.
    cbv iota.
    destruct rest as [|b0 [|b1 [|b2 [|b3 rest]]]]; simpl in Hlen; try lia;
      (split; [reflexivity | discriminate]).
Qed.

Lemma DeserializeData_malformed_header_witness :
  des_data (DeserializeData (H := snappy_reference) [x02; x01; x02; x03] true) = []
  /\ des_err (DeserializeData (H := snappy_reference) [x02; x01; x02; x03] true) <> None.
Proof.
  apply (@DeserializeData_malformed_header snappy_reference [x02; x01; x02; x03] true).
  right. split; [reflexivity | simpl; lia].
Defined.

(** X3. SerializeData succeeds exactly for the two compression codes and
    the two checksum codes (and, with Snappy, when the encoder succeeds),
    and what it returns is then the format byte, the four bytes of the
    little-endian CRC-32 of the stored body when a checksum was asked for,
    and the body, which is the payload or its Snappy encoding. *)
Theorem SerializeData_Ok_iff `{SnappyLib} (p s : list byte) (c k : Z) :
  SerializeData p c k = Ok s
  <-> exists e,
        ((c = Uncompressed /\ e = p) \/ (c = Snappy /\ snappy_Encode p = Ok e))
        /\ (k = NoChecksum \/ k = CRC32)
        /\ s = byte_of_Z (EncodeSerializationFormat c k)
                 :: (if k =? CRC32 then binary.PutUint32 (crc32.ChecksumIEEE e) else [])
                 ++ e.
Proof.
  unfold SerializeData. cbv zeta. split.
  - intros Hs.
    destruct (Z.eqb_spec c Uncompressed) as [Hc|Hc]; [subst c|].
    + exists p. split; [left; split; reflexivity|].
      destruct (Z.eqb_spec k NoChecksum) as [Hk|Hk];
        [subst k; injection Hs as <-; split; [left; reflexivity | reflexivity]|].
      destruct (Z.eqb_spec k CRC32) as [Hk2|Hk2]; [subst k|discriminate].
      injection Hs as <-. split; [right; reflexivity | reflexivity].
    + destruct (Z.eqb_spec c Snappy) as [Hc2|Hc2]; [subst c|discriminate].
      destruct (snappy_Encode p) as [e|msg]; [|discriminate].
      exists e. split; [right; split; reflexivity|].
      destruct (Z.eqb_spec k NoChecksum) as [Hk|Hk];
        [subst k; injection Hs as <-; split; [left; reflexivity | reflexivity]|].
      destruct (Z.eqb_spec k CRC32) as [Hk2|Hk2]; [subst k|discriminate].
      injection Hs as <-. split; [right; reflexivity | reflexivity].
  - intros (e & Hc & Hk & Hs). subst s.
    destruct Hc as [[Hc He] | [Hc He]]; subst c.
    + subst e. destruct Hk as [Hk | Hk]; subst k; reflexivity.
    + change (Snappy =? Uncompressed) with false.
      change (Snappy =? Snappy) with true. cbv iota. rewrite He.
      destruct Hk as [Hk | Hk]; subst k; reflexivity.
Qed.

(** X4. With [uncompress] false DeserializeData returns the stored body as
    it is: for every value that SerializeData returned, the data returned
    is the payload when no compression was used and the Snappy encoding of
    the payload otherwise, together with the compression code and no
    error. *)
Theorem DeserializeData_stored_body `{SnappyLib} (p s : list byte) (c k : Z) :
  SerializeData p c k = Ok s ->
  exists e,
    (if c =? Uncompressed then Ok p else snappy_Encode p) = Ok e
    /\ DeserializeData s false = mkDeserialized e c None.
Proof.
  intros Hs.
  assert (Hfr : exists e,
             (if c =? Uncompressed then Ok p else snappy_Encode p) = Ok e
             /\ (c = Uncompressed \/ c = Snappy) /\ (k = NoChecksum \/ k = CRC32)
             /\ s = byte_of_Z (EncodeSerializationFormat c k)
                      :: (if k =? CRC32 then binary.PutUint32 (crc32.ChecksumIEEE e)
                          else []) ++ e).
  { unfold SerializeData in Hs. cbv zeta in Hs.
    destruct (Z.eqb_spec c Uncompressed) as [Hc|Hc]; [subst c|].
    - exists p. split; [reflexivity|]. split; [left; reflexivity|].
      destruct (Z.eqb_spec k NoChecksum) as [Hk|Hk];
        [subst k; injection Hs as <-; split; [left; reflexivity | reflexivity]|].
      destruct (Z.eqb_spec k CRC32) as [Hk2|Hk2]; [subst k|discriminate].
      injection Hs as <-. split; [right; reflexivity | reflexivity].
    - destruct (Z.eqb_spec c Snappy) as [Hc2|Hc2]; [subst c|discriminate].
      destruct (snappy_Encode p) as [e|msg]; [|discriminate].
      exists e. split; [reflexivity|]. split; [right; reflexivity|].
      destruct (Z.eqb_spec k NoChecksum) as [Hk|Hk];
        [subst k; injection Hs as <-; split; [left; reflexivity | reflexivity]|].
      destruct (Z.eqb_spec k CRC32) as [Hk2|Hk2]; [subst k|discriminate].
      injection Hs as <-. split; [right; reflexivity | reflexivity]. }
  destruct Hfr as (e & He & Hc & Hk & ->). exists e. split; [exact He|].
  unfold DeserializeData.
  change (binary.ReadUint8 (?x :: ?r)) with (Ok (byte_to_Z x, r)).
  cbv iota beta.
  destruct (format_byte_value c k Hc Hk) as [_ ->]. cbv iota beta.
  destruct Hk as [-> | ->].
  - change (NoChecksum =? NoChecksum) with true.
    change (NoChecksum =? CRC32) with false. cbv iota.
    rewrite andb_false_l, app_nil_l. reflexivity.
  - change (CRC32 =? NoChecksum) with false.
    change (CRC32 =? CRC32) with true. cbv iota.
    rewrite ReadUint32_PutUint32.
    rewrite (Z.mod_small _ _ (crc32_facts.ChecksumIEEE_range e)).
    rewrite Z.eqb_refl. reflexivity.
Qed.

Lemma DeserializeData_stored_body_witness :
  exists e,
    (if Snappy =? Uncompressed then Ok [x61]
     else snappy_Encode (SnappyLib := snappy_reference) [x61]) = Ok e
    /\ DeserializeData (H := snappy_reference)
         [x22; xeb; xe2; x36; xc4; x01; x00; x61] false
       = mkDeserialized e Snappy None.
Proof.
  apply (@DeserializeData_stored_body snappy_reference [x61]
           [x22; xeb; xe2; x36; xc4; x01; x00; x61] Snappy CRC32).
  vm_compute. reflexivity.
Defined.

(** X5. Where the result of the checksum test is not overwritten, a
    changed byte is reported: for a stored value with a CRC-32 whose body
    differs in one byte from the body the checksum was taken of,
    DeserializeData returns the error of the checksum test (with the body
    as stored) whenever the value is uncompressed, and for a Snappy value
    whenever [uncompress] is false. *)
Theorem DeserializeData_bad_checksum_reported
    `{SnappyLib} (pre suf : list byte) (b b' : byte) (c : Z) (uncompress : bool) :
  b <> b' ->
  c = Uncompressed \/ (c = Snappy /\ uncompress = false) ->
  DeserializeData
    (byte_of_Z (EncodeSerializationFormat c CRC32)
       :: binary.PutUint32 (crc32.ChecksumIEEE (pre ++ b :: suf))
       ++ pre ++ b' :: suf) uncompress
  = mkDeserialized (pre ++ b' :: suf) c (Some "Bad checksum"%string).
Proof.
  intros Hne Hc. unfold DeserializeData.
  change (binary.ReadUint8 (?x :: ?r)) with (Ok (byte_to_Z x, r)).
  cbv iota beta.
  assert (Hc' : c = Uncompressed \/ c = Snappy) by tauto.
  destruct (format_byte_value c CRC32 Hc') as [_ ->]; [right; reflexivity|].
  cbv iota beta.
  change (CRC32 =? NoChecksum) with false. change (CRC32 =? CRC32) with true.
  cbv iota. rewrite ReadUint32_PutUint32.
  rewrite (Z.mod_small _ _ (crc32_facts.ChecksumIEEE_range (pre ++ b :: suf))).
  pose proof (crc32_facts.ChecksumIEEE_single_byte pre suf b b' Hne) as Hd.
  destruct (Z.eqb_spec (crc32.ChecksumIEEE (pre ++ b' :: suf))
              (crc32.ChecksumIEEE (pre ++ b :: suf))) as [E|E]; [congruence|].
  cbn [negb andb].
  destruct Hc as [-> | [-> ->]]; [destruct uncompress|]; reflexivity.
Qed.

Lemma DeserializeData_bad_checksum_reported_witness :
  DeserializeData (H := snappy_reference)
    (byte_of_Z (EncodeSerializationFormat Snappy CRC32)
       :: binary.PutUint32 (crc32.ChecksumIEEE ([x01; x00] ++ x61 :: []))
       ++ [x01; x00] ++ x62 :: []) false
  = mkDeserialized ([x01; x00] ++ x62 :: []) Snappy (Some "Bad checksum"%string).
Proof.
  apply (@DeserializeData_bad_checksum_reported snappy_reference
           [x01; x00] [] x61 x62 Snappy false).
  - discriminate.
  - right. split; reflexivity.
Defined.

(** ** Shapes and geometries *)

(** X6. [Equals] decides whether two shapes are the same: it returns true
    exactly when the two have the same number of dimensions and the same
    list of shape dimensions, whichever of the two is the receiver. *)
Theorem Equals_true_iff (s s2 : DataShape) :
  (Equals s s2 = true <-> s = s2) /\ Equals s s2 = Equals s2 s.
Proof.
  split; [apply Equals_eq|].
  destruct (Equals s s2) eqn:E, (Equals s2 s) eqn:E2; try reflexivity.
  - apply Equals_eq in E. subst s2. rewrite (proj2 (Equals_eq s s) eq_refl) in E2.
    discriminate.
  - apply Equals_eq in E2. subst s2. rewrite (proj2 (Equals_eq s s) eq_refl) in E.
    discriminate.
Qed.

(** X7. The seven bytes of a shape give the shape back: for every shape
    of at most five shape dimensions (dimension numbers being uint8),
    [Bytes] returns seven bytes from which [BytesToDataShape] recovers the
    shape.  From the sixth shape dimension on [Bytes] writes past its
    buffer and panics. *)
Theorem Bytes_BytesToDataShape (s : DataShape) :
  0 <= dims s < 256 -> Forall (fun d => 0 <= d < 256) (shape s) ->
  if (length (shape s) <=? 5)%nat
  then exists b, Bytes s = Returns b /\ length b = 7%nat
                 /\ BytesToDataShape b = Returns (Ok s)
  else Bytes s = Panics.
Proof.
  destruct s as [d sh]. cbn [dims shape]. intros Hd Hsh.
  assert (Hb : forall z, 0 <= z < 256 -> byte_to_Z (byte_of_Z z) = z)
    by (intros z Hz; rewrite byte_to_of_Z; apply Z.mod_small; lia).
  unfold Bytes, BytesToDataShape, make_bytes, DataShapeBytes. cbn [dims shape].
  change (Z.to_nat 7) with 7%nat. cbn [replicate].
  destruct sh as [|d0 [|d1 [|d2 [|d3 [|d4 [|d5 rest]]]]]];
    repeat match goal with
           | H : Forall _ (_ :: _) |- _ =>
               let Hx := fresh "Hx" in apply Forall_cons in H; destruct H as [Hx H]
           end;
    cbv -[byte_of_Z byte_to_Z]; try reflexivity;
    (eexists; split; [reflexivity|]; split; [reflexivity|]);
    repeat (rewrite !Hb by lia; cbv -[byte_of_Z byte_to_Z]);
    reflexivity.
Qed.

Lemma Bytes_BytesToDataShape_witness :
  exists b, Bytes YZ = Returns b /\ length b = 7%nat
            /\ BytesToDataShape b = Returns (Ok YZ).
Proof.
  apply (Bytes_BytesToDataShape YZ).
  - cbn. lia.
  - repeat constructor; lia.
Defined.

(** X8. [Duplicate] loses the shape dimensions: it copies them into a nil
    slice, which takes none, so the duplicate has the dimensionality of
    the original and no shape dimensions, and equals the original only when
    that had none either. *)
Theorem Duplicate_drops_shape (s : DataShape) :
  Duplicate s = mkDataShape (dims s) []
  /\ (Equals (Duplicate s) s = true <-> shape s = []).
Proof.
  assert (Hdup : Duplicate s = mkDataShape (dims s) []).
  { unfold Duplicate, copy_slice. cbn. reflexivity. }
  split; [exact Hdup|]. rewrite Hdup. rewrite Equals_eq.
  destruct s as [d sh]. cbn. split; [intros [= <-]; reflexivity | intros ->; reflexivity].
Qed.

(** X9. NewOrthogSlice returns a slice exactly when the offset has as many
    coordinates as the shape has dimensions and the shape names two
    dimensions, both below that number; the slice then keeps the shape, the
    offset and the size it was given.  So a 3d offset makes a slice for XY,
    XZ and YZ and none for a subvolume or an arbitrary orientation. *)
Theorem NewOrthogSlice_Ok_iff (s : DataShape) (offset : Point) (size : Z * Z) :
  ((exists g, NewOrthogSlice s offset size = Ok g)
   <-> (NumDims offset = dims s
        /\ exists xDim yDim, shape s = [xDim; yDim] /\ xDim < dims s /\ yDim < dims s))
  /\ (forall g, NewOrthogSlice s offset size = Ok g ->
        os_shape g = s /\ os_offset g = offset /\ os_size g = size
        /\ length (os_endPoint g) = length offset).
Proof.
  unfold NewOrthogSlice.
  destruct (Z.eqb_spec (NumDims offset) (dims s)) as [Hn|Hn]; cbn [negb].
  2:{ split; [split; [intros [g Hg]; discriminate | tauto] | discriminate]. }
  destruct (shape s) as [|xDim [|yDim [|z rest]]] eqn:Hsh.
  1,2,4: split;
    [split; [intros [g Hg]; discriminate
            | intros (_ & x & y & Hxy & _); discriminate]
    | discriminate].
  destruct (Z.leb_spec (dims s) xDim) as [Hx|Hx].
  { split; [split; [intros [g Hg]; discriminate
                   | intros (_ & x & y & [= <- <-] & ? & ?); lia]
           | discriminate]. }
  destruct (Z.leb_spec (dims s) yDim) as [Hy|Hy].
  { split; [split; [intros [g Hg]; discriminate
                   | intros (_ & x & y & [= <- <-] & ? & ?); lia]
           | discriminate]. }
  split.
  - split; [intros _; split; [exact Hn|]; exists xDim, yDim; auto
           | intros _; eexists; reflexivity].
  - intros g [= <-]. cbn [os_shape os_offset os_size os_endPoint].
    split; [reflexivity|]. split; [reflexivity|]. split; [reflexivity|].
    unfold Modify, Point in *. cbn. rewrite !length_insert. reflexivity.
Qed.

(** X10. A subvolume counts its voxels in 64 bits: for int32 extents
    whose product fits int64 the count is the product of the three
    extents, also where that is beyond int32. *)
Theorem Subvolume_NumVoxels_exact (offset : Point) (a b c : Z) :
  MinInt32 <= a <= MaxInt32 -> MinInt32 <= b <= MaxInt32 ->
  - 2 ^ 63 <= a * b * c < 2 ^ 63 ->
  NumVoxels (Subvolume_Geometry (NewSubvolume offset [a; b; c])) = a * b * c.
Proof.
  intros Ha Hb Hc. cbn. unfold mul64, MinInt32, MaxInt32 in *.
  rewrite (wrap64_small (a * b)) by nia. apply wrap64_small. lia.
Qed.

Lemma Subvolume_NumVoxels_exact_witness :
  NumVoxels (Subvolume_Geometry (NewSubvolume [0; 0; 0] [65537; 65536; 2]))
  = 65537 * 65536 * 2.
Proof.
  apply (Subvolume_NumVoxels_exact [0; 0; 0] 65537 65536 2);
    unfold MinInt32, MaxInt32; lia.
Defined.

Lemma blocks_one_axis (start size blockLength : Z) :
  0 <= start -> 0 < size -> 0 < blockLength -> start + size <= MaxInt32 ->
  let startMod := wrap32 (Z.rem start blockLength) in
  let len := add32 size startMod in
  let blocks := wrap32 (Z.quot len blockLength) in
  (if negb (wrap32 (Z.rem len blockLength) =? 0) then add32 blocks 1 else blocks)
  = blocks_along start size blockLength.
Proof.
  intros Hs Hn Hb Hmax. unfold MaxInt32 in Hmax. cbv zeta.
  rewrite (Z.rem_mod_nonneg start blockLength) by lia.
  pose proof (Z.mod_pos_bound start blockLength Hb) as Hr.
  pose proof (Z.mod_le start blockLength Hs Hb) as Hrs.
  rewrite (wrap32_small (start mod blockLength)) by lia.
  unfold add32. rewrite (wrap32_small (size + _)) by lia.
  set (m := size + start mod blockLength).
  assert (Hm : 0 < m < 2 ^ 31) by (unfold m; lia).
  rewrite Z.rem_mod_nonneg, Z.quot_div_nonneg by lia.
  pose proof (Z.mod_pos_bound m blockLength Hb) as Hu.
  pose proof (Z.mod_le m blockLength ltac:(lia) Hb) as Hum.
  assert (Hq : 0 <= m / blockLength <= m).
  { split; [apply Z.div_pos; lia|]. apply Z.div_le_upper_bound; nia. }
  rewrite (wrap32_small (m mod blockLength)) by lia.
  rewrite (wrap32_small (m / blockLength)) by lia.
  unfold blocks_along.
  assert (Hdiv : (start + size - 1) / blockLength
                 = start / blockLength + (m - 1) / blockLength).
  { replace (start + size - 1)
      with ((m - 1) + (start / blockLength) * blockLength).
    - rewrite Z.div_add by lia. lia.
    - unfold m. pose proof (Z.div_mod start blockLength ltac:(lia)). lia. }
  rewrite Hdiv.
  pose proof (Z.div_mod m blockLength ltac:(lia)) as Em.
  destruct (Z.eqb_spec (m mod blockLength) 0) as [E0|E0]; cbn [negb].
  - assert ((m - 1) / blockLength = m / blockLength - 1).
    { symmetry. apply (Z.div_unique (m - 1) blockLength _ (blockLength - 1));
        [left; lia | lia]. }
    lia.
  - assert ((m - 1) / blockLength = m / blockLength).
    { symmetry. apply (Z.div_unique (m - 1) blockLength _ (m mod blockLength - 1));
        [left; lia | lia]. }
    rewrite wrap32_small by lia. lia.
Qed.

Lemma Value_app (pre rest : list Z) (x : Z) :
  Value (pre ++ x :: rest) (Z.of_nat (length pre)) = Returns x.
Proof.
  unfold Value, Point. destruct (Z.ltb_spec (Z.of_nat (length pre)) 0); [lia|].
  rewrite Nat2Z.id, lookup_app_r by lia. rewrite Nat.sub_diag. reflexivity.
Qed.

Lemma GetNumBlocks_loop_blocks (axes done_ : list (Z * Z * Z)) (more_s more_b : Point)
    (numBlocks : Z) :
  Forall (fun '(start, size, blockLength) =>
            0 <= start /\ 0 < size /\ 0 < blockLength /\ start + size <= MaxInt32)
         axes ->
  GetNumBlocks_loop (length axes) (Z.of_nat (length done_))
    ((done_ ++ axes).*1.*1 ++ more_s) ((done_ ++ axes).*1.*2)
    ((done_ ++ axes).*2 ++ more_b) numBlocks
  = Returns (fold_left mul64
               ((fun '(start, size, blockLength) => blocks_along start size blockLength)
                  <$> axes) numBlocks).
Proof.
  revert done_ numBlocks.
  induction axes as [|[[start size] blockLength] axes IH]; intros done_ numBlocks Hax.
  - reflexivity.
  - apply Forall_cons in Hax. destruct Hax as [(Hs & Hn & Hb & Hmax) Hax].
    cbn [length GetNumBlocks_loop].
    rewrite !fmap_app. cbn [fmap list_fmap fst snd].
    rewrite <- !app_assoc. cbn [app].
    pose proof (Value_app (done_.*2) (axes.*2 ++ more_b) blockLength) as V1.
    pose proof (Value_app (done_.*1.*1) (axes.*1.*1 ++ more_s) start) as V2.
    pose proof (Value_app (done_.*1.*2) (axes.*1.*2) size) as V3.
    rewrite !length_fmap in V1. rewrite !length_fmap in V2. rewrite !length_fmap in V3.
    rewrite V1. cbn [mbind outcome_bind]. rewrite V2. cbn [mbind outcome_bind].
    destruct (Z.eqb_spec blockLength 0) as [E|_]; [lia|].
    rewrite V3. cbn [mbind outcome_bind].
    rewrite (blocks_one_axis start size blockLength Hs Hn Hb Hmax).
    specialize (IH (done_ ++ [(start, size, blockLength)])
                  (mul64 numBlocks (blocks_along start size blockLength)) Hax).
    rewrite length_app in IH. cbn [length] in IH.
    replace (Z.of_nat (length done_ + 1)) with (Z.of_nat (length done_) + 1) in IH by lia.
    rewrite <- !app_assoc in IH. cbn [app] in IH.
    rewrite !fmap_app in IH. cbn [fmap list_fmap fst snd] in IH.
    rewrite <- !app_assoc in IH. cbn [app] in IH.
    rewrite IH. reflexivity.
Qed.

(** X11. GetNumBlocks counts blocks axis by axis, pairing dimension [i] of
    the size with coordinate [i] of the start point and of the block size:
    for non-negative start coordinates, positive extents that end within
    int32 and positive block lengths, the result is the product, taken in
    64 bits, of the numbers of blocks that the voxels of each such axis
    meet.  [axes] lists (start, size, block length) per dimension of the
    size; the start point and the block size may have further
    coordinates, as those of a slice do. *)
Theorem GetNumBlocks_counts_blocks (g : Geometry) (axes : list (Z * Z * Z))
    (more_s more_b : Point) :
  StartPoint g = axes.*1.*1 ++ more_s -> Size g = axes.*1.*2 ->
  Forall (fun '(start, size, blockLength) =>
            0 <= start /\ 0 < size /\ 0 < blockLength /\ start + size <= MaxInt32)
         axes ->
  GetNumBlocks g (axes.*2 ++ more_b)
  = Returns (fold_left mul64
               ((fun '(start, size, blockLength) => blocks_along start size blockLength)
                  <$> axes) 1).
Proof.
  intros Hs Hn Hax. unfold GetNumBlocks, NumDims. rewrite Hs, Hn.
  rewrite Nat2Z.id, !length_fmap.
  apply (GetNumBlocks_loop_blocks axes [] more_s more_b 1 Hax).
Qed.

Lemma GetNumBlocks_counts_blocks_witness :
  GetNumBlocks (mkGeometry XY [100; 50] 5000 [30; 40; 7] [129; 89; 7])
    ([(30, 100, 32); (40, 50, 32)].*2 ++ [32])
  = Returns (fold_left mul64
               ((fun '(start, size, blockLength) => blocks_along start size blockLength)
                  <$> [(30, 100, 32); (40, 50, 32)]) 1)
  /\ fold_left mul64
       ((fun '(start, size, blockLength) => blocks_along start size blockLength)
          <$> [(30, 100, 32); (40, 50, 32)]) 1 = 5 * 2.
Proof.
  split; [|vm_compute; reflexivity].
  apply (GetNumBlocks_counts_blocks
           (mkGeometry XY [100; 50] 5000 [30; 40; 7] [129; 89; 7])
           [(30, 100, 32); (40, 50, 32)] [7] [32]).
  - reflexivity.
  - reflexivity.
  - repeat constructor; unfold MaxInt32; lia.
Defined.

(** ** Voxel values and handlers *)

Lemma typeBytes_range (t : string) : 0 <= typeBytes t <= 8.
Proof.
  unfold typeBytes.
  repeat match goal with |- context [if ?b then _ else _] => destruct b end; lia.
Qed.

Lemma BytesPerVoxel_fold (vs : list DataValue) (acc : Z) :
  0 <= acc -> acc + 8 * Z.of_nat (length vs) < 2 ^ 31 ->
  fold_left (fun bytes dataValue => add32 bytes (typeBytes (DataType dataValue))) vs acc
  = acc + fold_right Z.add 0 ((fun dv => typeBytes (DataType dv)) <$> vs)
  /\ 0 <= fold_right Z.add 0 ((fun dv => typeBytes (DataType dv)) <$> vs)
     <= 8 * Z.of_nat (length vs).
Proof.
  revert acc. induction vs as [|dv vs IH]; intros acc Hacc Hlen; cbn [fold_left length] in *.
  - cbn. lia.
  - pose proof (typeBytes_range (DataType dv)) as Ht.
    rewrite Nat2Z.inj_succ in Hlen.
    unfold add32 at 2. rewrite wrap32_small by lia.
    destruct (IH (acc + typeBytes (DataType dv)) ltac:(lia) ltac:(lia)) as [-> Hr].
    rewrite fmap_cons. cbn [fold_right]. lia.
Qed.

Lemma ValueBytes_seqZ (vs : list DataValue) :
  ValueBytes vs <$> seqZ 0 (Z.of_nat (length vs))
  = (fun dv => typeBytes (DataType dv)) <$> vs.
Proof.
  apply list_eq. intros i. rewrite !list_lookup_fmap.
  destruct (vs !! i) as [dv|] eqn:E.
  - pose proof (lookup_lt_Some _ _ _ E) as Hi.
    rewrite lookup_seqZ_lt by lia. cbn. unfold ValueBytes.
    destruct (Z.ltb_spec (0 + Z.of_nat i) 0); [lia|].
    destruct (Z.leb_spec (Z.of_nat (length vs)) (0 + Z.of_nat i)); [lia|].
    cbn. replace (Z.to_nat (0 + Z.of_nat i)) with i by lia. rewrite E. reflexivity.
  - apply lookup_ge_None in E. rewrite lookup_seqZ_ge by lia. reflexivity.
Qed.

(** X12. The bytes of a voxel are the bytes of its values: for a list of
    at most 2^27 values, BytesPerVoxel is the sum of ValueBytes over the
    positions of the list, and lies between 0 and 8 bytes a value (a value
    of a type that [typeBytes] does not hold counts 0); ValueBytes is 0 at
    every position outside the list. *)
Theorem BytesPerVoxel_sum (vs : list DataValue) :
  Z.of_nat (length vs) < 2 ^ 27 ->
  BytesPerVoxel vs
  = fold_right Z.add 0 (ValueBytes vs <$> seqZ 0 (Z.of_nat (length vs)))
  /\ 0 <= BytesPerVoxel vs <= 8 * Z.of_nat (length vs)
  /\ forall dim, dim < 0 \/ Z.of_nat (length vs) <= dim -> ValueBytes vs dim = 0.
Proof.
  intros Hlen. rewrite ValueBytes_seqZ. unfold BytesPerVoxel.
  destruct (BytesPerVoxel_fold vs 0 ltac:(lia) ltac:(lia)) as [-> Hr].
  split; [lia|]. split; [lia|].
  intros dim Hdim. unfold ValueBytes.
  destruct (Z.ltb_spec dim 0); [reflexivity|].
  destruct (Z.leb_spec (Z.of_nat (length vs)) dim); [reflexivity | lia].
Qed.

Lemma BytesPerVoxel_sum_witness :
  BytesPerVoxel [mkDataValue "uint8" "red"; mkDataValue "float32" "depth";
                 mkDataValue "rgb" "unknown"] = 5.
Proof.
  destruct (BytesPerVoxel_sum [mkDataValue "uint8" "red"; mkDataValue "float32" "depth";
                               mkDataValue "rgb" "unknown"]) as (E & _ & _).
  - cbn. lia.
  - rewrite E. vm_compute. reflexivity.
Defined.

(** X13. What a handler that NewExtHandler returns looks like: it has the
    geometry asked for and the values of the data; its stride is at least
    the width of the geometry in bytes; and without an image the voxel
    count that the geometry reports is positive and within the cap, and the
    buffer holds that count times the bytes of a voxel, taken in 64 bits,
    of zero bytes, with the stride equal to the width in bytes. *)
Theorem NewExtHandler_Ok (Giga : Z) (d : Data) (g : Geometry) (img : image_arg)
    (v : Voxels) :
  NewExtHandler Giga d g img = Returns (Ok v) ->
  geom v = g /\ values v = Values d
  /\ exists size0,
       Value (Size g) 0 = Returns size0
       /\ mul32 size0 (BytesPerVoxel (Values d)) <= stride v
       /\ (img = NoImage ->
           0 < NumVoxels g <= Giga
           /\ stride v = mul32 size0 (BytesPerVoxel (Values d))
           /\ Z.of_nat (length (data v))
              = mul64 (BytesPerVoxel (Values d)) (NumVoxels g)
           /\ Forall (fun b => b = x00) (data v)).
Proof.
  unfold NewExtHandler, MaxVoxelsRequest.
  destruct (Value (Size g) 0) as [size0|]; cbn [mbind outcome_bind]; [|discriminate].
  destruct img as [|[[imgData actualStride]|msg]|].
  - destruct (Z.leb_spec (NumVoxels g) 0); [discriminate|].
    destruct (Z.ltb_spec Giga (NumVoxels g)); [discriminate|].
    destruct (Z.ltb_spec (mul64 (BytesPerVoxel (Values d)) (NumVoxels g)) 0);
      [discriminate|].
    intros [= <-]. cbn [geom values stride data].
    split; [reflexivity|]. split; [reflexivity|].
    exists size0. split; [reflexivity|]. split; [lia|]. intros _.
    split; [lia|]. split; [reflexivity|]. unfold make_bytes. split.
    + rewrite length_replicate. lia.
    + apply Forall_forall. intros b Hb. apply elem_of_replicate in Hb. tauto.
  - destruct (Z.ltb_spec actualStride (mul32 size0 (BytesPerVoxel (Values d))));
      [discriminate|].
    intros [= <-]. cbn [geom values stride data].
    split; [reflexivity|]. split; [reflexivity|].
    exists size0. split; [reflexivity|]. split; [lia|]. discriminate.
  - discriminate.
  - discriminate.
Qed.

Lemma NewExtHandler_Ok_witness :
  let d := mkData (datastore.mkDataID "grayscale" 1 1)
             [mkDataValue "uint16" "grayscale"] [32; 32; 32]
             (mkExtents None None None None) in
  let g := mkGeometry XY [3; 2] 6 [0; 0; 0] [2; 1; 0] in
  let v := mkVoxels g (Values d) (make_bytes 12) 6 in
  geom v = g /\ values v = Values d
  /\ exists size0,
       Value (Size g) 0 = Returns size0
       /\ mul32 size0 (BytesPerVoxel (Values d)) <= stride v
       /\ (NoImage = NoImage ->
           0 < NumVoxels g <= 10 ^ 9
           /\ stride v = mul32 size0 (BytesPerVoxel (Values d))
           /\ Z.of_nat (length (data v))
              = mul64 (BytesPerVoxel (Values d)) (NumVoxels g)
           /\ Forall (fun b => b = x00) (data v)).
Proof.
  intros d g v. apply (NewExtHandler_Ok (10 ^ 9) d g NoImage v).
  vm_compute. reflexivity.
Defined.

(** ** The clipped region of a transfer *)

(** X14. ComputeTransform clips the view to the block: for a block that
    meets the view (along each axis, in int32), the bounds it returns
    satisfy, along each axis, that the region starts inside the block
    ([0 <= blockBeg]) and ends inside it
    ([blockBeg + (dataEnd - dataBeg) < block size]), that it lies inside
    the view ([0 <= dataBeg <= dataEnd <= end - start]), and that
    [blockBeg] and [dataBeg] name the same voxel.  A block whose key is not
    a data key has no transform. *)
Theorem ComputeTransform_clips
    (v : Voxels) (key : datastore.DataKey) (blockV : list byte)
    (bsx bsy bsz cx cy cz sx sy sz ex ey ez : Z) :
  StartPoint (geom v) = [sx; sy; sz] -> EndPoint (geom v) = [ex; ey; ez] ->
  datastore.Index key = [cx; cy; cz] ->
  axis_ok cx bsx sx ex -> axis_ok cy bsy sy ey -> axis_ok cz bsz sz ez ->
  (exists msg, ComputeTransform v (mkBlock None blockV) [bsx; bsy; bsz] = Err msg)
  /\ exists bbx bby bbz dbx dby dbz dex dey dez,
       ComputeTransform v (mkBlock (Some key) blockV) [bsx; bsy; bsz]
       = Ok (mkOpBounds [bbx; bby; bbz] [dbx; dby; dbz] [dex; dey; dez])
       /\ (0 <= bbx /\ bbx + (dex - dbx) < bsx /\ 0 <= dbx <= dex /\ dex <= ex - sx
           /\ cx * bsx + bbx = sx + dbx)
       /\ (0 <= bby /\ bby + (dey - dby) < bsy /\ 0 <= dby <= dey /\ dey <= ey - sy
           /\ cy * bsy + bby = sy + dby)
       /\ (0 <= bbz /\ bbz + (dez - dbz) < bsz /\ 0 <= dbz <= dez /\ dez <= ez - sz
           /\ cz * bsz + bbz = sz + dbz).
Proof.
  intros Hs He Hk Hx Hy Hz. split; [eexists; reflexivity|].
  unfold ComputeTransform. cbn [K datastore.KeyToPointIndexer].
  rewrite Hs, He, Hk.
  cbn [FirstPoint LastPoint Max Min Sub zip_with fst].
  destruct (axis_facts _ _ _ _ Hx) as (Ex1 & Ex2 & Ex3 & Ex4 & Ex5).
  destruct (axis_facts _ _ _ _ Hy) as (Ey1 & Ey2 & Ey3 & Ey4 & Ey5).
  destruct (axis_facts _ _ _ _ Hz) as (Ez1 & Ez2 & Ez3 & Ez4 & Ez5).
  rewrite Ex1, Ey1, Ez1, Ex2, Ey2, Ez2, Ex3, Ey3, Ez3, Ex4, Ey4, Ez4, Ex5, Ey5, Ez5.
  do 9 eexists. split; [reflexivity|].
  unfold axis_ok in *. repeat split; lia.
Qed.

Lemma ComputeTransform_clips_witness :
  let v := mkVoxels (mkGeometry XY [3; 2] 6 [1; 1; 0] [3; 2; 0])
             [mkDataValue "uint8" "grayscale"]
             [x01; x02; x03; x04; x05; x06] 3 in
  ComputeTransform v (mkBlock (Some (datastore.mkDataKey 1 1 1 [0; 0; 0])) []) [2; 2; 2]
  = Ok (mkOpBounds [1; 1; 0] [0; 0; 0] [0; 0; 0])
  /\ exists bbx bby bbz dbx dby dbz dex dey dez,
       ComputeTransform v (mkBlock (Some (datastore.mkDataKey 1 1 1 [0; 0; 0])) [])
         [2; 2; 2]
       = Ok (mkOpBounds [bbx; bby; bbz] [dbx; dby; dbz] [dex; dey; dez])
       /\ (0 <= bbx /\ bbx + (dex - dbx) < 2 /\ 0 <= dbx <= dex /\ dex <= 3 - 1
           /\ 0 * 2 + bbx = 1 + dbx)
       /\ (0 <= bby /\ bby + (dey - dby) < 2 /\ 0 <= dby <= dey /\ dey <= 2 - 1
           /\ 0 * 2 + bby = 1 + dby)
       /\ (0 <= bbz /\ bbz + (dez - dbz) < 2 /\ 0 <= dbz <= dez /\ dez <= 0 - 0
           /\ 0 * 2 + bbz = 0 + dbz).
Proof.
  intros v. split; [vm_compute; reflexivity|].
  apply (ComputeTransform_clips v (datastore.mkDataKey 1 1 1 [0; 0; 0]) []
           2 2 2 0 0 0 1 1 0 3 2 0);
    try reflexivity; unfold axis_ok, MinInt32, MaxInt32; lia.
Defined.

(** ** A transfer that returns *)

Lemma go_copy_returns (dst src : list byte) (a b c d : Z) :
  0 <= a -> a <= b -> b <= Z.of_nat (length dst) ->
  0 <= c -> c <= d -> d <= Z.of_nat (length src) ->
  exists dst', go_copy dst a b src c d = Returns dst' /\ length dst' = length dst.
Proof.
  intros. unfold go_copy.
  assert (Hok : slice_ok dst a b && slice_ok src c d = true).
  { unfold slice_ok. repeat (apply andb_true_intro; split); apply Z.leb_le; lia. }
  rewrite Hok. eexists. split; [reflexivity|].
  eapply (go_copy_frame dst src _ a b c d). unfold go_copy. rewrite Hok. reflexivity.
Qed.

Lemma copy_run_returns dir dataI blockI bytes (dat blk : list byte) :
  in_buf dataI bytes (Z.of_nat (length dat)) ->
  in_buf blockI bytes (Z.of_nat (length blk)) ->
  exists dat' blk', copy_run dir dataI blockI bytes (dat, blk) = Returns (dat', blk')
                    /\ length dat' = length dat /\ length blk' = length blk.
Proof.
  intros (? & ? & ?) (? & ? & ?). unfold copy_run. destruct dir.
  - destruct (go_copy_returns dat blk dataI (add32 dataI bytes) blockI (add32 blockI bytes))
      as (d' & -> & Hl); try assumption.
    exists d', blk. repeat split; auto.
  - destruct (go_copy_returns blk dat blockI (add32 blockI bytes) dataI (add32 dataI bytes))
      as (b' & -> & Hl); try assumption.
    exists dat, b'. repeat split; auto.
Qed.

Lemma rows_loop_returns n dir bstep dstep bytes blockI dataI (dat blk : list byte) :
  (forall k : nat, (k < n)%nat ->
     in_buf (row_start k dataI dstep) bytes (Z.of_nat (length dat))
     /\ in_buf (row_start k blockI bstep) bytes (Z.of_nat (length blk))) ->
  exists dat' blk',
    rows_loop n dir bstep dstep bytes blockI dataI (dat, blk) = Returns (dat', blk')
    /\ length dat' = length dat /\ length blk' = length blk.
Proof.
  revert blockI dataI dat blk. induction n as [|n IH]; intros blockI dataI dat blk Hin;
    loop_simpl.
  - exists dat, blk. repeat split; reflexivity.
  - destruct (Hin 0%nat ltac:(lia)) as [Hd Hb]. simpl in Hd, Hb.
    destruct (copy_run_returns dir dataI blockI bytes dat blk Hd Hb)
      as (d1 & b1 & -> & Hl1 & Hl2).
    loop_simpl.
    destruct (IH (add32 blockI bstep) (add32 dataI dstep) d1 b1) as (d2 & b2 & -> & ? & ?).
    { intros k Hk. rewrite Hl1, Hl2. apply (Hin (S k)). lia. }
    exists d2, b2. repeat split; congruence.
Qed.

Lemma yz_loop_returns n dir inner bX bY dX bpv bb1 bb0 db1 y bz (dat blk : list byte) :
  (forall j k : nat, (j < n)%nat -> (k < inner)%nat ->
     let blockI := add32 (add32 (mul32 (row_start j bz 1) bY) (mul32 bb1 bX))
                         (mul32 bb0 bpv) in
     let dataI := add32 (mul32 (row_start j y 1) dX) (mul32 db1 bpv) in
     in_buf (row_start k dataI bpv) bpv (Z.of_nat (length dat))
     /\ in_buf (row_start k blockI bX) bpv (Z.of_nat (length blk))) ->
  exists dat' blk',
    yz_loop n dir inner bX bY dX bpv bb1 bb0 db1 y bz (dat, blk) = Returns (dat', blk')
    /\ length dat' = length dat /\ length blk' = length blk.
Proof.
  revert y bz dat blk. induction n as [|n IH]; intros y bz dat blk Hin; loop_simpl.
  - exists dat, blk. repeat split; reflexivity.
  - destruct (rows_loop_returns inner dir bX bpv bpv
                (add32 (add32 (mul32 bz bY) (mul32 bb1 bX)) (mul32 bb0 bpv))
                (add32 (mul32 y dX) (mul32 db1 bpv)) dat blk)
      as (d1 & b1 & -> & Hl1 & Hl2).
    { intros k Hk. apply (Hin 0%nat k); lia. }
    loop_simpl.
    destruct (IH (add32 y 1) (add32 bz 1) d1 b1) as (d2 & b2 & -> & ? & ?).
    { intros j k Hj Hk. rewrite Hl1, Hl2. apply (Hin (S j) k); lia. }
    exists d2, b2. repeat split; congruence.
Qed.

Lemma vol_rows_returns n dir bX bY dX dY bo do_ bytes bz dz dataY blockY (dat blk : list byte) :
  (forall k : nat, (k < n)%nat ->
     in_buf (add32 (add32 (mul32 dz dY) (mul32 (row_start k dataY 1) dX)) do_) bytes
            (Z.of_nat (length dat))
     /\ in_buf (add32 (add32 (mul32 bz bY) (mul32 (row_start k blockY 1) bX)) bo) bytes
               (Z.of_nat (length blk))) ->
  exists dat' blk',
    vol_rows n dir bX bY dX dY bo do_ bytes bz dz dataY blockY (dat, blk) = Returns (dat', blk')
    /\ length dat' = length dat /\ length blk' = length blk.
Proof.
  revert dataY blockY dat blk. induction n as [|n IH]; intros dataY blockY dat blk Hin;
    loop_simpl.
  - exists dat, blk. repeat split; reflexivity.
  - destruct (Hin 0%nat ltac:(lia)) as [Hd Hb]. simpl in Hd, Hb.
    destruct (copy_run_returns dir _ _ bytes dat blk Hd Hb) as (d1 & b1 & -> & Hl1 & Hl2).
    loop_simpl.
    destruct (IH (add32 dataY 1) (add32 blockY 1) d1 b1) as (d2 & b2 & -> & ? & ?).
    { intros k Hk. rewrite Hl1, Hl2. apply (Hin (S k)). lia. }
    exists d2, b2. repeat split; congruence.
Qed.

Lemma vol_loop_returns n dir inner bX bY dX dY bo do_ bytes db1 bb1 dataZ blockZ
    (dat blk : list byte) :
  (forall j k : nat, (j < n)%nat -> (k < inner)%nat ->
     in_buf (add32 (add32 (mul32 (row_start j dataZ 1) dY) (mul32 (row_start k db1 1) dX)) do_)
            bytes (Z.of_nat (length dat))
     /\ in_buf (add32 (add32 (mul32 (row_start j blockZ 1) bY) (mul32 (row_start k bb1 1) bX)) bo)
               bytes (Z.of_nat (length blk))) ->
  exists dat' blk',
    vol_loop n dir inner bX bY dX dY bo do_ bytes db1 bb1 dataZ blockZ (dat, blk)
    = Returns (dat', blk')
    /\ length dat' = length dat /\ length blk' = length blk.
Proof.
  revert dataZ blockZ dat blk. induction n as [|n IH]; intros dataZ blockZ dat blk Hin;
    loop_simpl.
  - exists dat, blk. repeat split; reflexivity.
  - destruct (vol_rows_returns inner dir bX bY dX dY bo do_ bytes blockZ dataZ db1 bb1 dat blk)
      as (d1 & b1 & -> & Hl1 & Hl2).
    { intros k Hk. apply (Hin 0%nat k); lia. }
    loop_simpl.
    destruct (IH (add32 dataZ 1) (add32 blockZ 1) d1 b1) as (d2 & b2 & -> & ? & ?).
    { intros j k Hj Hk. rewrite Hl1, Hl2. apply (Hin (S j) k); lia. }
    exists d2, b2. repeat split; congruence.
Qed.

Lemma row_start_count (k : nat) (a : Z) :
  - 2 ^ 31 <= a -> a + Z.of_nat k < 2 ^ 31 -> row_start k a 1 = a + Z.of_nat k.
Proof.
  intros Ha Hk. rewrite row_start_small; [lia|]. intros j Hj. lia.
Qed.

(** Index arithmetic on the side of the view buffer: rows of [dX] bytes,
    [H] of them, in a buffer of [L] bytes. *)
Section ViewLayout.
Variables bpv dX H L : Z.
Hypothesis Hbpv : 0 < bpv.
Hypothesis HdX : 0 <= dX.
Hypothesis HL : dX * H <= L.
Hypothesis HL32 : L <= MaxInt32.

Lemma data_offset_nowrap (r x0 n : Z) :
  0 <= r < H -> 0 <= x0 -> 0 <= n -> (x0 + n) * bpv <= dX ->
  add32 (mul32 r dX) (mul32 x0 bpv) = r * dX + x0 * bpv
  /\ mul32 n bpv = n * bpv
  /\ in_buf (r * dX + x0 * bpv) (n * bpv) L.
Proof.
  intros Hr Hx0 Hn Hrun. unfold in_buf, add32, mul32, MaxInt32 in *.
  assert (r * dX + dX <= dX * H) by nia.
  assert (0 <= r * dX) by nia.
  assert (0 <= x0 * bpv) by nia.
  assert (0 <= n * bpv) by nia.
  assert (x0 * bpv + n * bpv <= dX) by nia.
  rewrite (wrap32_small (r * dX)) by lia.
  rewrite (wrap32_small (x0 * bpv)) by lia.
  rewrite (wrap32_small (n * bpv)) by lia.
  rewrite !wrap32_small by lia. lia.
Qed.

(** Row [k] of the XY and XZ loops. *)
Lemma data_row_in_buf (k : nat) (r0 x0 n : Z) :
  0 <= r0 -> r0 + Z.of_nat k < H -> 0 <= x0 -> 0 <= n -> (x0 + n) * bpv <= dX ->
  in_buf (row_start k (add32 (mul32 r0 dX) (mul32 x0 bpv)) dX) (n * bpv) L.
Proof.
  intros Hr0 Hk Hx0 Hn Hrun.
  destruct (data_offset_nowrap r0 x0 n) as (-> & _ & _); try lia.
  rewrite row_start_small.
  - replace (r0 * dX + x0 * bpv + Z.of_nat k * dX)
      with ((r0 + Z.of_nat k) * dX + x0 * bpv) by ring.
    apply data_offset_nowrap; lia.
  - intros j Hj.
    replace (r0 * dX + x0 * bpv + Z.of_nat j * dX)
      with ((r0 + Z.of_nat j) * dX + x0 * bpv) by ring.
    destruct (data_offset_nowrap (r0 + Z.of_nat j) x0 n) as (_ & _ & Hb); try lia.
    unfold in_buf, MaxInt32 in *. lia.
Qed.

(** Voxel [k] of row [j] of the YZ loops. *)
Lemma data_voxel_in_buf (j k : nat) (r0 y0 ny : Z) :
  0 <= r0 -> r0 + Z.of_nat j < H -> 0 <= y0 -> y0 + Z.of_nat k < ny -> ny * bpv <= dX ->
  in_buf (row_start k (add32 (mul32 (row_start j r0 1) dX) (mul32 y0 bpv)) bpv) bpv L.
Proof.
  intros Hr0 Hj Hy0 Hk Hrun.
  assert (HH : H <= 2 ^ 31).
  { destruct (Z.eq_dec dX 0) as [->|]; [nia|]. unfold MaxInt32 in *. nia. }
  rewrite row_start_count by lia.
  destruct (data_offset_nowrap (r0 + Z.of_nat j) y0 1) as (-> & _ & _); try nia.
  rewrite row_start_small.
  - replace ((r0 + Z.of_nat j) * dX + y0 * bpv + Z.of_nat k * bpv)
      with ((r0 + Z.of_nat j) * dX + (y0 + Z.of_nat k) * bpv) by ring.
    destruct (data_offset_nowrap (r0 + Z.of_nat j) (y0 + Z.of_nat k) 1)
      as (_ & _ & Hb); try nia.
    rewrite Z.mul_1_l in Hb. exact Hb.
  - intros m Hm.
    replace ((r0 + Z.of_nat j) * dX + y0 * bpv + Z.of_nat m * bpv)
      with ((r0 + Z.of_nat j) * dX + (y0 + Z.of_nat m) * bpv) by ring.
    destruct (data_offset_nowrap (r0 + Z.of_nat j) (y0 + Z.of_nat m) 1)
      as (_ & _ & Hb); try nia.
    unfold in_buf, MaxInt32 in *. lia.
Qed.
End ViewLayout.

Section BlockSide.
Variables bpv bsx bsy bsz cx cy cz sx sy sz ex ey ez L : Z.
Hypothesis Hbpv : 0 < bpv.
Hypothesis HT : bpv * bsx * bsy * bsz <= MaxInt32.
Hypothesis Hx : axis_ok cx bsx sx ex.
Hypothesis Hy : axis_ok cy bsy sy ey.
Hypothesis Hz : axis_ok cz bsz sz ez.
Hypothesis HL : bpv * bsx * bsy * bsz <= L.

Let bvx := Z.max sx (cx * bsx).
Let bvy := Z.max sy (cy * bsy).
Let bvz := Z.max sz (cz * bsz).
Let evx := Z.min ex (cx * bsx + bsx - 1).
Let evy := Z.min ey (cy * bsy + bsy - 1).
Let evz := Z.min ez (cz * bsz + bsz - 1).
Let offset (z y x : Z) : Z := z * (bsy * (bsx * bpv)) + y * (bsx * bpv) + x * bpv.

Let clipped :
  (0 < bsx /\ 0 < bsy /\ 0 < bsz)
  /\ (sx <= bvx <= evx /\ evx <= ex /\ 0 <= bvx - cx * bsx /\ evx - cx * bsx < bsx)
  /\ (sy <= bvy <= evy /\ evy <= ey /\ 0 <= bvy - cy * bsy /\ evy - cy * bsy < bsy)
  /\ (sz <= bvz <= evz /\ evz <= ez /\ 0 <= bvz - cz * bsz /\ evz - cz * bsz < bsz)
  := clip_facts bpv bsx bsy bsz cx cy cz sx sy sz ex ey ez Hbpv Hx Hy Hz.

Lemma block_run_in_buf (z y n : Z) :
  bvz - cz * bsz <= z <= evz - cz * bsz ->
  bvy - cy * bsy <= y <= evy - cy * bsy ->
  0 <= n <= evx - bvx + 1 ->
  in_buf (offset z y (bvx - cx * bsx)) (n * bpv) L.
Proof.
  intros Hzr Hyr Hn.
  destruct clipped as ((? & ? & ?) & (? & ? & ? & ?) & (? & ? & ? & ?) & (? & ? & ? & ?)).
  destruct (run_end_nowrap bpv bsx bsy bsz cx cy cz sx sy sz ex ey ez Hbpv HT Hx Hy Hz
              z y n Hzr Hyr Hn) as [_ Hend].
  fold bvx in Hend. fold (offset z y (bvx - cx * bsx)) in Hend.
  pose proof (run_bound bpv bsx bsy bsz (bvx - cx * bsx) n y z) as Hb.
  unfold in_buf. rewrite Hend. unfold offset. 
  assert (0 <= n * bpv) by nia. lia.
Qed.

Lemma block_rows_xy (k : nat) :
  (k < trips (bvy - sy) (evy - sy))%nat ->
  in_buf (row_start k (offset (bvz - cz * bsz) (bvy - cy * bsy) (bvx - cx * bsx))
                    (bsx * bpv))
         ((evx - bvx + 1) * bpv) L.
Proof.
  intros Hk.
  destruct clipped as ((? & ? & ?) & (? & ? & ? & ?) & (? & ? & ? & ?) & (? & ? & ? & ?)).
  unfold trips in Hk.
  assert (Hrow : forall j : nat,
            offset (bvz - cz * bsz) (bvy - cy * bsy) (bvx - cx * bsx)
              + Z.of_nat j * (bsx * bpv)
            = offset (bvz - cz * bsz) (bvy - cy * bsy + Z.of_nat j) (bvx - cx * bsx)).
  { intros j. unfold offset. ring. }
  rewrite row_start_small.
  2:{ intros j Hj. rewrite Hrow.
      apply (offset_nowrap bpv bsx bsy bsz cx cy cz sx sy sz ex ey ez Hbpv HT Hx Hy Hz);
        fold bvz evz bvy evy; lia. }
  rewrite Hrow. apply block_run_in_buf; lia.
Qed.

Lemma block_rows_xz (k : nat) :
  (k < trips (bvz - sz) (evz - sz))%nat ->
  in_buf (row_start k (offset (bvz - cz * bsz) (bvy - cy * bsy) (bvx - cx * bsx))
                    (bsy * (bsx * bpv)))
         ((evx - bvx + 1) * bpv) L.
Proof.
  intros Hk.
  destruct clipped as ((? & ? & ?) & (? & ? & ? & ?) & (? & ? & ? & ?) & (? & ? & ? & ?)).
  unfold trips in Hk.
  assert (Hrow : forall j : nat,
            offset (bvz - cz * bsz) (bvy - cy * bsy) (bvx - cx * bsx)
              + Z.of_nat j * (bsy * (bsx * bpv))
            = offset (bvz - cz * bsz + Z.of_nat j) (bvy - cy * bsy) (bvx - cx * bsx)).
  { intros j. unfold offset. ring. }
  rewrite row_start_small.
  2:{ intros j Hj. rewrite Hrow.
      apply (offset_nowrap bpv bsx bsy bsz cx cy cz sx sy sz ex ey ez Hbpv HT Hx Hy Hz);
        fold bvz evz bvy evy; lia. }
  rewrite Hrow. apply block_run_in_buf; lia.
Qed.

Lemma block_voxels_yz (j k : nat) :
  (j < trips (bvz - sz) (evz - sz))%nat ->
  (k < trips (bvy - sy) (evy - sy))%nat ->
  in_buf (row_start k
            (add32 (add32 (mul32 (row_start j (bvz - cz * bsz) 1) (bsy * (bsx * bpv)))
                          (mul32 (bvy - cy * bsy) (bsx * bpv)))
                   (mul32 (bvx - cx * bsx) bpv))
            (bsx * bpv))
         bpv L.
Proof.
  intros Hj Hk.
  destruct clipped as ((? & ? & ?) & (? & ? & ? & ?) & (? & ? & ? & ?) & (? & ? & ? & ?)).
  unfold trips in Hj, Hk.
  rewrite row_start_count by (unfold axis_ok, MaxInt32, MinInt32 in *; lia).
  destruct (offset_nowrap bpv bsx bsy bsz cx cy cz sx sy sz ex ey ez Hbpv HT Hx Hy Hz
              (bvz - cz * bsz + Z.of_nat j) (bvy - cy * bsy)) as [Eo _];
    [fold bvz evz; lia | fold bvy evy; lia |].
  fold bvx in Eo. rewrite Eo.
  fold (offset (bvz - cz * bsz + Z.of_nat j) (bvy - cy * bsy) (bvx - cx * bsx)).
  assert (Hrow : forall m : nat,
            offset (bvz - cz * bsz + Z.of_nat j) (bvy - cy * bsy) (bvx - cx * bsx)
              + Z.of_nat m * (bsx * bpv)
            = offset (bvz - cz * bsz + Z.of_nat j) (bvy - cy * bsy + Z.of_nat m)
                     (bvx - cx * bsx)).
  { intros m. unfold offset. ring. }
  rewrite row_start_small.
  2:{ intros m Hm. rewrite Hrow.
      apply (offset_nowrap bpv bsx bsy bsz cx cy cz sx sy sz ex ey ez Hbpv HT Hx Hy Hz);
        fold bvz evz bvy evy; lia. }
  rewrite Hrow.
  pose proof (block_run_in_buf (bvz - cz * bsz + Z.of_nat j)
                (bvy - cy * bsy + Z.of_nat k) 1) as Hb.
  rewrite Z.mul_1_l in Hb. apply Hb; lia.
Qed.

Lemma block_rows_vol (j k : nat) :
  (j < trips (bvz - sz) (evz - sz))%nat ->
  (k < trips (bvy - sy) (evy - sy))%nat ->
  in_buf (add32 (add32 (mul32 (row_start j (bvz - cz * bsz) 1) (bsy * (bsx * bpv)))
                       (mul32 (row_start k (bvy - cy * bsy) 1) (bsx * bpv)))
                (mul32 (bvx - cx * bsx) bpv))
         ((evx - bvx + 1) * bpv) L.
Proof.
  intros Hj Hk.
  destruct clipped as ((? & ? & ?) & (? & ? & ? & ?) & (? & ? & ? & ?) & (? & ? & ? & ?)).
  unfold trips in Hj, Hk.
  rewrite !row_start_count by (unfold axis_ok, MaxInt32, MinInt32 in *; lia).
  destruct (offset_nowrap bpv bsx bsy bsz cx cy cz sx sy sz ex ey ez Hbpv HT Hx Hy Hz
              (bvz - cz * bsz + Z.of_nat j) (bvy - cy * bsy + Z.of_nat k)) as [Eo _];
    [fold bvz evz; lia | fold bvy evy; lia |].
  fold bvx in Eo. rewrite Eo.
  apply block_run_in_buf; lia.
Qed.
End BlockSide.

(** The view buffer of a 3d subvolume is laid out like a block of the
    view's size. *)
Lemma vol_data_in_buf (bpv wx wy wz L : Z) (j k : nat) (z0 y0 x0 n : Z) :
  0 < bpv -> 0 < wx -> 0 < wy -> 0 < wz ->
  bpv * wx * wy * wz <= L -> L <= MaxInt32 ->
  0 <= z0 -> z0 + Z.of_nat j < wz -> 0 <= y0 -> y0 + Z.of_nat k < wy ->
  0 <= x0 -> 1 <= n -> x0 + n <= wx ->
  in_buf (add32 (add32 (mul32 (row_start j z0 1) (wy * (wx * bpv)))
                       (mul32 (row_start k y0 1) (wx * bpv)))
                (mul32 x0 bpv))
         (n * bpv) L.
Proof.
  intros Hbpv Hwx Hwy Hwz HL HL32 Hz0 Hj Hy0 Hk Hx0 Hn Hrun.
  assert (HT : bpv * wx * wy * wz <= MaxInt32) by lia.
  assert (wz <= 2 ^ 31 /\ wy <= 2 ^ 31) as [? ?] by (unfold MaxInt32 in *; nia).
  rewrite !row_start_count by lia.
  rewrite (blockI_nowrap bpv wx wy wz) by (assumption || lia).
  destruct (run_nowrap bpv wx wy wz Hbpv Hwx Hwy Hwz HT
              (z0 + Z.of_nat j) (y0 + Z.of_nat k) x0 n) as [_ Hend]; try lia.
  pose proof (run_bound bpv wx wy wz x0 n (y0 + Z.of_nat k) (z0 + Z.of_nat j)) as Hb.
  unfold in_buf. rewrite Hend. assert (0 <= n * bpv) by nia. lia.
Qed.

(** X15. A transfer between a well-formed view and a block that meets it
    returns without a panic and without an error, for a read as for a
    write and for each of the four shapes, and leaves both buffers at their
    lengths.  Well-formed: the coordinates fit int32 along each axis, the
    block buffer holds a whole block of at most [MaxInt32] bytes, and the
    view buffer is of at most [MaxInt32] bytes and holds the view
    ([view_layout_ok]): the rows of a slice, [stride] bytes apart and each
    as wide as the slice, or the voxels of a subvolume whose size is its
    extent. *)
Theorem transferBlock_returns
    (op : OpType) (v : Voxels) (key : datastore.DataKey) (blockV : list byte)
    (bsx bsy bsz cx cy cz sx sy sz ex ey ez : Z) :
  let bpv := BytesPerVoxel (values v) in
  StartPoint (geom v) = [sx; sy; sz] -> EndPoint (geom v) = [ex; ey; ez] ->
  datastore.Index key = [cx; cy; cz] ->
  0 < bpv -> bpv * bsx * bsy * bsz <= MaxInt32 ->
  axis_ok cx bsx sx ex -> axis_ok cy bsy sy ey -> axis_ok cz bsz sz ez ->
  bpv * bsx * bsy * bsz <= Z.of_nat (length blockV) ->
  view_layout_ok v sx sy sz ex ey ez ->
  exists data' blockV',
    transferBlock op v (mkBlock (Some key) blockV) [bsx; bsy; bsz]
    = Returns (Ok (data', blockV'))
    /\ length data' = length (data v) /\ length blockV' = length blockV.
Proof.
  intros bpv Hs He Hk Hbpv HT Hx Hy Hz HLb (HLd & Hlay).
  unfold transferBlock.
  change (3 <? NumDims [bsx; bsy; bsz]) with false. cbv iota.
  unfold ComputeTransform. cbn [K datastore.KeyToPointIndexer].
  rewrite Hs, He, Hk.
  cbn [FirstPoint LastPoint Max Min Sub zip_with fst blockBeg dataBeg dataEnd V].
  fold bpv.
  destruct (axis_facts _ _ _ _ Hx) as (Ex1 & Ex2 & Ex3 & Ex4 & Ex5).
  destruct (axis_facts _ _ _ _ Hy) as (Ey1 & Ey2 & Ey3 & Ey4 & Ey5).
  destruct (axis_facts _ _ _ _ Hz) as (Ez1 & Ez2 & Ez3 & Ez4 & Ez5).
  rewrite Ex1, Ey1, Ez1, Ex2, Ey2, Ez2, Ex3, Ey3, Ez3, Ex4, Ey4, Ez4, Ex5, Ey5, Ez5.
  clear Ex1 Ey1 Ez1 Ex2 Ey2 Ez2 Ex3 Ey3 Ez3 Ex4 Ey4 Ez4 Ex5 Ey5 Ez5.
  repeat (first [rewrite Value_0 | rewrite Value_1 | rewrite Value_2];
          cbn [mbind outcome_bind]).
  pose proof (clip_facts bpv bsx bsy bsz cx cy cz sx sy sz ex ey ez Hbpv Hx Hy Hz)
    as ((Hbsx & Hbsy & Hbsz) & (? & ? & ? & ?) & (? & ? & ? & ?) & (? & ? & ? & ?)).
  destruct (strides_nowrap bpv bsx bsy bsz Hbpv Hbsx Hbsy Hbsz HT) as [EbX EbY].
  rewrite EbX, EbY.
  pose proof (bytes_nowrap bpv bsx bsy bsz cx cy cz sx sy sz ex ey ez Hbpv HT Hx Hy Hz)
    as Ebytes.
  destruct (offset_nowrap bpv bsx bsy bsz cx cy cz sx sy sz ex ey ez Hbpv HT Hx Hy Hz
              (Z.max sz (cz * bsz) - cz * bsz) (Z.max sy (cy * bsy) - cy * bsy))
    as [Eoff _]; [lia | lia |].
  destruct Hlay as [(Hsh & Hw & Hh) | [(Hsh & Hw & Hh) | [(Hsh & Hw & Hh) | (Hsh & Hsz & Hh)]]];
    fold bpv in Hw || fold bpv in Hh; unfold dvid.Point in *; rewrite Hsh.
  - (* XY *)
    change (Equals XY XY) with true. cbv iota.
    repeat (first [rewrite Value_0 | rewrite Value_1 | rewrite Value_2];
            cbn [mbind outcome_bind]).
    rewrite Eoff, Ebytes.
    match goal with
    | |- context [rows_loop ?n ?d ?bs ?ds ?by_ ?bi ?di ?bufs] =>
        destruct (rows_loop_returns n d bs ds by_ bi di (data v) blockV)
          as (d' & b' & -> & Hl1 & Hl2)
    end.
    { intros k Hlt. split.
      - apply data_row_in_buf with (H := ey - sy + 1); unfold trips in Hlt; try nia.
      - apply (block_rows_xy bpv bsx bsy bsz cx cy cz sx sy sz ex ey ez _ Hbpv HT Hx Hy Hz HLb).
        exact Hlt. }
    exists d', b'. repeat split; assumption.
  - (* XZ *)
    change (Equals XZ XY) with false. change (Equals XZ XZ) with true. cbv iota.
    repeat (first [rewrite Value_0 | rewrite Value_1 | rewrite Value_2];
            cbn [mbind outcome_bind]).
    rewrite Eoff, Ebytes.
    match goal with
    | |- context [rows_loop ?n ?d ?bs ?ds ?by_ ?bi ?di ?bufs] =>
        destruct (rows_loop_returns n d bs ds by_ bi di (data v) blockV)
          as (d' & b' & -> & Hl1 & Hl2)
    end.
    { intros k Hlt. split.
      - apply data_row_in_buf with (H := ez - sz + 1); unfold trips in Hlt; try nia.
      - apply (block_rows_xz bpv bsx bsy bsz cx cy cz sx sy sz ex ey ez _ Hbpv HT Hx Hy Hz HLb).
        exact Hlt. }
    exists d', b'. repeat split; assumption.
  - (* YZ *)
    change (Equals YZ XY) with false. change (Equals YZ XZ) with false.
    change (Equals YZ YZ) with true. cbv iota.
    repeat (first [rewrite Value_0 | rewrite Value_1 | rewrite Value_2];
            cbn [mbind outcome_bind]).
    match goal with |- context [(?t =? 0)%nat] => destruct (t =? 0)%nat end.
    { exists (data v), blockV. repeat split; reflexivity. }
    repeat (first [rewrite Value_0 | rewrite Value_1 | rewrite Value_2];
            cbn [mbind outcome_bind]).
    match goal with
    | |- context [yz_loop ?n ?d ?inner ?bX ?bY ?dX ?bp ?bb1 ?bb0 ?db1 ?y ?bz ?bufs] =>
        destruct (yz_loop_returns n d inner bX bY dX bp bb1 bb0 db1 y bz (data v) blockV)
          as (d' & b' & -> & Hl1 & Hl2)
    end.
    { intros j k Hj Hlt blockI dataI. split.
      - apply data_voxel_in_buf with (H := ez - sz + 1) (ny := ey - sy + 1);
          unfold trips in Hj, Hlt; try nia.
      - apply (block_voxels_yz bpv bsx bsy bsz cx cy cz sx sy sz ex ey ez _ Hbpv HT Hx Hy Hz HLb);
          assumption. }
    exists d', b'. repeat split; assumption.
  - (* Vol3d *)
    change (Equals Vol3d XY) with false. change (Equals Vol3d XZ) with false.
    change (Equals Vol3d YZ) with false.
    change (ShapeDimensions Vol3d =? 2) with false.
    change (Equals Vol3d Vol3d) with true. cbv iota.
    rewrite Hsz.
    repeat (first [rewrite Value_0 | rewrite Value_1 | rewrite Value_2];
            cbn [mbind outcome_bind]).
    match goal with |- context [(?t =? 0)%nat] => destruct (t =? 0)%nat end.
    { exists (data v), blockV. repeat split; reflexivity. }
    repeat (first [rewrite Value_0 | rewrite Value_1 | rewrite Value_2];
            cbn [mbind outcome_bind]).
    assert (Hwpos : 0 < ex - sx + 1 /\ 0 < ey - sy + 1 /\ 0 < ez - sz + 1) by lia.
    destruct Hwpos as (Hwx & Hwy & Hwz).
    destruct (strides_nowrap bpv (ex - sx + 1) (ey - sy + 1) (ez - sz + 1)
                Hbpv Hwx Hwy Hwz ltac:(lia)) as [EdX EdY].
    rewrite EdX, EdY, Ebytes.
    match goal with
    | |- context [vol_loop ?n ?d ?inner ?bX ?bY ?dX ?dY ?bo ?do_ ?by_ ?db1 ?bb1 ?dz ?bz ?bufs] =>
        destruct (vol_loop_returns n d inner bX bY dX dY bo do_ by_ db1 bb1 dz bz
                    (data v) blockV) as (d' & b' & -> & Hl1 & Hl2)
    end.
    { intros j k Hj Hlt. split.
      - apply vol_data_in_buf with (wz := ez - sz + 1);
          unfold trips in Hj, Hlt; try lia.
      - apply (block_rows_vol bpv bsx bsy bsz cx cy cz sx sy sz ex ey ez _ Hbpv HT Hx Hy Hz HLb);
          assumption. }
    exists d', b'. repeat split; assumption.
Qed.

Lemma transferBlock_returns_witness :
  let v := mkVoxels (mkGeometry XY [3; 2] 6 [1; 1; 0] [3; 2; 0])
             [mkDataValue "uint8" "grayscale"]
             [x01; x02; x03; x04; x05; x06] 3 in
  let key := datastore.mkDataKey 1 1 1 [0; 0; 0] in
  exists data' blockV',
    transferBlock GetOp v (mkBlock (Some key) (make_bytes 8)) [2; 2; 2]
    = Returns (Ok (data', blockV'))
    /\ length data' = length (data v) /\ length blockV' = length (make_bytes 8).
Proof.
  intros v key.
  apply (transferBlock_returns GetOp v key (make_bytes 8) 2 2 2 0 0 0 1 1 0 3 2 0);
    try reflexivity;
    try (unfold axis_ok, MinInt32, MaxInt32; lia).
  - vm_compute. discriminate.
  - unfold view_layout_ok. split; [vm_compute; discriminate|].
    left. split; [reflexivity|]. split; vm_compute; discriminate.
Defined.

(** ** What every transfer keeps *)

(** A property of the buffers that every copy statement of one direction
    keeps is kept by the loops. *)
Section LoopInvariant.
Variable dir : direction.
Variable R : list byte * list byte -> list byte * list byte -> Prop.
Hypothesis R_refl : forall bufs, R bufs bufs.
Hypothesis R_trans : forall b1 b2 b3, R b1 b2 -> R b2 b3 -> R b1 b3.
Hypothesis R_copy : forall dataI blockI bytes bufs bufs',
  copy_run dir dataI blockI bytes bufs = Returns bufs' -> R bufs bufs'.

Lemma rows_loop_inv n bstep dstep bytes blockI dataI bufs bufs' :
  rows_loop n dir bstep dstep bytes blockI dataI bufs = Returns bufs' -> R bufs bufs'.
Proof.
  revert blockI dataI bufs. induction n as [|n IH]; intros blockI dataI bufs; loop_simpl.
  - intros [= <-]. apply R_refl.
  - destruct (copy_run dir dataI blockI bytes bufs) as [b1|] eqn:E; loop_simpl;
      [|discriminate].
    intros Hr. eapply R_trans; [eapply R_copy, E | eapply IH, Hr].
Qed.

Lemma yz_loop_inv n inner bX bY dX bpv bb1 bb0 db1 y bz bufs bufs' :
  yz_loop n dir inner bX bY dX bpv bb1 bb0 db1 y bz bufs = Returns bufs' -> R bufs bufs'.
Proof.
  revert y bz bufs. induction n as [|n IH]; intros y bz bufs; loop_simpl.
  - intros [= <-]. apply R_refl.
  - destruct (rows_loop inner dir bX bpv bpv _ _ bufs) as [b1|] eqn:E; loop_simpl;
      [|discriminate].
    intros Hr. eapply R_trans; [eapply rows_loop_inv, E | eapply IH, Hr].
Qed.

Lemma vol_rows_inv n bX bY dX dY bo do_ bytes bz dz dataY blockY bufs bufs' :
  vol_rows n dir bX bY dX dY bo do_ bytes bz dz dataY blockY bufs = Returns bufs' ->
  R bufs bufs'.
Proof.
  revert dataY blockY bufs. induction n as [|n IH]; intros dataY blockY bufs; loop_simpl.
  - intros [= <-]. apply R_refl.
  - destruct (copy_run dir _ _ bytes bufs) as [b1|] eqn:E; loop_simpl; [|discriminate].
    intros Hr. eapply R_trans; [eapply R_copy, E | eapply IH, Hr].
Qed.

Lemma vol_loop_inv n inner bX bY dX dY bo do_ bytes db1 bb1 dataZ blockZ bufs bufs' :
  vol_loop n dir inner bX bY dX dY bo do_ bytes db1 bb1 dataZ blockZ bufs = Returns bufs' ->
  R bufs bufs'.
Proof.
  revert dataZ blockZ bufs. induction n as [|n IH]; intros dataZ blockZ bufs; loop_simpl.
  - intros [= <-]. apply R_refl.
  - destruct (vol_rows inner dir _ _ _ _ _ _ _ _ _ _ _ bufs) as [b1|] eqn:E; loop_simpl;
      [|discriminate].
    intros Hr. eapply R_trans; [eapply vol_rows_inv, E | eapply IH, Hr].
Qed.
End LoopInvariant.

Lemma copy_run_lengths dir dataI blockI bytes (bufs bufs' : list byte * list byte) :
  copy_run dir dataI blockI bytes bufs = Returns bufs' ->
  length (fst bufs') = length (fst bufs) /\ length (snd bufs') = length (snd bufs).
Proof.
  destruct bufs as [dat blk]. unfold copy_run.
  destruct dir;
    match goal with
    | |- context [go_copy ?d ?a ?b ?s ?c ?e] =>
        destruct (go_copy d a b s c e) as [x|] eqn:E
    end; cbn [mbind outcome_bind mret outcome_ret]; try discriminate;
    intros [= <-]; cbn [fst snd];
    pose proof (go_copy_frame _ _ _ _ _ _ _ E) as [Hl _]; auto.
Qed.

Lemma transferBlock_lengths (op : OpType) (v : Voxels) (block : Block)
    (blockSize : Point) (bufs' : list byte * list byte) :
  transferBlock op v block blockSize = Returns (Ok bufs') ->
  length (fst bufs') = length (data v) /\ length (snd bufs') = length (V block).
Proof.
  set (R := fun b1 b2 : list byte * list byte =>
              length (fst b2) = length (fst b1) /\ length (snd b2) = length (snd b1)).
  assert (R_refl : forall bufs, R bufs bufs) by (intros; split; reflexivity).
  assert (R_trans : forall b1 b2 b3, R b1 b2 -> R b2 b3 -> R b1 b3)
    by (unfold R; intros b1 b2 b3 [? ?] [? ?]; split; congruence).
  assert (R_copy : forall dir dataI blockI bytes bufs b2,
            copy_run dir dataI blockI bytes bufs = Returns b2 -> R bufs b2)
    by (intros; eapply copy_run_lengths; eassumption).
  change (transferBlock op v block blockSize = Returns (Ok bufs') ->
          R (data v, V block) bufs').
  intros Hw. unfold transferBlock in Hw.
  destruct (3 <? NumDims blockSize); [discriminate|].
  destruct (ComputeTransform v block blockSize) as [ob|]; [|discriminate].
  destruct (Value blockSize 0); cbn [mbind outcome_bind] in Hw; [|discriminate].
  destruct (Value blockSize 1); cbn [mbind outcome_bind] in Hw; [|discriminate].
  destruct (Equals (geom_DataShape (geom v)) XY).
  { bind_values Hw. bind_loop Hw E. injection Hw as <-.
    eapply (rows_loop_inv _ R R_refl R_trans (R_copy _)), E. }
  destruct (Equals (geom_DataShape (geom v)) XZ).
  { bind_values Hw. bind_loop Hw E. injection Hw as <-.
    eapply (rows_loop_inv _ R R_refl R_trans (R_copy _)), E. }
  destruct (Equals (geom_DataShape (geom v)) YZ).
  { bind_values Hw.
    match type of Hw with context [(?t =? 0)%nat] => destruct (t =? 0)%nat end.
    - injection Hw as <-. apply R_refl.
    - bind_values Hw. bind_loop Hw E. injection Hw as <-.
      eapply (yz_loop_inv _ R R_refl R_trans (R_copy _)), E. }
  destruct (ShapeDimensions (geom_DataShape (geom v)) =? 2); [discriminate|].
  destruct (Equals (geom_DataShape (geom v)) Vol3d); [|discriminate].
  bind_values Hw.
  match type of Hw with context [(?t =? 0)%nat] => destruct (t =? 0)%nat end.
  - injection Hw as <-. apply R_refl.
  - bind_values Hw. bind_loop Hw E. injection Hw as <-.
    eapply (vol_loop_inv _ R R_refl R_trans (R_copy _)), E.
Qed.

(** X16. What every transfer that returns nil keeps: both buffers keep
    their lengths, whatever the shape, the bounds and the direction; and
    for a slice (XY, XZ or YZ) a read leaves the block buffer as it was and
    a write leaves the view buffer as it was. *)
Theorem transferBlock_buffers (op : OpType) (v : Voxels) (block : Block)
    (blockSize : Point) (data' blockV' : list byte) :
  transferBlock op v block blockSize = Returns (Ok (data', blockV')) ->
  length data' = length (data v) /\ length blockV' = length (V block)
  /\ (geom_DataShape (geom v) = XY \/ geom_DataShape (geom v) = XZ
      \/ geom_DataShape (geom v) = YZ ->
      match op with
      | GetOp => blockV' = V block
      | PutOp => data' = data v
      end).
Proof.
  intros Hw.
  pose proof (transferBlock_lengths _ _ _ _ _ Hw) as [Hl1 Hl2].
  split; [exact Hl1|]. split; [exact Hl2|].
  intros Hs. apply transferBlock_kept in Hw. cbv zeta in Hw.
  assert (Hor : Equals (geom_DataShape (geom v)) XY
                || Equals (geom_DataShape (geom v)) XZ
                || Equals (geom_DataShape (geom v)) YZ = true).
  { destruct Hs as [-> | [-> | ->]]; reflexivity. }
  rewrite Hor in Hw. destruct op; exact Hw.
Qed.

Lemma transferBlock_buffers_witness :
  let v := mkVoxels (mkGeometry XZ [2; 2] 4 [0; 1; 0] [1; 1; 1])
             [mkDataValue "uint8" "grayscale"] [x01; x02; x03; x04] 2 in
  let block := mkBlock (Some (datastore.mkDataKey 1 1 1 [0; 0; 0])) (make_bytes 8) in
  let blockV' := [x00; x00; x01; x02; x00; x00; x03; x04] in
  transferBlock PutOp v block [2; 2; 2] = Returns (Ok (data v, blockV'))
  /\ length (data v) = length (data v) /\ length blockV' = length (V block)
  /\ (geom_DataShape (geom v) = XY \/ geom_DataShape (geom v) = XZ
      \/ geom_DataShape (geom v) = YZ -> data v = data v).
Proof.
  intros v block blockV'. split; [vm_compute; reflexivity|].
  apply (transferBlock_buffers PutOp v block [2; 2; 2] (data v) blockV').
  vm_compute. reflexivity.
Defined.

(** ** Version mutexes, once more *)

(** X17. VersionMutex is frugal: a second call for the same triple
    returns the same mutex and leaves the map as the first call left it; a
    call allocates one mutex when its triple is not in the map and none
    otherwise. *)
Theorem VersionMutex_idempotent (d : datastore.DataID) (v : Z) (st : datastore.MutexStore) :
  let r := datastore.VersionMutex d v st in
  datastore.VersionMutex d v (snd r) = r
  /\ datastore.allocated (snd r)
     = match datastore.versionMutexes st !! datastore.node (d, v) with
       | Some _ => datastore.allocated st
       | None => S (datastore.allocated st)
       end.
Proof.
  unfold datastore.VersionMutex, datastore.node. cbn [fst snd].
  destruct (datastore.versionMutexes st !! (datastore.DsetID d, datastore.ID d, v))
    as [m|] eqn:E; cbn [fst snd datastore.versionMutexes datastore.allocated].
  - rewrite E. split; reflexivity.
  - rewrite lookup_insert_eq. split; reflexivity.
Qed.

Lemma VersionMutex_dom (d : datastore.DataID) (v : Z) (st : datastore.MutexStore) :
  datastore.allocated st = size (datastore.versionMutexes st) ->
  let st' := snd (datastore.VersionMutex d v st) in
  datastore.allocated st' = size (datastore.versionMutexes st')
  /\ dom (datastore.versionMutexes st')
     = {[datastore.node (d, v)]} ∪ dom (datastore.versionMutexes st).
Proof.
  intros Hsz. unfold datastore.VersionMutex, datastore.node. cbn [fst snd].
  destruct (datastore.versionMutexes st !! (datastore.DsetID d, datastore.ID d, v))
    as [m|] eqn:E; cbn [fst snd datastore.versionMutexes datastore.allocated].
  - split; [exact Hsz|]. apply elem_of_dom_2 in E.
    symmetry. apply subseteq_union_1_L, singleton_subseteq_l, E.
  - split.
    + rewrite map_size_insert_None by exact E. congruence.
    + rewrite dom_insert_L. reflexivity.
Qed.

Lemma VersionMutex_calls_dom (calls : list (datastore.DataID * Z))
    (st : datastore.MutexStore) :
  datastore.allocated st = size (datastore.versionMutexes st) ->
  let st' := snd (datastore.VersionMutex_calls calls st) in
  datastore.allocated st' = size (datastore.versionMutexes st')
  /\ dom (datastore.versionMutexes st')
     = list_to_set (datastore.node <$> calls) ∪ dom (datastore.versionMutexes st).
Proof.
  revert st. induction calls as [|[d v] rest IH]; intros st Hsz; cbn.
  - split; [exact Hsz|]. symmetry. apply (left_id_L ∅ (∪)).
  - pose proof (VersionMutex_dom d v st Hsz) as [Hsz1 Hd1]. cbv zeta in Hsz1, Hd1.
    destruct (datastore.VersionMutex d v st) as [m0 st1]. cbn [snd] in Hsz1, Hd1.
    specialize (IH st1 Hsz1). cbv zeta in IH.
    destruct (datastore.VersionMutex_calls rest st1) as [ms st2]. cbn [snd] in *.
    destruct IH as [Hsz2 Hd2]. split; [exact Hsz2|].
    rewrite Hd2, Hd1. rewrite (assoc_L (∪)).
    rewrite (comm_L (∪) (list_to_set (datastore.node <$> rest))). reflexivity.
Qed.

(** X18. After any sequence of VersionMutex calls from the initial map,
    the map holds exactly the triples that were called with, and the number
    of mutexes allocated is the number of these triples: one mutex for each
    distinct triple and none besides. *)
Theorem VersionMutex_one_per_triple (calls : list (datastore.DataID * Z)) :
  let st := snd (datastore.VersionMutex_calls calls datastore.init) in
  dom (datastore.versionMutexes st)
  = (list_to_set (datastore.node <$> calls) : gset (Z * Z * Z))
  /\ datastore.allocated st
     = size (list_to_set (datastore.node <$> calls) : gset (Z * Z * Z)).
Proof.
  pose proof (VersionMutex_calls_dom calls datastore.init) as Hc.
  cbv zeta in *. destruct Hc as [Hsz Hd].
  { cbn. rewrite map_size_empty. reflexivity. }
  assert (Hdom : dom (datastore.versionMutexes
                        (snd (datastore.VersionMutex_calls calls datastore.init)))
                 = list_to_set (datastore.node <$> calls)).
  { rewrite Hd. cbn. rewrite dom_empty_L. apply (right_id_L ∅ (∪)). }
  split; [exact Hdom|]. rewrite Hsz, <- Hdom. symmetry. apply size_dom.
Qed.

(** ** Configurations *)

(** X19. The versioning of a data instance follows its configuration: on
    every initialised configuration, IsVersioned after SetVersioned returns
    the value that was set and no error, and NewDataService then makes an
    instance that is versioned exactly when that value is true; a new
    configuration is unversioned; on a nil configuration SetVersioned has
    no effect and IsVersioned returns an error. *)
Theorem SetVersioned_IsVersioned (m : gmap string ConfigValue) (b : bool)
    (id : datastore.DataID) :
  IsVersioned (SetVersioned (Some m) b) = (Ok b, SetVersioned (Some m) b)
  /\ datastore.NewDataService id (SetVersioned (Some m) b)
     = (datastore.mkBaseData id (negb b), None, SetVersioned (Some m) b)
  /\ datastore.IsVersioned
       (fst (fst (datastore.NewDataService id (SetVersioned (Some m) b)))) = b
  /\ fst (IsVersioned NewConfig) = Ok false
  /\ SetVersioned None b = None
  /\ exists msg, fst (IsVersioned None) = Err msg.
Proof.
  assert (H1 : IsVersioned (SetVersioned (Some m) b) = (Ok b, SetVersioned (Some m) b)).
  { unfold IsVersioned, SetVersioned. rewrite lookup_insert_eq.
    destruct b; reflexivity. }
  assert (H2 : datastore.NewDataService id (SetVersioned (Some m) b)
               = (datastore.mkBaseData id (negb b), None, SetVersioned (Some m) b)).
  { unfold datastore.NewDataService. rewrite H1. reflexivity. }
  split; [exact H1|]. split; [exact H2|]. split.
  { rewrite H2. cbn. apply negb_involutive. }
  split; [reflexivity|]. split; [reflexivity|]. eexists. reflexivity.
Qed.

(** ** Commands *)

Lemma SplitEq_nonempty (s : string) : SplitEq s <> [].
Proof.
  destruct s as [|c rest]; cbn; [discriminate|].
  destruct (Ascii.eqb c "="); [discriminate|].
  destruct (SplitEq rest); discriminate.
Qed.

Lemma SplitEq_pieces (s : string) : Forall (fun piece => has_eq piece = false) (SplitEq s).
Proof.
  induction s as [|c rest IH]; cbn.
  - repeat constructor.
  - destruct (Ascii.eqb c "=") eqn:Ec.
    + constructor; [reflexivity | exact IH].
    + destruct (SplitEq rest) as [|piece pieces].
      * repeat constructor. cbn. rewrite Ec. reflexivity.
      * apply Forall_cons in IH. destruct IH as [Hp Hps].
        constructor; [|exact Hps]. cbn. rewrite Ec, Hp. reflexivity.
Qed.

(** Joining the pieces with "=" gives the string back. *)
Lemma SplitEq_concat (s : string) : String.concat "=" (SplitEq s) = s.
Proof.
  induction s as [|c rest IH]; cbn; [reflexivity|].
  destruct (Ascii.eqb_spec c "=") as [->|Hc].
  - pose proof (SplitEq_nonempty rest) as Hne.
    destruct (SplitEq rest) as [|piece pieces]; [contradiction|].
    rewrite <- IH. reflexivity.
  - destruct (SplitEq rest) as [|piece pieces].
    + rewrite <- IH. reflexivity.
    + destruct pieces as [|p2 pieces]; rewrite <- IH; reflexivity.
Qed.

Lemma SplitEq_no_eq (s : string) : has_eq s = false -> SplitEq s = [s].
Proof.
  induction s as [|c rest IH]; cbn; [reflexivity|].
  destruct (Ascii.eqb c "="); cbn; [discriminate|].
  intros Hr. rewrite (IH Hr). reflexivity.
Qed.

Lemma SplitEq_key_value (k rest : string) :
  has_eq k = false -> SplitEq (key_value k rest) = k :: SplitEq rest.
Proof.
  unfold key_value. induction k as [|c k IH]; intros Hk.
  - reflexivity.
  - cbn [has_eq] in Hk. destruct (Ascii.eqb c "=") eqn:Ec; [discriminate|].
    cbn [orb] in Hk.
    change (SplitEq (String c (String.append k (String "=" rest)))
            = String c k :: SplitEq rest).
    cbn [SplitEq]. rewrite Ec, (IH Hk). reflexivity.
Qed.

(** An argument splits in two exactly when it is a key, one "=" and a
    value. *)
Lemma SplitEq_two (arg k v : string) :
  SplitEq arg = [k; v]
  <-> arg = key_value k v /\ has_eq k = false /\ has_eq v = false.
Proof.
  split.
  - intros Hs. pose proof (SplitEq_concat arg) as Hc.
    pose proof (SplitEq_pieces arg) as Hp. rewrite Hs in Hc, Hp.
    apply Forall_cons in Hp. destruct Hp as [Hk Hp].
    apply Forall_cons in Hp. destruct Hp as [Hv _].
    split; [|split; assumption]. rewrite <- Hc. reflexivity.
  - intros (-> & Hk & Hv). rewrite (SplitEq_key_value k v Hk), (SplitEq_no_eq v Hv).
    reflexivity.
Qed.

Lemma Setting_loop_first (args : list string) (key : string) :
  has_eq key = false ->
  match Setting_loop args key with
  | (value, true) =>
      exists pre post,
        args = pre ++ key_value key value :: post /\ has_eq value = false
        /\ Forall (fun arg => forall v, has_eq v = false -> arg <> key_value key v) pre
  | (value, false) =>
      value = EmptyString
      /\ Forall (fun arg => forall v, has_eq v = false -> arg <> key_value key v) args
  end.
Proof.
  intros Hkey. induction args as [|arg rest IH]; cbn [Setting_loop].
  - split; [reflexivity | constructor].
  - assert (Hmiss : (forall v, SplitEq arg <> [key; v]) ->
                    forall v, has_eq v = false -> arg <> key_value key v).
    { intros Hno v Hv ->. apply (Hno v). apply SplitEq_two. auto. }
    assert (Hstep : (forall v, SplitEq arg <> [key; v]) ->
              match Setting_loop rest key with
              | (value, true) =>
                  exists pre post,
                    arg :: rest = pre ++ key_value key value :: post
                    /\ has_eq value = false
                    /\ Forall (fun arg => forall v, has_eq v = false ->
                                          arg <> key_value key v) pre
              | (value, false) =>
                  value = EmptyString
                  /\ Forall (fun arg => forall v, has_eq v = false ->
                                        arg <> key_value key v) (arg :: rest)
              end).
    { intros Hno. destruct (Setting_loop rest key) as [value [|]].
      - destruct IH as (pre & post & -> & Hv & Hpre).
        exists (arg :: pre), post. split; [reflexivity|]. split; [exact Hv|].
        constructor; [apply Hmiss, Hno | exact Hpre].
      - destruct IH as [-> Hall]. split; [reflexivity|].
        constructor; [apply Hmiss, Hno | exact Hall]. }
    destruct (SplitEq arg) as [|k [|v [|x l]]] eqn:Es;
      try (apply Hstep; intros v0; discriminate).
    destruct (String.eqb_spec k key) as [->|Hk].
    + apply SplitEq_two in Es. destruct Es as (-> & _ & Hv).
      exists [], rest. split; [reflexivity|]. split; [exact Hv | constructor].
    + apply Hstep. intros v0 [= E _]. contradiction.
Qed.

(** X20. Setting returns the value of the first argument after the
    command name that is the key, one "=" and a value without "=": for a
    key without "=", when it reports a value the arguments are some
    arguments that are not settings of the key, then key=value, then the
    rest; when it reports none, the value is empty and no argument after
    the command name is a setting of the key. *)
Theorem Setting_first_match (cmd : Command) (key : string) :
  has_eq key = false ->
  match Setting cmd key with
  | (value, true) =>
      exists pre post,
        drop 1 cmd = pre ++ key_value key value :: post /\ has_eq value = false
        /\ Forall (fun arg => forall v, has_eq v = false -> arg <> key_value key v) pre
  | (value, false) =>
      value = EmptyString
      /\ Forall (fun arg => forall v, has_eq v = false -> arg <> key_value key v)
                (drop 1 cmd)
  end.
Proof.
  intros Hkey. unfold Setting.
  destruct (Nat.ltb_spec 1 (length cmd)) as [Hl|Hl].
  - apply Setting_loop_first, Hkey.
  - split; [reflexivity|]. rewrite drop_ge by lia. constructor.
Qed.

Lemma Setting_first_match_witness :
  Setting ["put"; "uuid=3f"; "name=a"; "name=b"]%string "name" = ("a"%string, true)
  /\ exists pre post,
       drop 1 ["put"; "uuid=3f"; "name=a"; "name=b"]%string
       = pre ++ key_value "name" "a" :: post /\ has_eq "a" = false
       /\ Forall (fun arg => forall v, has_eq v = false -> arg <> key_value "name" v) pre.
Proof.
  split; [reflexivity|].
  apply (Setting_first_match ["put"; "uuid=3f"; "name=a"; "name=b"]%string "name").
  reflexivity.
Defined.

Lemma getArgs_loop_spec (args done_ : list string) (n : nat) :
  let plain := filter (fun a => length (SplitEq a) <> 2%nat) args in
  getArgs_loop args (Z.of_nat n) (Z.of_nat (length done_))
    (take n (done_ ++ replicate n EmptyString)) (drop n done_)
  = (take n ((done_ ++ plain) ++ replicate n EmptyString), drop n (done_ ++ plain)).
Proof.
  revert done_. induction args as [|arg rest IH]; intros done_; cbn [getArgs_loop].
  - cbn. rewrite app_nil_r. reflexivity.
  - cbv zeta in *. rewrite filter_cons.
    destruct (Nat.eqb_spec (length (SplitEq arg)) 2) as [E|E]; cbn [negb].
    + rewrite decide_False by tauto. apply IH.
    + rewrite decide_True by exact E.
      replace (done_ ++ arg :: filter (fun a => length (SplitEq a) <> 2%nat) rest)
        with ((done_ ++ [arg]) ++ filter (fun a => length (SplitEq a) <> 2%nat) rest)
        by (rewrite <- app_assoc; reflexivity).
      rewrite <- (IH (done_ ++ [arg])). rewrite length_app. cbn [length].
      replace (Z.of_nat (length done_ + 1)) with (Z.of_nat (length done_) + 1) by lia.
      destruct (Z.leb_spec (Z.of_nat n) (Z.of_nat (length done_))) as [Hn|Hn].
      * f_equal.
        -- rewrite <- !app_assoc. rewrite !take_app_le by lia. reflexivity.
        -- rewrite drop_app_le by lia. reflexivity.
      * f_equal.
        -- rewrite Nat2Z.id. apply list_eq. intros i.
           destruct (decide (i = length done_)) as [->|Hi].
           ++ rewrite list_lookup_insert_eq
                by (rewrite length_take, length_app, length_replicate; lia).
              rewrite lookup_take_lt by lia.
              rewrite <- app_assoc. rewrite lookup_app_r by lia.
              rewrite Nat.sub_diag. reflexivity.
           ++ rewrite list_lookup_insert_ne by congruence.
              destruct (decide (i < n)%nat) as [Hlt|Hge].
              ** rewrite !lookup_take_lt by lia.
                 destruct (decide (i < length done_)%nat) as [Hd|Hd].
                 --- rewrite <- app_assoc. rewrite !lookup_app_l by lia. reflexivity.
                 --- rewrite <- app_assoc. rewrite !lookup_app_r by lia.
                     rewrite lookup_replicate_2 by lia.
                     replace (i - length done_)%nat with (S (i - length done_ - 1)) by lia.
                     cbn [app]. rewrite lookup_cons_ne_0 by lia. cbn [Nat.pred].
                     rewrite lookup_replicate_2 by lia. reflexivity.
              ** rewrite !lookup_take_ge by lia. reflexivity.
        -- rewrite !drop_ge by (rewrite ?length_app; cbn [length]; lia). reflexivity.
Qed.

(** X21. CommandArgs hands out the arguments that are not settings, in
    order: with [plain] the arguments from [startPos] on that do not split
    at "=" into exactly two pieces, target [i] receives the [i]-th of
    [plain], or the empty string when there are not that many, and the
    overflow is what [plain] holds beyond the number of targets; this for
    every start position that is not negative, also beyond the end of the
    command. *)
Theorem CommandArgs_plain_arguments (cmd : Command) (startPos : Z) (numTargets : nat) :
  0 <= startPos ->
  let plain := filter (fun a => length (SplitEq a) <> 2%nat)
                      (drop (Z.to_nat startPos) cmd) in
  CommandArgs cmd startPos numTargets
  = Returns (take numTargets (plain ++ replicate numTargets EmptyString),
             drop numTargets plain).
Proof.
  intros Hs plain. unfold CommandArgs, getArgs.
  destruct (Z.ltb_spec startPos (Z.of_nat (length cmd))) as [Hl|Hl].
  - destruct (Z.ltb_spec startPos 0); [lia|]. cbn [mret outcome_ret]. f_equal.
    pose proof (getArgs_loop_spec (drop (Z.to_nat startPos) cmd) [] numTargets) as Hg.
    cbv zeta in Hg. cbn [app length] in Hg. rewrite drop_nil in Hg.
    rewrite take_replicate, Nat.min_id in Hg. exact Hg.
  - cbn [mret outcome_ret]. unfold plain. rewrite drop_ge by lia.
    cbn. rewrite take_replicate, Nat.min_id, drop_nil. reflexivity.
Qed.

Lemma CommandArgs_plain_arguments_witness :
  CommandArgs ["dataset"; "add"; "uuid=3f"; "grayscale"; "a.png"; "b.png"]%string 1 3
  = Returns (["add"; "grayscale"; "a.png"]%string, ["b.png"]%string).
Proof.
  apply (CommandArgs_plain_arguments
           ["dataset"; "add"; "uuid=3f"; "grayscale"; "a.png"; "b.png"]%string 1 3).
  lia.
Defined.

(** ** Writing a slice into a block and reading it back *)

Lemma go_copy_content (dst src dst' : list byte) (a c bytes : Z) :
  0 <= bytes ->
  go_copy dst a (a + bytes) src c (c + bytes) = Returns dst' ->
  forall j, 0 <= j < bytes -> dst' !! Z.to_nat (a + j) = src !! Z.to_nat (c + j).
Proof.
  unfold go_copy, slice_ok. intros Hb Hc j Hj.
  destruct (_ && _) eqn:Hok in Hc; [|discriminate].
  injection Hc as <-.
  repeat (apply andb_prop in Hok; destruct Hok as [Hok ?]).
  repeat match goal with
         | H : (_ <=? _) = true |- _ => apply Z.leb_le in H
         end.
  replace (Z.min (a + bytes - a) (c + bytes - c)) with bytes by lia.
  rewrite lookup_app_r by (rewrite length_take; lia).
  rewrite length_take.
  replace (Z.to_nat (a + j) - Nat.min (Z.to_nat a) (length dst))%nat
    with (Z.to_nat j) by lia.
  rewrite lookup_app_l by (rewrite length_take, length_drop; lia).
  rewrite lookup_take_lt by lia. rewrite lookup_drop. f_equal. lia.
Qed.

(** The two directions are mirror images of each other. *)
Lemma copy_run_swap (dataI blockI bytes : Z) (dat blk : list byte) :
  copy_run ToData dataI blockI bytes (dat, blk)
  = match copy_run ToBlock blockI dataI bytes (blk, dat) with
    | Returns (b, a) => Returns (a, b)
    | Panics => Panics
    end.
Proof.
  unfold copy_run.
  destruct (go_copy dat dataI (add32 dataI bytes) blk blockI (add32 blockI bytes));
    reflexivity.
Qed.

Lemma rows_loop_swap n bstep dstep bytes blockI dataI (dat blk : list byte) :
  rows_loop n ToData bstep dstep bytes blockI dataI (dat, blk)
  = match rows_loop n ToBlock dstep bstep bytes dataI blockI (blk, dat) with
    | Returns (b, a) => Returns (a, b)
    | Panics => Panics
    end.
Proof.
  revert blockI dataI dat blk. induction n as [|n IH]; intros blockI dataI dat blk;
    loop_simpl; [reflexivity|].
  rewrite copy_run_swap.
  destruct (copy_run ToBlock blockI dataI bytes (blk, dat)) as [[b1 d1]|]; loop_simpl;
    [apply IH | reflexivity].
Qed.

(** Rows copied into the block, in terms of the positions the loop
    computes. *)
Lemma rows_loop_ToBlock_rows n bstep dstep bytes blockI dataI (dat blk : list byte) :
  0 <= bytes ->
  (forall k : nat, (k < n)%nat ->
     let b := row_start k blockI bstep in
     let d := row_start k dataI dstep in
     (0 <= b /\ add32 b bytes = b + bytes /\ b + bytes <= Z.of_nat (length blk))
     /\ (0 <= d /\ add32 d bytes = d + bytes /\ d + bytes <= Z.of_nat (length dat))) ->
  (forall k k' : nat, (k < k')%nat -> (k' < n)%nat ->
     row_start k blockI bstep + bytes <= row_start k' blockI bstep) ->
  exists blk',
    rows_loop n ToBlock bstep dstep bytes blockI dataI (dat, blk) = Returns (dat, blk')
    /\ length blk' = length blk
    /\ (forall (k : nat) (j : Z), (k < n)%nat -> 0 <= j < bytes ->
          blk' !! Z.to_nat (row_start k blockI bstep + j)
          = dat !! Z.to_nat (row_start k dataI dstep + j))
    /\ (forall i : nat,
          (forall k : nat, (k < n)%nat ->
             ~ (row_start k blockI bstep <= Z.of_nat i
                < row_start k blockI bstep + bytes)) ->
          blk' !! i = blk !! i).
Proof.
  intros Hbytes. revert blockI dataI blk.
  induction n as [|n IH]; intros blockI dataI blk Hin Hdis; loop_simpl.
  - exists blk. split; [reflexivity|]. split; [reflexivity|].
    split; [intros; lia | intros; reflexivity].
  - destruct (Hin 0%nat ltac:(lia)) as [(Hb0 & Eb & Hb1) (Hd0 & Ed & Hd1)].
    cbn [row_start] in Hb0, Eb, Hb1, Hd0, Ed, Hd1.
    unfold copy_run. rewrite Eb, Ed.
    destruct (go_copy blk blockI (blockI + bytes) dat dataI (dataI + bytes))
      as [b1|] eqn:Ec.
    2:{ exfalso. unfold go_copy, slice_ok in Ec.
        destruct (Z.leb_spec 0 blockI), (Z.leb_spec blockI (blockI + bytes)),
          (Z.leb_spec (blockI + bytes) (Z.of_nat (length blk))),
          (Z.leb_spec 0 dataI), (Z.leb_spec dataI (dataI + bytes)),
          (Z.leb_spec (dataI + bytes) (Z.of_nat (length dat))); cbn in Ec;
          try discriminate; lia. }
    loop_simpl.
    pose proof (go_copy_frame _ _ _ _ _ _ _ Ec) as [Hl1 Hf1].
    pose proof (go_copy_content _ _ _ _ _ _ Hbytes Ec) as Hc1.
    destruct (IH (add32 blockI bstep) (add32 dataI dstep) b1) as (b2 & -> & Hl2 & Hc2 & Hf2).
    { intros k Hk. rewrite Hl1. apply (Hin (S k)). lia. }
    { intros k k' Hkk Hk'. apply (Hdis (S k) (S k')); lia. }
    exists b2. split; [reflexivity|]. split; [congruence|]. split.
    + intros [|k] j Hk Hj; cbn [row_start].
      * rewrite Hf2.
        -- apply Hc1, Hj.
        -- intros k Hk' Hr. pose proof (Hdis 0%nat (S k) ltac:(lia) ltac:(lia)) as Hd.
           cbn [row_start] in Hd. lia.
      * apply Hc2; [lia | exact Hj].
    + intros i Hi. rewrite Hf2.
      * apply Hf1. intros Hr. apply (Hi 0%nat ltac:(lia)). cbn [row_start]. lia.
      * intros k Hk. apply (Hi (S k)). lia.
Qed.

Lemma rows_fit_row (n : nat) (start step bytes len : Z) (k : nat) :
  rows_fit n start step bytes len -> (k < n)%nat ->
  let a := row_start k start step in
  a = start + Z.of_nat k * step
  /\ 0 <= a /\ add32 a bytes = a + bytes /\ a + bytes <= len.
Proof.
  intros (Hs & Hb & Hend & Hlen) Hk. cbv zeta. unfold MaxInt32 in Hlen.
  assert (Hrow : forall j : nat, (j <= k)%nat ->
            0 <= start + Z.of_nat j * step
            /\ start + Z.of_nat j * step + bytes <= len) by (intros j Hj; nia).
  rewrite row_start_small by (intros j Hj; specialize (Hrow j Hj); lia).
  destruct (Hrow k ltac:(lia)) as [H0 H1].
  split; [reflexivity|]. split; [exact H0|]. split; [|exact H1].
  unfold add32. apply wrap32_small. lia.
Qed.

(** Rows copied into the block, in terms of positions. *)
Lemma rows_loop_ToBlock_fit n bstep dstep bytes blockI dataI (dat blk : list byte) :
  rows_fit n blockI bstep bytes (Z.of_nat (length blk)) ->
  rows_fit n dataI dstep bytes (Z.of_nat (length dat)) ->
  exists blk',
    rows_loop n ToBlock bstep dstep bytes blockI dataI (dat, blk) = Returns (dat, blk')
    /\ length blk' = length blk
    /\ (forall (k : nat) (j : Z), (k < n)%nat -> 0 <= j < bytes ->
          blk' !! Z.to_nat (blockI + Z.of_nat k * bstep + j)
          = dat !! Z.to_nat (dataI + Z.of_nat k * dstep + j))
    /\ (forall i : nat,
          (forall k : nat, (k < n)%nat ->
             ~ (blockI + Z.of_nat k * bstep <= Z.of_nat i
                < blockI + Z.of_nat k * bstep + bytes)) ->
          blk' !! i = blk !! i).
Proof.
  intros Hfb Hfd.
  destruct (rows_loop_ToBlock_rows n bstep dstep bytes blockI dataI dat blk)
    as (blk' & Hr & Hl & Hc & Hf).
  - destruct Hfb as (_ & ? & _). lia.
  - intros k Hk.
    pose proof (rows_fit_row _ _ _ _ _ k Hfb Hk) as (_ & ? & ? & ?).
    pose proof (rows_fit_row _ _ _ _ _ k Hfd Hk) as (_ & ? & ? & ?).
    cbv zeta. auto.
  - intros k k' Hkk Hk'.
    pose proof (rows_fit_row _ _ _ _ _ k Hfb ltac:(lia)) as (-> & _).
    pose proof (rows_fit_row _ _ _ _ _ k' Hfb Hk') as (-> & _).
    destruct Hfb as (_ & ? & _). nia.
  - exists blk'. split; [exact Hr|]. split; [exact Hl|]. split.
    + intros k j Hk Hj. specialize (Hc k j Hk Hj).
      pose proof (rows_fit_row _ _ _ _ _ k Hfb Hk) as (Eb & _).
      pose proof (rows_fit_row _ _ _ _ _ k Hfd Hk) as (Ed & _).
      cbv zeta in Eb, Ed. rewrite Eb, Ed in Hc. exact Hc.
    + intros i Hi. apply Hf. intros k Hk.
      pose proof (rows_fit_row _ _ _ _ _ k Hfb Hk) as (Eb & _).
      cbv zeta in Eb. rewrite Eb. apply Hi, Hk.
Qed.

(** Rows written into the block and read back into another view buffer:
    the buffer read into has, in every row copied, the bytes of the
    buffer written from, and its other bytes are as before. *)
Lemma rows_loop_roundtrip n bstep dstep bytes blockI dataI (dat d0 blk : list byte) :
  rows_fit n blockI bstep bytes (Z.of_nat (length blk)) ->
  rows_fit n dataI dstep bytes (Z.of_nat (length dat)) ->
  length d0 = length dat ->
  exists b1 d2,
    rows_loop n ToBlock bstep dstep bytes blockI dataI (dat, blk) = Returns (dat, b1)
    /\ rows_loop n ToData bstep dstep bytes blockI dataI (d0, b1) = Returns (d2, b1)
    /\ length b1 = length blk /\ length d2 = length d0
    /\ (forall (k : nat) (j : Z), (k < n)%nat -> 0 <= j < bytes ->
          d2 !! Z.to_nat (dataI + Z.of_nat k * dstep + j)
          = dat !! Z.to_nat (dataI + Z.of_nat k * dstep + j))
    /\ (forall i : nat,
          (forall k : nat, (k < n)%nat ->
             ~ (dataI + Z.of_nat k * dstep <= Z.of_nat i
                < dataI + Z.of_nat k * dstep + bytes)) ->
          d2 !! i = d0 !! i).
Proof.
  intros Hfb Hfd Hl0.
  destruct (rows_loop_ToBlock_fit n bstep dstep bytes blockI dataI dat blk Hfb Hfd)
    as (b1 & Hw & Hl1 & Hc1 & _).
  destruct (rows_loop_ToBlock_fit n dstep bstep bytes dataI blockI b1 d0)
    as (d2 & Hr & Hl2 & Hc2 & Hf2).
  { rewrite Hl0. exact Hfd. }
  { rewrite Hl1. exact Hfb. }
  exists b1, d2. split; [exact Hw|]. split.
  { rewrite rows_loop_swap, Hr. reflexivity. }
  split; [exact Hl1|]. split; [exact Hl2|]. split.
  - intros k j Hk Hj. rewrite (Hc2 k j Hk Hj). apply Hc1; assumption.
  - exact Hf2.
Qed.

(** The transfer of an XY or XZ slice is one loop over rows. *)
Lemma transferBlock_rows_eval
    (op : OpType) (v : Voxels) (key : datastore.DataKey) (blockV : list byte)
    (bsx bsy bsz cx cy cz sx sy sz ex ey ez : Z) :
  let bpv := BytesPerVoxel (values v) in
  let bvx := Z.max sx (cx * bsx) in
  let bvy := Z.max sy (cy * bsy) in
  let bvz := Z.max sz (cz * bsz) in
  let evx := Z.min ex (cx * bsx + bsx - 1) in
  let evy := Z.min ey (cy * bsy + bsy - 1) in
  let evz := Z.min ez (cz * bsz + bsz - 1) in
  let blockI := (bvz - cz * bsz) * (bsy * (bsx * bpv))
                + (bvy - cy * bsy) * (bsx * bpv) + (bvx - cx * bsx) * bpv in
  let dir := match op with GetOp => ToData | PutOp => ToBlock end in
  StartPoint (geom v) = [sx; sy; sz] -> EndPoint (geom v) = [ex; ey; ez] ->
  datastore.Index key = [cx; cy; cz] ->
  0 < bpv -> bpv * bsx * bsy * bsz <= MaxInt32 ->
  axis_ok cx bsx sx ex -> axis_ok cy bsy sy ey -> axis_ok cz bsz sz ez ->
  (geom_DataShape (geom v) = XY ->
   transferBlock op v (mkBlock (Some key) blockV) [bsx; bsy; bsz]
   = (bufs' ← rows_loop (trips (bvy - sy) (evy - sy)) dir (bsx * bpv) (stride v)
                ((evx - bvx + 1) * bpv) blockI
                (add32 (mul32 (bvy - sy) (stride v)) (mul32 (bvx - sx) bpv))
                (data v, blockV);
      mret (Ok bufs')))
  /\ (geom_DataShape (geom v) = XZ ->
      transferBlock op v (mkBlock (Some key) blockV) [bsx; bsy; bsz]
      = (bufs' ← rows_loop (trips (bvz - sz) (evz - sz)) dir (bsy * (bsx * bpv)) (stride v)
                   ((evx - bvx + 1) * bpv) blockI
                   (add32 (mul32 (bvz - sz) (stride v)) (mul32 (bvx - sx) bpv))
                   (data v, blockV);
         mret (Ok bufs'))).
Proof.
  intros bpv bvx bvy bvz evx evy evz blockI dir Hs He Hk Hbpv HT Hx Hy Hz.
  unfold transferBlock.
  change (3 <? NumDims [bsx; bsy; bsz]) with false. cbv iota.
  unfold ComputeTransform. cbn [K datastore.KeyToPointIndexer].
  rewrite Hs, He, Hk.
  cbn [FirstPoint LastPoint Max Min Sub zip_with fst blockBeg dataBeg dataEnd V].
  fold bpv.
  destruct (axis_facts _ _ _ _ Hx) as (Ex1 & Ex2 & Ex3 & Ex4 & Ex5).
  destruct (axis_facts _ _ _ _ Hy) as (Ey1 & Ey2 & Ey3 & Ey4 & Ey5).
  destruct (axis_facts _ _ _ _ Hz) as (Ez1 & Ez2 & Ez3 & Ez4 & Ez5).
  rewrite Ex1, Ey1, Ez1, Ex2, Ey2, Ez2, Ex3, Ey3, Ez3, Ex4, Ey4, Ez4, Ex5, Ey5, Ez5.
  clear Ex1 Ey1 Ez1 Ex2 Ey2 Ez2 Ex3 Ey3 Ez3 Ex4 Ey4 Ez4 Ex5 Ey5 Ez5.
  repeat (first [rewrite Value_0 | rewrite Value_1 | rewrite Value_2];
          cbn [mbind outcome_bind]).
  pose proof (clip_facts bpv bsx bsy bsz cx cy cz sx sy sz ex ey ez Hbpv Hx Hy Hz)
    as ((Hbsx & Hbsy & Hbsz) & (? & ? & ? & ?) & (? & ? & ? & ?) & (? & ? & ? & ?)).
  destruct (strides_nowrap bpv bsx bsy bsz Hbpv Hbsx Hbsy Hbsz HT) as [EbX EbY].
  rewrite EbX, EbY.
  pose proof (bytes_nowrap bpv bsx bsy bsz cx cy cz sx sy sz ex ey ez Hbpv HT Hx Hy Hz)
    as Ebytes.
  destruct (offset_nowrap bpv bsx bsy bsz cx cy cz sx sy sz ex ey ez Hbpv HT Hx Hy Hz
              (Z.max sz (cz * bsz) - cz * bsz) (Z.max sy (cy * bsy) - cy * bsy))
    as [Eoff _]; [lia | lia |].
  split; intros Hsh; rewrite Hsh.
  - change (Equals XY XY) with true. cbv iota.
    repeat (first [rewrite Value_0 | rewrite Value_1 | rewrite Value_2];
            cbn [mbind outcome_bind]).
    rewrite Eoff, Ebytes. reflexivity.
  - change (Equals XZ XY) with false. change (Equals XZ XZ) with true. cbv iota.
    repeat (first [rewrite Value_0 | rewrite Value_1 | rewrite Value_2];
            cbn [mbind outcome_bind]).
    rewrite Eoff, Ebytes. reflexivity.
Qed.

Lemma rows_fit_block (bpv bsx bsy bsz x0 nx y0 z0 len : Z) (n : nat) (alongZ : bool) :
  0 < bpv -> 0 < bsx -> 0 < bsy -> 0 < bsz ->
  bpv * bsx * bsy * bsz <= len -> len <= MaxInt32 ->
  0 <= x0 -> 0 <= nx -> x0 + nx <= bsx -> 0 <= y0 -> 0 <= z0 ->
  (if alongZ then y0 < bsy /\ z0 + Z.of_nat n <= bsz
   else y0 + Z.of_nat n <= bsy /\ z0 < bsz) ->
  rows_fit n (z0 * (bsy * (bsx * bpv)) + y0 * (bsx * bpv) + x0 * bpv)
           (if alongZ then bsy * (bsx * bpv) else bsx * bpv) (nx * bpv) len.
Proof.
  intros Hbpv Hbsx Hbsy Hbsz HL HL32 Hx0 Hnx Hrun Hy0 Hz0 Hn.
  unfold rows_fit. split; [nia|].
  assert (Hw : nx * bpv <= bsx * bpv) by nia.
  assert (Hp : bsx * bpv <= bsy * (bsx * bpv)) by nia.
  split; [destruct alongZ; nia|]. split; [|exact HL32].
  assert (Hrow : x0 * bpv + nx * bpv <= bsx * bpv) by nia.
  destruct alongZ; destruct Hn as [Hn1 Hn2].
  - assert (y0 * (bsx * bpv) + bsx * bpv <= bsy * (bsx * bpv)) by nia.
    assert ((z0 + Z.of_nat n) * (bsy * (bsx * bpv)) <= bsz * (bsy * (bsx * bpv))) by nia.
    nia.
  - assert ((y0 + Z.of_nat n) * (bsx * bpv) <= bsy * (bsx * bpv)) by nia.
    assert (z0 * (bsy * (bsx * bpv)) + bsy * (bsx * bpv) <= bsz * (bsy * (bsx * bpv)))
      by nia.
    nia.
Qed.

Lemma rows_fit_view (bpv dX H len r0 x0 nx : Z) (n : nat) :
  0 < bpv -> 0 <= dX -> dX * H <= len -> len <= MaxInt32 ->
  0 <= r0 -> r0 + Z.of_nat n <= H -> 0 <= x0 -> 0 <= nx -> (x0 + nx) * bpv <= dX ->
  rows_fit n (r0 * dX + x0 * bpv) dX (nx * bpv) len.
Proof.
  intros Hbpv HdX HL HL32 Hr0 Hn Hx0 Hnx Hrun. unfold rows_fit.
  split; [nia|]. split; [nia|]. split; [|exact HL32].
  assert ((r0 + Z.of_nat n) * dX <= dX * H) by nia. nia.
Qed.

Lemma width_fits (bpv dX w a : Z) :
  0 < bpv -> w * bpv <= dX -> 0 <= a <= w -> 0 <= dX /\ a * bpv <= dX.
Proof. intros. nia. Qed.

Lemma run_pos (bpv nx x c : Z) :
  0 < bpv -> 0 <= x < nx -> 0 <= c < bpv -> 0 <= x * bpv + c < nx * bpv.
Proof. intros. nia. Qed.

Lemma view_pos_in_buf (bpv dX H len r x w c : Z) :
  0 < bpv -> w * bpv <= dX -> dX * H <= len ->
  0 <= r < H -> 0 <= x < w -> 0 <= c < bpv ->
  0 <= r * dX + x * bpv + c < len.
Proof.
  intros Hbpv Hw Hlen Hr Hx Hc.
  assert (0 <= x * bpv + c < w * bpv) by (apply run_pos; lia).
  assert (0 <= dX) by nia.
  assert (r * dX + dX <= dX * H) by nia.
  assert (0 <= r * dX) by nia.
  lia.
Qed.

(** A slice stored row by row (XY, XZ), written into a block that meets it
    and read back from that block into another buffer of the view. *)
Lemma transferBlock_rows_roundtrip
    (v : Voxels) (key : datastore.DataKey) (blockV d0 : list byte)
    (bsx bsy bsz cx cy cz sx sy sz ex ey ez : Z) :
  let bpv := BytesPerVoxel (values v) in
  StartPoint (geom v) = [sx; sy; sz] -> EndPoint (geom v) = [ex; ey; ez] ->
  datastore.Index key = [cx; cy; cz] ->
  0 < bpv -> bpv * bsx * bsy * bsz <= MaxInt32 ->
  axis_ok cx bsx sx ex -> axis_ok cy bsy sy ey -> axis_ok cz bsz sz ez ->
  bpv * bsx * bsy * bsz <= Z.of_nat (length blockV) ->
  Z.of_nat (length blockV) <= MaxInt32 ->
  view_layout_ok v sx sy sz ex ey ez ->
  geom_DataShape (geom v) = XY \/ geom_DataShape (geom v) = XZ ->
  length d0 = length (data v) ->
  exists b1 d2,
    WriteToBlock v (mkBlock (Some key) blockV) [bsx; bsy; bsz]
    = Returns (Ok (data v, b1))
    /\ ReadFromBlock (set_data v d0) (mkBlock (Some key) b1) [bsx; bsy; bsz]
       = Returns (Ok (d2, b1))
    /\ length b1 = length blockV /\ length d2 = length d0
    /\ forall x y z c,
         Z.max sx (cx * bsx) <= x <= Z.min ex (cx * bsx + bsx - 1) ->
         Z.max sy (cy * bsy) <= y <= Z.min ey (cy * bsy + bsy - 1) ->
         Z.max sz (cz * bsz) <= z <= Z.min ez (cz * bsz + bsz - 1) ->
         0 <= c < bpv ->
         0 <= view_index v sx sy sz x y z c < Z.of_nat (length (data v))
         /\ d2 !! Z.to_nat (view_index v sx sy sz x y z c)
            = data v !! Z.to_nat (view_index v sx sy sz x y z c).
Proof.
  intros bpv Hs He Hk Hbpv HT Hx Hy Hz HLb HLb32 (HLd & Hlay) Hsh Hl0.
  pose proof (clip_facts bpv bsx bsy bsz cx cy cz sx sy sz ex ey ez Hbpv Hx Hy Hz)
    as ((Hbsx & Hbsy & Hbsz) & (? & ? & ? & ?) & (? & ? & ? & ?) & (? & ? & ? & ?)).
  pose proof (transferBlock_rows_eval PutOp v key blockV bsx bsy bsz cx cy cz
                sx sy sz ex ey ez Hs He Hk Hbpv HT Hx Hy Hz) as [Wxy Wxz].
  fold bpv in Wxy, Wxz.
  assert (Hv0 : forall b1 : list byte,
            StartPoint (geom (set_data v d0)) = [sx; sy; sz]
            /\ EndPoint (geom (set_data v d0)) = [ex; ey; ez]
            /\ BytesPerVoxel (values (set_data v d0)) = bpv
            /\ stride (set_data v d0) = stride v
            /\ geom_DataShape (geom (set_data v d0)) = geom_DataShape (geom v)
            /\ data (set_data v d0) = d0) by (intros; repeat split; assumption).
  pose proof (transferBlock_rows_eval GetOp (set_data v d0) key) as Reval.
  cbn [set_data values geom stride data] in Reval. fold bpv in Reval.
  unfold WriteToBlock, ReadFromBlock, view_index. fold bpv.
  destruct Hsh as [Hsh | Hsh];
    destruct Hlay as [(Hsh' & Hw & Hh) | [(Hsh' & Hw & Hh) | [(Hsh' & Hw & Hh) | (Hsh' & _)]]];
    try (rewrite Hsh in Hsh'; discriminate Hsh'); fold bpv in Hw.
  - (* XY *)
    rewrite (Wxy Hsh).
    destruct (width_fits bpv (stride v) (ex - sx + 1)
                (Z.max sx (cx * bsx) - sx
                 + (Z.min ex (cx * bsx + bsx - 1) - Z.max sx (cx * bsx) + 1))
                Hbpv Hw ltac:(lia)) as [HdX Hrun].
    destruct (data_offset_nowrap bpv (stride v) (ey - sy + 1) (Z.of_nat (length (data v)))
                Hbpv HdX Hh HLd (Z.max sy (cy * bsy) - sy) (Z.max sx (cx * bsx) - sx)
                (Z.min ex (cx * bsx + bsx - 1) - Z.max sx (cx * bsx) + 1))
      as (EdI & _ & _); [lia | lia | lia | exact Hrun |].
    destruct (rows_loop_roundtrip
                (trips (Z.max sy (cy * bsy) - sy) (Z.min ey (cy * bsy + bsy - 1) - sy))
                (bsx * bpv) (stride v)
                ((Z.min ex (cx * bsx + bsx - 1) - Z.max sx (cx * bsx) + 1) * bpv)
                ((Z.max sz (cz * bsz) - cz * bsz) * (bsy * (bsx * bpv))
                 + (Z.max sy (cy * bsy) - cy * bsy) * (bsx * bpv)
                 + (Z.max sx (cx * bsx) - cx * bsx) * bpv)
                ((Z.max sy (cy * bsy) - sy) * stride v + (Z.max sx (cx * bsx) - sx) * bpv)
                (data v) d0 blockV)
      as (b1 & d2 & Hw1 & Hr1 & Hl1 & Hl2 & Hc & _).
    { apply (rows_fit_block bpv bsx bsy bsz _ _ _ _ _ _ false); unfold trips; try lia. }
    { apply rows_fit_view with (H := ey - sy + 1); unfold trips; try lia; exact Hrun. }
    { exact Hl0. }
    exists b1, d2. rewrite EdI, Hw1. cbn [mbind outcome_bind mret outcome_ret].
    split; [reflexivity|].
    destruct (Reval b1 bsx bsy bsz cx cy cz sx sy sz ex ey ez Hs He Hk Hbpv HT Hx Hy Hz)
      as [Rxy _].
    rewrite (Rxy Hsh), EdI, Hr1. cbn [mbind outcome_bind mret outcome_ret].
    split; [reflexivity|]. split; [exact Hl1|]. split; [exact Hl2|].
    intros x y z c Hxr Hyr Hzr Hcr. rewrite Hsh. change (Equals XY XY) with true.
    cbv iota.
    specialize (Hc (Z.to_nat (y - Z.max sy (cy * bsy)))
                  ((x - Z.max sx (cx * bsx)) * bpv + c)).
    replace ((Z.max sy (cy * bsy) - sy) * stride v + (Z.max sx (cx * bsx) - sx) * bpv
             + Z.of_nat (Z.to_nat (y - Z.max sy (cy * bsy))) * stride v
             + ((x - Z.max sx (cx * bsx)) * bpv + c))
      with ((y - sy) * stride v + (x - sx) * bpv + c) in Hc
      by (rewrite Z2Nat.id by lia; ring).
    split; [|apply Hc; unfold trips; [lia | apply run_pos; lia]].
    apply (view_pos_in_buf bpv (stride v) (ey - sy + 1) _ (y - sy) (x - sx) (ex - sx + 1));
      lia.
  - (* XZ *)
    rewrite (Wxz Hsh).
    destruct (width_fits bpv (stride v) (ex - sx + 1)
                (Z.max sx (cx * bsx) - sx
                 + (Z.min ex (cx * bsx + bsx - 1) - Z.max sx (cx * bsx) + 1))
                Hbpv Hw ltac:(lia)) as [HdX Hrun].
    destruct (data_offset_nowrap bpv (stride v) (ez - sz + 1) (Z.of_nat (length (data v)))
                Hbpv HdX Hh HLd (Z.max sz (cz * bsz) - sz) (Z.max sx (cx * bsx) - sx)
                (Z.min ex (cx * bsx + bsx - 1) - Z.max sx (cx * bsx) + 1))
      as (EdI & _ & _); [lia | lia | lia | exact Hrun |].
    destruct (rows_loop_roundtrip
                (trips (Z.max sz (cz * bsz) - sz) (Z.min ez (cz * bsz + bsz - 1) - sz))
                (bsy * (bsx * bpv)) (stride v)
                ((Z.min ex (cx * bsx + bsx - 1) - Z.max sx (cx * bsx) + 1) * bpv)
                ((Z.max sz (cz * bsz) - cz * bsz) * (bsy * (bsx * bpv))
                 + (Z.max sy (cy * bsy) - cy * bsy) * (bsx * bpv)
                 + (Z.max sx (cx * bsx) - cx * bsx) * bpv)
                ((Z.max sz (cz * bsz) - sz) * stride v + (Z.max sx (cx * bsx) - sx) * bpv)
                (data v) d0 blockV)
      as (b1 & d2 & Hw1 & Hr1 & Hl1 & Hl2 & Hc & _).
    { apply (rows_fit_block bpv bsx bsy bsz _ _ _ _ _ _ true); unfold trips; try lia. }
    { apply rows_fit_view with (H := ez - sz + 1); unfold trips; try lia; exact Hrun. }
    { exact Hl0. }
    exists b1, d2. rewrite EdI, Hw1. cbn [mbind outcome_bind mret outcome_ret].
    split; [reflexivity|].
    destruct (Reval b1 bsx bsy bsz cx cy cz sx sy sz ex ey ez Hs He Hk Hbpv HT Hx Hy Hz)
      as [_ Rxz].
    rewrite (Rxz Hsh), EdI, Hr1. cbn [mbind outcome_bind mret outcome_ret].
    split; [reflexivity|]. split; [exact Hl1|]. split; [exact Hl2|].
    intros x y z c Hxr Hyr Hzr Hcr. rewrite Hsh.
    change (Equals XZ XY) with false. change (Equals XZ XZ) with true. cbv iota.
    specialize (Hc (Z.to_nat (z - Z.max sz (cz * bsz)))
                  ((x - Z.max sx (cx * bsx)) * bpv + c)).
    replace ((Z.max sz (cz * bsz) - sz) * stride v + (Z.max sx (cx * bsx) - sx) * bpv
             + Z.of_nat (Z.to_nat (z - Z.max sz (cz * bsz))) * stride v
             + ((x - Z.max sx (cx * bsx)) * bpv + c))
      with ((z - sz) * stride v + (x - sx) * bpv + c) in Hc
      by (rewrite Z2Nat.id by lia; ring).
    split; [|apply Hc; unfold trips; [lia | apply run_pos; lia]].
    apply (view_pos_in_buf bpv (stride v) (ez - sz + 1) _ (z - sz) (x - sx) (ex - sx + 1));
      lia.
Qed.

(** ** The loops as sequences of copy statements *)

Lemma copy_runs_app dir bytes (a b : list (Z * Z)) (bufs : list byte * list byte) :
  copy_runs dir bytes (a ++ b) bufs
  = (bufs' ← copy_runs dir bytes a bufs; copy_runs dir bytes b bufs').
Proof.
  revert bufs. induction a as [|[dataI blockI] a IH]; intros bufs;
    cbn [app copy_runs mbind outcome_bind mret outcome_ret]; [reflexivity|].
  destruct (copy_run dir dataI blockI bytes bufs) as [b1|];
    cbn [mbind outcome_bind]; [apply IH | reflexivity].
Qed.

Lemma rows_runs_S (n : nat) (bstep dstep blockI dataI : Z) :
  rows_runs (S n) bstep dstep blockI dataI
  = (dataI, blockI) :: rows_runs n bstep dstep (add32 blockI bstep) (add32 dataI dstep).
Proof.
  unfold rows_runs. cbn [seq fmap list_fmap row_start]. f_equal.
  rewrite <- seq_shift, <- list_fmap_compose. reflexivity.
Qed.

Lemma rows_loop_runs n dir bstep dstep bytes blockI dataI (bufs : list byte * list byte) :
  rows_loop n dir bstep dstep bytes blockI dataI bufs
  = copy_runs dir bytes (rows_runs n bstep dstep blockI dataI) bufs.
Proof.
  revert blockI dataI bufs. induction n as [|n IH]; intros blockI dataI bufs.
  - reflexivity.
  - rewrite rows_runs_S. cbn [rows_loop copy_runs].
    destruct (copy_run dir dataI blockI bytes bufs) as [b1|];
      cbn [mbind outcome_bind]; [apply IH | reflexivity].
Qed.

Lemma yz_runs_S (n inner : nat) (bX bY dX bpv bb1 bb0 db1 y bz : Z) :
  yz_runs (S n) inner bX bY dX bpv bb1 bb0 db1 y bz
  = rows_runs inner bX bpv
      (add32 (add32 (mul32 bz bY) (mul32 bb1 bX)) (mul32 bb0 bpv))
      (add32 (mul32 y dX) (mul32 db1 bpv))
    ++ yz_runs n inner bX bY dX bpv bb1 bb0 db1 (add32 y 1) (add32 bz 1).
Proof.
  unfold yz_runs. cbn [seq fmap list_fmap mjoin list_join row_start]. f_equal.
  rewrite <- seq_shift, <- list_fmap_compose. reflexivity.
Qed.

Lemma yz_loop_runs n dir inner bX bY dX bpv bb1 bb0 db1 y bz
    (bufs : list byte * list byte) :
  yz_loop n dir inner bX bY dX bpv bb1 bb0 db1 y bz bufs
  = copy_runs dir bpv (yz_runs n inner bX bY dX bpv bb1 bb0 db1 y bz) bufs.
Proof.
  revert y bz bufs. induction n as [|n IH]; intros y bz bufs.
  - reflexivity.
  - rewrite yz_runs_S, copy_runs_app. cbn [yz_loop]. rewrite rows_loop_runs.
    destruct (copy_runs dir bpv _ bufs) as [b1|]; cbn [mbind outcome_bind];
      [apply IH | reflexivity].
Qed.

Lemma copy_runs_swap bytes (runs : list (Z * Z)) (dat blk : list byte) :
  copy_runs ToData bytes runs (dat, blk)
  = match copy_runs ToBlock bytes ((fun r => (snd r, fst r)) <$> runs) (blk, dat) with
    | Returns (b, a) => Returns (a, b)
    | Panics => Panics
    end.
Proof.
  revert dat blk. induction runs as [|[dataI blockI] runs IH]; intros dat blk;
    cbn [fmap list_fmap copy_runs fst snd]; [reflexivity|].
  rewrite copy_run_swap.
  destruct (copy_run ToBlock blockI dataI bytes (blk, dat)) as [[b1 d1]|];
    cbn [mbind outcome_bind]; [apply IH | reflexivity].
Qed.

(** Runs copied into the block: every run is within both buffers, and two
    runs either are the same or lie apart in the block. *)
Lemma copy_runs_ToBlock_content bytes (runs : list (Z * Z)) (dat blk : list byte) :
  0 <= bytes ->
  (forall d b, (d, b) ∈ runs ->
     (0 <= b /\ add32 b bytes = b + bytes /\ b + bytes <= Z.of_nat (length blk))
     /\ (0 <= d /\ add32 d bytes = d + bytes /\ d + bytes <= Z.of_nat (length dat))) ->
  (forall d b d' b', (d, b) ∈ runs -> (d', b') ∈ runs ->
     (d, b) = (d', b') \/ b + bytes <= b' \/ b' + bytes <= b) ->
  exists blk',
    copy_runs ToBlock bytes runs (dat, blk) = Returns (dat, blk')
    /\ length blk' = length blk
    /\ (forall d b j, (d, b) ∈ runs -> 0 <= j < bytes ->
          blk' !! Z.to_nat (b + j) = dat !! Z.to_nat (d + j))
    /\ (forall i : nat,
          (forall d b, (d, b) ∈ runs -> ~ (b <= Z.of_nat i < b + bytes)) ->
          blk' !! i = blk !! i).
Proof.
  intros Hbytes. revert blk.
  induction runs as [|[dataI blockI] runs IH]; intros blk Hin Hdis;
    cbn [copy_runs mret outcome_ret].
  - exists blk. split; [reflexivity|]. split; [reflexivity|].
    split; [intros d b j Hr; apply elem_of_nil in Hr; contradiction
           | intros; reflexivity].
  - destruct (Hin dataI blockI ltac:(left)) as [(Hb0 & Eb & Hb1) (Hd0 & Ed & Hd1)].
    unfold copy_run. rewrite Eb, Ed.
    destruct (go_copy blk blockI (blockI + bytes) dat dataI (dataI + bytes))
      as [b1|] eqn:Ec.
    2:{ exfalso. unfold go_copy, slice_ok in Ec.
        destruct (Z.leb_spec 0 blockI), (Z.leb_spec blockI (blockI + bytes)),
          (Z.leb_spec (blockI + bytes) (Z.of_nat (length blk))),
          (Z.leb_spec 0 dataI), (Z.leb_spec dataI (dataI + bytes)),
          (Z.leb_spec (dataI + bytes) (Z.of_nat (length dat))); cbn in Ec;
          try discriminate; lia. }
    cbn [mbind outcome_bind mret outcome_ret].
    pose proof (go_copy_frame _ _ _ _ _ _ _ Ec) as [Hl1 Hf1].
    pose proof (go_copy_content _ _ _ _ _ _ Hbytes Ec) as Hc1.
    destruct (IH b1) as (b2 & -> & Hl2 & Hc2 & Hf2).
    { intros d b Hr. rewrite Hl1. apply Hin. right. exact Hr. }
    { intros d b d' b' Hr Hr'. apply Hdis; right; assumption. }
    exists b2. split; [reflexivity|]. split; [congruence|]. split.
    + intros d b j Hr Hj. apply elem_of_cons in Hr.
      destruct (decide ((d, b) ∈ runs)) as [Hmem|Hnot]; [apply Hc2; assumption|].
      destruct Hr as [[= -> ->] | Hr]; [|contradiction].
      rewrite Hf2.
      * apply Hc1, Hj.
      * intros d' b' Hr' Hov.
        destruct (Hdis dataI blockI d' b' ltac:(left) ltac:(right; exact Hr'))
          as [[= <- <-] | Hd]; [contradiction | lia].
    + intros i Hi. rewrite Hf2.
      * apply Hf1. intros Hr. apply (Hi dataI blockI ltac:(left)). lia.
      * intros d b Hr. apply (Hi d b). right. exact Hr.
Qed.

(** Runs written into the block and read back into another buffer. *)
Lemma copy_runs_roundtrip bytes (runs : list (Z * Z)) (dat d0 blk : list byte) :
  0 <= bytes ->
  (forall d b, (d, b) ∈ runs ->
     (0 <= b /\ add32 b bytes = b + bytes /\ b + bytes <= Z.of_nat (length blk))
     /\ (0 <= d /\ add32 d bytes = d + bytes /\ d + bytes <= Z.of_nat (length dat))) ->
  (forall d b d' b', (d, b) ∈ runs -> (d', b') ∈ runs ->
     (d, b) = (d', b')
     \/ ((b + bytes <= b' \/ b' + bytes <= b) /\ (d + bytes <= d' \/ d' + bytes <= d))) ->
  length d0 = length dat ->
  exists b1 d2,
    copy_runs ToBlock bytes runs (dat, blk) = Returns (dat, b1)
    /\ copy_runs ToData bytes runs (d0, b1) = Returns (d2, b1)
    /\ length b1 = length blk /\ length d2 = length d0
    /\ forall d b j, (d, b) ∈ runs -> 0 <= j < bytes ->
         d2 !! Z.to_nat (d + j) = dat !! Z.to_nat (d + j).
Proof.
  intros Hbytes Hin Hdis Hl0.
  destruct (copy_runs_ToBlock_content bytes runs dat blk Hbytes Hin)
    as (b1 & Hw & Hl1 & Hc1 & _).
  { intros d b d' b' Hr Hr'. destruct (Hdis d b d' b' Hr Hr') as [E | [Hb _]]; auto. }
  destruct (copy_runs_ToBlock_content bytes ((fun r => (snd r, fst r)) <$> runs) b1 d0
              Hbytes) as (d2 & Hr & Hl2 & Hc2 & _).
  { intros b d Hm. apply list_elem_of_fmap in Hm. destruct Hm as ([d' b'] & E & Hm). cbn [fst snd] in E. injection E as -> ->.
    cbn [fst snd]. rewrite Hl0, Hl1. destruct (Hin d' b' Hm) as [? ?]. split; assumption. }
  { intros b d b' d' Hm Hm'.
    apply list_elem_of_fmap in Hm. destruct Hm as ([x y] & E & Hm). cbn [fst snd] in E. injection E as -> ->.
    apply list_elem_of_fmap in Hm'. destruct Hm' as ([x' y'] & E & Hm'). cbn [fst snd] in E. injection E as -> ->.
    cbn [fst snd]. destruct (Hdis x y x' y' Hm Hm') as [[= -> ->] | [_ Hd]]; auto. }
  exists b1, d2. split; [exact Hw|]. split.
  { rewrite copy_runs_swap, Hr. reflexivity. }
  split; [exact Hl1|]. split; [exact Hl2|].
  intros d b j Hm Hj.
  rewrite (Hc2 b d j); [apply Hc1; assumption | | exact Hj].
  apply list_elem_of_fmap. exists (d, b). split; [reflexivity | exact Hm].
Qed.

Lemma rows_runs_elem (n : nat) (bstep dstep blockI dataI d b : Z) :
  (d, b) ∈ rows_runs n bstep dstep blockI dataI
  <-> exists k : nat, (k < n)%nat /\ d = row_start k dataI dstep
                      /\ b = row_start k blockI bstep.
Proof.
  unfold rows_runs. rewrite list_elem_of_fmap. split.
  - intros (k & [= -> ->] & Hk). apply elem_of_seq in Hk. exists k. split; [lia | auto].
  - intros (k & Hk & -> & ->). exists k. split; [reflexivity|].
    apply elem_of_seq. lia.
Qed.

Lemma yz_runs_elem (n inner : nat) (bX bY dX bpv bb1 bb0 db1 y bz d b : Z) :
  (d, b) ∈ yz_runs n inner bX bY dX bpv bb1 bb0 db1 y bz
  <-> exists j k : nat,
        (j < n)%nat /\ (k < inner)%nat
        /\ d = row_start k (add32 (mul32 (row_start j y 1) dX) (mul32 db1 bpv)) bpv
        /\ b = row_start k (add32 (add32 (mul32 (row_start j bz 1) bY) (mul32 bb1 bX))
                                  (mul32 bb0 bpv)) bX.
Proof.
  unfold yz_runs. rewrite list_elem_of_join. split.
  - intros (l & Hl & Hm). apply list_elem_of_fmap in Hm. destruct Hm as (j & -> & Hj).
    apply elem_of_seq in Hj. apply rows_runs_elem in Hl. destruct Hl as (k & Hk & -> & ->).
    exists j, k. repeat split; lia || reflexivity.
  - intros (j & k & Hj & Hk & -> & ->). eexists. split.
    + apply rows_runs_elem. exists k. split; [exact Hk|]. split; reflexivity.
    + apply list_elem_of_fmap. exists j. split; [reflexivity|]. apply elem_of_seq. lia.
Qed.

(** Two voxels of a block lie apart, and so do two voxels of a view. *)
Lemma scaled_step (a s : Z) : 1 <= a -> 0 <= s -> s <= a * s.
Proof. intros Ha Hs. nia. Qed.

Lemma scaled_back (a m s : Z) : - m <= a -> 0 <= s -> - (m * s) <= a * s.
Proof. intros Ha Hs. nia. Qed.

Lemma block_voxels_apart (bpv bsx bsy x z y z' y' : Z) :
  0 < bpv -> 0 < bsx -> 0 <= y < bsy -> 0 <= y' < bsy ->
  (z, y) <> (z', y') ->
  let B := z * (bsy * (bsx * bpv)) + y * (bsx * bpv) + x * bpv in
  let B' := z' * (bsy * (bsx * bpv)) + y' * (bsx * bpv) + x * bpv in
  B + bpv <= B' \/ B' + bpv <= B.
Proof.
  intros Hbpv Hbsx Hy Hy' Hne. cbv zeta.
  assert (HbX : bpv <= bsx * bpv) by nia.
  set (bX := bsx * bpv) in *.
  assert (HbY : 0 <= bsy * bX) by (apply Z.mul_nonneg_nonneg; lia).
  assert (HbYX : bsy * bX = (bsy - 1) * bX + bX) by lia.
  set (bY := bsy * bX) in *.
  destruct (Z.lt_trichotomy z z') as [Hz | [Hz | Hz]].
  - left. pose proof (scaled_step (z' - z) bY ltac:(lia) HbY).
    pose proof (scaled_back (y' - y) (bsy - 1) bX ltac:(lia) ltac:(lia)). lia.
  - subst z'. destruct (Z.lt_trichotomy y y') as [Hyy | [Hyy | Hyy]].
    + left. pose proof (scaled_step (y' - y) bX ltac:(lia) ltac:(lia)). lia.
    + subst y'. contradiction Hne. reflexivity.
    + right. pose proof (scaled_step (y - y') bX ltac:(lia) ltac:(lia)). lia.
  - right. pose proof (scaled_step (z - z') bY ltac:(lia) HbY).
    pose proof (scaled_back (y - y') (bsy - 1) bX ltac:(lia) ltac:(lia)). lia.
Qed.

Lemma view_voxels_apart (bpv dX W r y r' y' : Z) :
  0 < bpv -> W * bpv <= dX -> 0 <= y < W -> 0 <= y' < W ->
  (r, y) <> (r', y') ->
  let D := r * dX + y * bpv in
  let D' := r' * dX + y' * bpv in
  D + bpv <= D' \/ D' + bpv <= D.
Proof.
  intros Hbpv HW Hy Hy' Hne. cbv zeta.
  assert (HdX : 0 <= dX) by nia.
  assert (HWs : W * bpv = (W - 1) * bpv + bpv) by lia.
  destruct (Z.lt_trichotomy r r') as [Hr | [Hr | Hr]].
  - left. pose proof (scaled_step (r' - r) dX ltac:(lia) HdX).
    pose proof (scaled_back (y' - y) (W - 1) bpv ltac:(lia) ltac:(lia)). lia.
  - subst r'. destruct (Z.lt_trichotomy y y') as [Hyy | [Hyy | Hyy]].
    + left. pose proof (scaled_step (y' - y) bpv ltac:(lia) ltac:(lia)). lia.
    + subst y'. contradiction Hne. reflexivity.
    + right. pose proof (scaled_step (y - y') bpv ltac:(lia) ltac:(lia)). lia.
  - right. pose proof (scaled_step (r - r') dX ltac:(lia) HdX).
    pose proof (scaled_back (y - y') (W - 1) bpv ltac:(lia) ltac:(lia)). lia.
Qed.

(** The positions of the copy statements of the YZ loops, free of int32
    arithmetic: run [(j, k)] is the voxel [k] of row [j]. *)
Lemma yz_block_pos (bpv bsx bsy bsz cx cy cz sx sy sz ex ey ez : Z) (j k : nat) :
  0 < bpv -> bpv * bsx * bsy * bsz <= MaxInt32 ->
  axis_ok cx bsx sx ex -> axis_ok cy bsy sy ey -> axis_ok cz bsz sz ez ->
  let bvx := Z.max sx (cx * bsx) in
  let bvy := Z.max sy (cy * bsy) in
  let bvz := Z.max sz (cz * bsz) in
  let evy := Z.min ey (cy * bsy + bsy - 1) in
  let evz := Z.min ez (cz * bsz + bsz - 1) in
  (j < trips (bvz - sz) (evz - sz))%nat ->
  (k < trips (bvy - sy) (evy - sy))%nat ->
  row_start k
    (add32 (add32 (mul32 (row_start j (bvz - cz * bsz) 1) (bsy * (bsx * bpv)))
                  (mul32 (bvy - cy * bsy) (bsx * bpv)))
           (mul32 (bvx - cx * bsx) bpv))
    (bsx * bpv)
  = (bvz - cz * bsz + Z.of_nat j) * (bsy * (bsx * bpv))
    + (bvy - cy * bsy + Z.of_nat k) * (bsx * bpv) + (bvx - cx * bsx) * bpv.
Proof.
  intros Hbpv HT Hx Hy Hz. cbv zeta. intros Hj Hk.
  pose proof (clip_facts bpv bsx bsy bsz cx cy cz sx sy sz ex ey ez Hbpv Hx Hy Hz)
    as ((? & ? & ?) & (? & ? & ? & ?) & (? & ? & ? & ?) & (? & ? & ? & ?)).
  unfold trips in Hj, Hk.
  rewrite row_start_count by (unfold axis_ok, MaxInt32, MinInt32 in *; lia).
  destruct (offset_nowrap bpv bsx bsy bsz cx cy cz sx sy sz ex ey ez Hbpv HT Hx Hy Hz
              (Z.max sz (cz * bsz) - cz * bsz + Z.of_nat j)
              (Z.max sy (cy * bsy) - cy * bsy)) as [Eo _]; [lia | lia |].
  rewrite Eo.
  rewrite row_start_small; [ring|].
  intros m Hm.
  replace ((Z.max sz (cz * bsz) - cz * bsz + Z.of_nat j) * (bsy * (bsx * bpv))
           + (Z.max sy (cy * bsy) - cy * bsy) * (bsx * bpv)
           + (Z.max sx (cx * bsx) - cx * bsx) * bpv
           + Z.of_nat m * (bsx * bpv))
    with ((Z.max sz (cz * bsz) - cz * bsz + Z.of_nat j) * (bsy * (bsx * bpv))
          + (Z.max sy (cy * bsy) - cy * bsy + Z.of_nat m) * (bsx * bpv)
          + (Z.max sx (cx * bsx) - cx * bsx) * bpv)
    by ring.
  apply (offset_nowrap bpv bsx bsy bsz cx cy cz sx sy sz ex ey ez Hbpv HT Hx Hy Hz);
    lia.
Qed.

Lemma yz_data_pos (bpv dX H L r0 y0 ny : Z) (j k : nat) :
  0 < bpv -> 0 <= dX -> dX * H <= L -> L <= MaxInt32 ->
  0 <= r0 -> r0 + Z.of_nat j < H -> 0 <= y0 -> y0 + Z.of_nat k < ny -> ny * bpv <= dX ->
  row_start k (add32 (mul32 (row_start j r0 1) dX) (mul32 y0 bpv)) bpv
  = (r0 + Z.of_nat j) * dX + (y0 + Z.of_nat k) * bpv.
Proof.
  intros Hbpv HdX HL HL32 Hr0 Hj Hy0 Hk Hrun.
  assert (HH : H <= 2 ^ 31).
  { destruct (Z.eq_dec dX 0) as [->|]; [nia|]. unfold MaxInt32 in *. nia. }
  rewrite row_start_count by lia.
  destruct (data_offset_nowrap bpv dX H L Hbpv HdX HL HL32 (r0 + Z.of_nat j) y0 1)
    as (-> & _ & _); try nia.
  rewrite row_start_small; [ring|].
  intros m Hm.
  replace ((r0 + Z.of_nat j) * dX + y0 * bpv + Z.of_nat m * bpv)
    with ((r0 + Z.of_nat j) * dX + (y0 + Z.of_nat m) * bpv) by ring.
  destruct (data_offset_nowrap bpv dX H L Hbpv HdX HL HL32
              (r0 + Z.of_nat j) (y0 + Z.of_nat m) 1)
    as (_ & _ & Hb); try nia.
  unfold in_buf, MaxInt32 in *. lia.
Qed.

Lemma add32_plain (a b : Z) : 0 <= a -> 0 <= b -> a + b <= MaxInt32 -> add32 a b = a + b.
Proof.
  intros Ha Hb Hab. unfold add32, MaxInt32 in *. apply wrap32_small. lia.
Qed.

(** The transfer of a YZ slice is a sequence of copies of one voxel. *)
Lemma transferBlock_yz_eval
    (op : OpType) (v : Voxels) (key : datastore.DataKey) (blockV : list byte)
    (bsx bsy bsz cx cy cz sx sy sz ex ey ez : Z) :
  let bpv := BytesPerVoxel (values v) in
  let bvx := Z.max sx (cx * bsx) in
  let bvy := Z.max sy (cy * bsy) in
  let bvz := Z.max sz (cz * bsz) in
  let evy := Z.min ey (cy * bsy + bsy - 1) in
  let evz := Z.min ez (cz * bsz + bsz - 1) in
  let dir := match op with GetOp => ToData | PutOp => ToBlock end in
  StartPoint (geom v) = [sx; sy; sz] -> EndPoint (geom v) = [ex; ey; ez] ->
  datastore.Index key = [cx; cy; cz] ->
  0 < bpv -> bpv * bsx * bsy * bsz <= MaxInt32 ->
  axis_ok cx bsx sx ex -> axis_ok cy bsy sy ey -> axis_ok cz bsz sz ez ->
  geom_DataShape (geom v) = YZ ->
  transferBlock op v (mkBlock (Some key) blockV) [bsx; bsy; bsz]
  = (bufs' ← copy_runs dir bpv
               (yz_runs (trips (bvz - sz) (evz - sz)) (trips (bvy - sy) (evy - sy))
                        (bsx * bpv) (bsy * (bsx * bpv)) (stride v) bpv
                        (bvy - cy * bsy) (bvx - cx * bsx) (bvy - sy)
                        (bvz - sz) (bvz - cz * bsz))
               (data v, blockV);
     mret (Ok bufs')).
Proof.
  intros bpv bvx bvy bvz evy evz dir Hs He Hk Hbpv HT Hx Hy Hz Hsh.
  unfold transferBlock.
  change (3 <? NumDims [bsx; bsy; bsz]) with false. cbv iota.
  unfold ComputeTransform. cbn [K datastore.KeyToPointIndexer].
  rewrite Hs, He, Hk.
  cbn [FirstPoint LastPoint Max Min Sub zip_with fst blockBeg dataBeg dataEnd V].
  fold bpv.
  destruct (axis_facts _ _ _ _ Hx) as (Ex1 & Ex2 & Ex3 & Ex4 & Ex5).
  destruct (axis_facts _ _ _ _ Hy) as (Ey1 & Ey2 & Ey3 & Ey4 & Ey5).
  destruct (axis_facts _ _ _ _ Hz) as (Ez1 & Ez2 & Ez3 & Ez4 & Ez5).
  rewrite Ex1, Ey1, Ez1, Ex2, Ey2, Ez2, Ex3, Ey3, Ez3, Ex4, Ey4, Ez4, Ex5, Ey5, Ez5.
  clear Ex1 Ey1 Ez1 Ex2 Ey2 Ez2 Ex3 Ey3 Ez3 Ex4 Ey4 Ez4 Ex5 Ey5 Ez5.
  repeat (first [rewrite Value_0 | rewrite Value_1 | rewrite Value_2];
          cbn [mbind outcome_bind]).
  pose proof (clip_facts bpv bsx bsy bsz cx cy cz sx sy sz ex ey ez Hbpv Hx Hy Hz)
    as ((Hbsx & Hbsy & Hbsz) & (? & ? & ? & ?) & (? & ? & ? & ?) & (? & ? & ? & ?)).
  destruct (strides_nowrap bpv bsx bsy bsz Hbpv Hbsx Hbsy Hbsz HT) as [EbX EbY].
  rewrite EbX, EbY. rewrite Hsh.
  change (Equals YZ XY) with false. change (Equals YZ XZ) with false.
  change (Equals YZ YZ) with true. cbv iota.
  repeat (first [rewrite Value_0 | rewrite Value_1 | rewrite Value_2];
          cbn [mbind outcome_bind]).
  fold bvx bvy bvz evy evz.
  destruct (Nat.eqb_spec (trips (bvz - sz) (evz - sz)) 0) as [E0|_].
  { exfalso. unfold trips in E0. lia. }
  repeat (first [rewrite Value_0 | rewrite Value_1 | rewrite Value_2];
          cbn [mbind outcome_bind]).
  rewrite yz_loop_runs. reflexivity.
Qed.

(** A YZ slice, written into a block that meets it and read back from that
    block into another buffer of the view. *)
Lemma transferBlock_yz_roundtrip
    (v : Voxels) (key : datastore.DataKey) (blockV d0 : list byte)
    (bsx bsy bsz cx cy cz sx sy sz ex ey ez : Z) :
  let bpv := BytesPerVoxel (values v) in
  StartPoint (geom v) = [sx; sy; sz] -> EndPoint (geom v) = [ex; ey; ez] ->
  datastore.Index key = [cx; cy; cz] ->
  0 < bpv -> bpv * bsx * bsy * bsz <= MaxInt32 ->
  axis_ok cx bsx sx ex -> axis_ok cy bsy sy ey -> axis_ok cz bsz sz ez ->
  bpv * bsx * bsy * bsz <= Z.of_nat (length blockV) ->
  Z.of_nat (length blockV) <= MaxInt32 ->
  view_layout_ok v sx sy sz ex ey ez ->
  geom_DataShape (geom v) = YZ ->
  length d0 = length (data v) ->
  exists b1 d2,
    WriteToBlock v (mkBlock (Some key) blockV) [bsx; bsy; bsz]
    = Returns (Ok (data v, b1))
    /\ ReadFromBlock (set_data v d0) (mkBlock (Some key) b1) [bsx; bsy; bsz]
       = Returns (Ok (d2, b1))
    /\ length b1 = length blockV /\ length d2 = length d0
    /\ forall x y z c,
         Z.max sx (cx * bsx) <= x <= Z.min ex (cx * bsx + bsx - 1) ->
         Z.max sy (cy * bsy) <= y <= Z.min ey (cy * bsy + bsy - 1) ->
         Z.max sz (cz * bsz) <= z <= Z.min ez (cz * bsz + bsz - 1) ->
         0 <= c < bpv ->
         0 <= view_index v sx sy sz x y z c < Z.of_nat (length (data v))
         /\ d2 !! Z.to_nat (view_index v sx sy sz x y z c)
            = data v !! Z.to_nat (view_index v sx sy sz x y z c).
Proof.
  intros bpv Hs He Hk Hbpv HT Hx Hy Hz HLb HLb32 (HLd & Hlay) Hsh Hl0.
  pose proof (clip_facts bpv bsx bsy bsz cx cy cz sx sy sz ex ey ez Hbpv Hx Hy Hz)
    as ((Hbsx & Hbsy & Hbsz) & (? & ? & ? & ?) & (? & ? & ? & ?) & (? & ? & ? & ?)).
  destruct Hlay as [(Hsh' & _) | [(Hsh' & _) | [(_ & Hw & Hh) | (Hsh' & _)]]];
    try (rewrite Hsh in Hsh'; discriminate Hsh').
  fold bpv in Hw.
  destruct (width_fits bpv (stride v) (ey - sy + 1) 0 Hbpv Hw ltac:(lia)) as [HdX _].
  set (bvx := Z.max sx (cx * bsx)) in *.
  set (bvy := Z.max sy (cy * bsy)) in *.
  set (bvz := Z.max sz (cz * bsz)) in *.
  set (evx := Z.min ex (cx * bsx + bsx - 1)) in *.
  set (evy := Z.min ey (cy * bsy + bsy - 1)) in *.
  set (evz := Z.min ez (cz * bsz + bsz - 1)) in *.
  set (nz := trips (bvz - sz) (evz - sz)).
  set (ny := trips (bvy - sy) (evy - sy)).
  set (runs := yz_runs nz ny (bsx * bpv) (bsy * (bsx * bpv)) (stride v) bpv
                 (bvy - cy * bsy) (bvx - cx * bsx) (bvy - sy) (bvz - sz) (bvz - cz * bsz)).
  set (B := fun j k : nat =>
              (bvz - cz * bsz + Z.of_nat j) * (bsy * (bsx * bpv))
              + (bvy - cy * bsy + Z.of_nat k) * (bsx * bpv) + (bvx - cx * bsx) * bpv).
  set (D := fun j k : nat =>
              (bvz - sz + Z.of_nat j) * stride v + (bvy - sy + Z.of_nat k) * bpv).
  assert (Hnz : Z.of_nat nz = evz - bvz + 1) by (unfold nz, trips; lia).
  assert (Hny : Z.of_nat ny = evy - bvy + 1) by (unfold ny, trips; lia).
  assert (EB : forall j k : nat, (j < nz)%nat -> (k < ny)%nat ->
            row_start k
              (add32 (add32 (mul32 (row_start j (bvz - cz * bsz) 1) (bsy * (bsx * bpv)))
                            (mul32 (bvy - cy * bsy) (bsx * bpv)))
                     (mul32 (bvx - cx * bsx) bpv))
              (bsx * bpv)
            = B j k).
  { intros j k Hj Hk'.
    exact (yz_block_pos bpv bsx bsy bsz cx cy cz sx sy sz ex ey ez j k
             Hbpv HT Hx Hy Hz Hj Hk'). }
  assert (ED : forall j k : nat, (j < nz)%nat -> (k < ny)%nat ->
            row_start k (add32 (mul32 (row_start j (bvz - sz) 1) (stride v))
                               (mul32 (bvy - sy) bpv)) bpv
            = D j k).
  { intros j k Hj Hk'.
    apply (yz_data_pos bpv (stride v) (ez - sz + 1) (Z.of_nat (length (data v)))
             (bvz - sz) (bvy - sy) (ey - sy + 1) j k); lia. }
  assert (Hruns : forall d b, (d, b) ∈ runs
            <-> exists j k : nat, (j < nz)%nat /\ (k < ny)%nat /\ d = D j k /\ b = B j k).
  { intros d b. unfold runs. rewrite yz_runs_elem.
    split; intros (j & k & Hj & Hk' & Hd & Hb); exists j, k;
      (split; [exact Hj|]; split; [exact Hk'|]).
    - rewrite (EB j k Hj Hk') in Hb. rewrite (ED j k Hj Hk') in Hd. split; assumption.
    - rewrite (EB j k Hj Hk'), (ED j k Hj Hk'). split; assumption. }
  assert (Hblock : forall j k : nat, (j < nz)%nat -> (k < ny)%nat ->
            0 <= B j k /\ B j k + bpv <= bpv * bsx * bsy * bsz).
  { intros j k Hj Hk'. unfold B.
    pose proof (run_bound bpv bsx bsy bsz (bvx - cx * bsx) 1
                  (bvy - cy * bsy + Z.of_nat k) (bvz - cz * bsz + Z.of_nat j)) as Hb.
    rewrite Z.mul_1_l in Hb. apply Hb; lia. }
  assert (Hdata : forall j k : nat, (j < nz)%nat -> (k < ny)%nat ->
            0 <= D j k /\ D j k + bpv <= Z.of_nat (length (data v))).
  { intros j k Hj Hk'. unfold D.
    pose proof (view_pos_in_buf bpv (stride v) (ez - sz + 1) (Z.of_nat (length (data v)))
                  (bvz - sz + Z.of_nat j) (bvy - sy + Z.of_nat k) (ey - sy + 1) 0
                  Hbpv Hw Hh ltac:(lia) ltac:(lia) ltac:(lia)) as Hlo.
    pose proof (view_pos_in_buf bpv (stride v) (ez - sz + 1) (Z.of_nat (length (data v)))
                  (bvz - sz + Z.of_nat j) (bvy - sy + Z.of_nat k) (ey - sy + 1) (bpv - 1)
                  Hbpv Hw Hh ltac:(lia) ltac:(lia) ltac:(lia)) as Hhi.
    lia. }
  destruct (copy_runs_roundtrip bpv runs (data v) d0 blockV) as
    (b1 & d2 & Hw1 & Hr1 & Hl1 & Hl2 & Hc).
  { lia. }
  { intros d b Hm. apply Hruns in Hm. destruct Hm as (j & k & Hj & Hk' & -> & ->).
    destruct (Hblock j k Hj Hk') as [? ?]. destruct (Hdata j k Hj Hk') as [? ?].
    split; (split; [assumption|]; split; [apply add32_plain; lia | lia]). }
  { intros d b d' b' Hm Hm'.
    apply Hruns in Hm. destruct Hm as (j & k & Hj & Hk' & -> & ->).
    apply Hruns in Hm'. destruct Hm' as (j' & k' & Hj' & Hk'' & -> & ->).
    destruct (decide (j = j' /\ k = k')) as [[-> ->] | Hne]; [left; reflexivity|].
    right. split.
    - apply (block_voxels_apart bpv bsx bsy (bvx - cx * bsx)
               (bvz - cz * bsz + Z.of_nat j) (bvy - cy * bsy + Z.of_nat k)
               (bvz - cz * bsz + Z.of_nat j') (bvy - cy * bsy + Z.of_nat k'));
        try lia.
      intros [= E1 E2]. apply Hne. lia.
    - apply (view_voxels_apart bpv (stride v) (ey - sy + 1)
               (bvz - sz + Z.of_nat j) (bvy - sy + Z.of_nat k)
               (bvz - sz + Z.of_nat j') (bvy - sy + Z.of_nat k'));
        try lia.
      intros [= E1 E2]. apply Hne. lia. }
  { exact Hl0. }
  exists b1, d2.
  unfold WriteToBlock, ReadFromBlock.
  rewrite (transferBlock_yz_eval PutOp v key blockV bsx bsy bsz cx cy cz
             sx sy sz ex ey ez Hs He Hk Hbpv HT Hx Hy Hz Hsh).
  fold bpv bvx bvy bvz evy evz nz ny runs. rewrite Hw1.
  cbn [mbind outcome_bind mret outcome_ret]. split; [reflexivity|].
  pose proof (transferBlock_yz_eval GetOp (set_data v d0) key b1 bsx bsy bsz cx cy cz
                sx sy sz ex ey ez) as Reval.
  cbn [set_data values geom stride data] in Reval.
  rewrite (Reval Hs He Hk Hbpv HT Hx Hy Hz Hsh).
  fold bpv bvx bvy bvz evy evz nz ny runs. rewrite Hr1.
  cbn [mbind outcome_bind mret outcome_ret]. split; [reflexivity|].
  split; [exact Hl1|]. split; [exact Hl2|].
  intros x y z c Hxr Hyr Hzr Hcr. unfold view_index. rewrite Hsh.
  change (Equals YZ XY) with false. change (Equals YZ XZ) with false. cbv iota.
  fold bpv.
  assert (Hidx : (z - sz) * stride v + (y - sy) * bpv
                 = D (Z.to_nat (z - bvz)) (Z.to_nat (y - bvy))).
  { unfold D. rewrite !Z2Nat.id by lia. ring. }
  split.
  - apply (view_pos_in_buf bpv (stride v) (ez - sz + 1) _ (z - sz) (y - sy) (ey - sy + 1));
      lia.
  - rewrite Hidx.
    apply (Hc _ (B (Z.to_nat (z - bvz)) (Z.to_nat (y - bvy))) c); [|exact Hcr].
    apply Hruns. exists (Z.to_nat (z - bvz)), (Z.to_nat (y - bvy)).
    split; [lia|]. split; [lia|]. split; reflexivity.
Qed.

(** A slice of any of the three orientations, written into a block that
    meets it and read back from that block into another buffer of the
    view. *)
Lemma transferBlock_slice_roundtrip
    (v : Voxels) (key : datastore.DataKey) (blockV d0 : list byte)
    (bsx bsy bsz cx cy cz sx sy sz ex ey ez : Z) :
  let bpv := BytesPerVoxel (values v) in
  StartPoint (geom v) = [sx; sy; sz] -> EndPoint (geom v) = [ex; ey; ez] ->
  datastore.Index key = [cx; cy; cz] ->
  0 < bpv -> bpv * bsx * bsy * bsz <= MaxInt32 ->
  axis_ok cx bsx sx ex -> axis_ok cy bsy sy ey -> axis_ok cz bsz sz ez ->
  bpv * bsx * bsy * bsz <= Z.of_nat (length blockV) ->
  Z.of_nat (length blockV) <= MaxInt32 ->
  view_layout_ok v sx sy sz ex ey ez ->
  geom_DataShape (geom v) = XY \/ geom_DataShape (geom v) = XZ
  \/ geom_DataShape (geom v) = YZ ->
  length d0 = length (data v) ->
  exists b1 d2,
    WriteToBlock v (mkBlock (Some key) blockV) [bsx; bsy; bsz]
    = Returns (Ok (data v, b1))
    /\ ReadFromBlock (set_data v d0) (mkBlock (Some key) b1) [bsx; bsy; bsz]
       = Returns (Ok (d2, b1))
    /\ length b1 = length blockV /\ length d2 = length d0
    /\ forall x y z c,
         Z.max sx (cx * bsx) <= x <= Z.min ex (cx * bsx + bsx - 1) ->
         Z.max sy (cy * bsy) <= y <= Z.min ey (cy * bsy + bsy - 1) ->
         Z.max sz (cz * bsz) <= z <= Z.min ez (cz * bsz + bsz - 1) ->
         0 <= c < bpv ->
         0 <= view_index v sx sy sz x y z c < Z.of_nat (length (data v))
         /\ d2 !! Z.to_nat (view_index v sx sy sz x y z c)
            = data v !! Z.to_nat (view_index v sx sy sz x y z c).
Proof.
  intros bpv Hs He Hk Hbpv HT Hx Hy Hz HLb HLb32 Hlay Hsh Hl0.
  destruct Hsh as [Hsh | [Hsh | Hsh]].
  - apply (transferBlock_rows_roundtrip v key blockV d0 bsx bsy bsz cx cy cz
             sx sy sz ex ey ez); auto.
  - apply (transferBlock_rows_roundtrip v key blockV d0 bsx bsy bsz cx cy cz
             sx sy sz ex ey ez); auto.
  - apply (transferBlock_yz_roundtrip v key blockV d0 bsx bsy bsz cx cy cz
             sx sy sz ex ey ez); auto.
Qed.

(** X22. A slice (XY, XZ or YZ) comes back from a block: writing a
    well-formed view into a block that meets it and then
    reading that block into another buffer of the same view both return
    nil, the write leaves the view buffer and the read leaves the block
    buffer as they were, and the buffer read into then holds, at every
    byte of every voxel that the view and the block share, the byte of the
    view that was written.  [view_index] is the position of a voxel's byte
    in the view buffer. *)
Theorem WriteToBlock_ReadFromBlock_slice
    (v : Voxels) (key : datastore.DataKey) (blockV d0 : list byte)
    (bsx bsy bsz cx cy cz sx sy sz ex ey ez : Z) :
  let bpv := BytesPerVoxel (values v) in
  StartPoint (geom v) = [sx; sy; sz] -> EndPoint (geom v) = [ex; ey; ez] ->
  datastore.Index key = [cx; cy; cz] ->
  0 < bpv -> bpv * bsx * bsy * bsz <= MaxInt32 ->
  axis_ok cx bsx sx ex -> axis_ok cy bsy sy ey -> axis_ok cz bsz sz ez ->
  bpv * bsx * bsy * bsz <= Z.of_nat (length blockV) ->
  Z.of_nat (length blockV) <= MaxInt32 ->
  view_layout_ok v sx sy sz ex ey ez ->
  geom_DataShape (geom v) = XY \/ geom_DataShape (geom v) = XZ
  \/ geom_DataShape (geom v) = YZ ->
  length d0 = length (data v) ->
  exists b1 d2,
    WriteToBlock v (mkBlock (Some key) blockV) [bsx; bsy; bsz]
    = Returns (Ok (data v, b1))
    /\ ReadFromBlock (set_data v d0) (mkBlock (Some key) b1) [bsx; bsy; bsz]
       = Returns (Ok (d2, b1))
    /\ length b1 = length blockV /\ length d2 = length d0
    /\ forall x y z c,
         Z.max sx (cx * bsx) <= x <= Z.min ex (cx * bsx + bsx - 1) ->
         Z.max sy (cy * bsy) <= y <= Z.min ey (cy * bsy + bsy - 1) ->
         Z.max sz (cz * bsz) <= z <= Z.min ez (cz * bsz + bsz - 1) ->
         0 <= c < bpv ->
         0 <= view_index v sx sy sz x y z c < Z.of_nat (length (data v))
         /\ d2 !! Z.to_nat (view_index v sx sy sz x y z c)
            = data v !! Z.to_nat (view_index v sx sy sz x y z c).
Proof.
  exact (transferBlock_slice_roundtrip v key blockV d0
           bsx bsy bsz cx cy cz sx sy sz ex ey ez).
Qed.

Lemma WriteToBlock_ReadFromBlock_slice_witness :
  let v := mkVoxels (mkGeometry YZ [2; 2] 4 [1; 0; 1] [1; 1; 2])
             [mkDataValue "uint8" "grayscale"]
             [x01; x02; x03; x04] 2 in
  let key := datastore.mkDataKey 1 1 1 [0; 0; 0] in
  exists b1 d2,
    WriteToBlock v (mkBlock (Some key) (make_bytes 8)) [2; 2; 2]
    = Returns (Ok (data v, b1))
    /\ ReadFromBlock (set_data v (make_bytes 4)) (mkBlock (Some key) b1) [2; 2; 2]
       = Returns (Ok (d2, b1))
    /\ length b1 = length (make_bytes 8) /\ length d2 = length (make_bytes 4)
    /\ forall x y z c,
         Z.max 1 (0 * 2) <= x <= Z.min 1 (0 * 2 + 2 - 1) ->
         Z.max 0 (0 * 2) <= y <= Z.min 1 (0 * 2 + 2 - 1) ->
         Z.max 1 (0 * 2) <= z <= Z.min 2 (0 * 2 + 2 - 1) ->
         0 <= c < BytesPerVoxel (values v) ->
         0 <= view_index v 1 0 1 x y z c < Z.of_nat (length (data v))
         /\ d2 !! Z.to_nat (view_index v 1 0 1 x y z c)
            = data v !! Z.to_nat (view_index v 1 0 1 x y z c).
Proof.
  intros v key.
  apply (WriteToBlock_ReadFromBlock_slice v key (make_bytes 8) (make_bytes 4)
           2 2 2 0 0 0 1 0 1 1 1 2);
    [reflexivity | reflexivity | reflexivity | reflexivity
    | vm_compute; discriminate
    | unfold axis_ok, MinInt32, MaxInt32; lia
    | unfold axis_ok, MinInt32, MaxInt32; lia
    | unfold axis_ok, MinInt32, MaxInt32; lia
    | vm_compute; discriminate
    | vm_compute; discriminate
    | | right; right; reflexivity | reflexivity].
  unfold view_layout_ok. split; [vm_compute; discriminate|].
  right; right; left. split; [reflexivity|]. split; vm_compute; discriminate.
Defined.

(** ** A chunk put and got again *)

Lemma Prod_block (bpv bsx bsy bsz : Z) :
  0 < bpv -> 0 < bsx -> 0 < bsy -> 0 < bsz -> bpv * bsx * bsy * bsz <= MaxInt32 ->
  mul64 (Prod [bsx; bsy; bsz]) bpv = bpv * bsx * bsy * bsz.
Proof.
  intros Hbpv Hx Hy Hz HT. unfold Prod, MaxInt32 in *. cbn [fold_left]. unfold mul64.
  assert (0 < bsx * bsy) by nia.
  assert (bsx * bsy <= bsx * bsy * bsz) by nia.
  assert (bsx * bsy * bsz <= bpv * bsx * bsy * bsz) by nia.
  rewrite (wrap64_small (1 * bsx)) by nia.
  rewrite (wrap64_small (1 * bsx * bsy)) by nia.
  rewrite (wrap64_small (1 * bsx * bsy * bsz)) by nia.
  rewrite wrap64_small by nia. ring.
Qed.

Lemma set_data_same (v : Voxels) : set_data v (data v) = v.
Proof. destruct v. reflexivity. Qed.

(** X23. A chunk that is put can be got: for a slice (XY, XZ or YZ), a
    well-formed view and a block that meets it, and a Snappy library that
    decodes its encoding of the block written, processing the chunk of a
    block that is not stored yet with a put stores a value under the
    block's key
    and leaves the view as it is, and processing the stored value with a
    get into another buffer of the same view fills that buffer, at every
    byte of every voxel that the view and the block share, with the byte
    of the view that was put. *)
Theorem processChunk_put_get
    `{SnappyLib} (d : Data) (e : Voxels) (key : datastore.DataKey) (d0 : list byte)
    (db : gmap (Z * Z * Z * list Z) (list byte))
    (bsx bsy bsz cx cy cz sx sy sz ex ey ez : Z) :
  let bpv := BytesPerVoxel (values e) in
  BlockSize d = [bsx; bsy; bsz] ->
  StartPoint (geom e) = [sx; sy; sz] -> EndPoint (geom e) = [ex; ey; ez] ->
  datastore.Index key = [cx; cy; cz] ->
  0 < bpv -> bpv * bsx * bsy * bsz <= MaxInt32 ->
  axis_ok cx bsx sx ex -> axis_ok cy bsy sy ey -> axis_ok cz bsz sz ez ->
  view_layout_ok e sx sy sz ex ey ez ->
  geom_DataShape (geom e) = XY \/ geom_DataShape (geom e) = XZ
  \/ geom_DataShape (geom e) = YZ ->
  length d0 = length (data e) ->
  (forall b1 : list byte,
     WriteToBlock e (mkBlock (Some key) (make_bytes (bpv * bsx * bsy * bsz)))
       [bsx; bsy; bsz] = Returns (Ok (data e, b1)) ->
     exists enc, snappy_Encode b1 = Ok enc /\ snappy_Decode enc = Ok b1) ->
  exists s d2,
    processChunk d PutOp e (Some key) None db
    = Returns (e, <[key_of key := s]> db)
    /\ processChunk d GetOp (set_data e d0) (Some key)
         (<[key_of key := s]> db !! key_of key) (<[key_of key := s]> db)
       = Returns (set_data e d2, <[key_of key := s]> db)
    /\ length d2 = length d0
    /\ forall x y z c,
         Z.max sx (cx * bsx) <= x <= Z.min ex (cx * bsx + bsx - 1) ->
         Z.max sy (cy * bsy) <= y <= Z.min ey (cy * bsy + bsy - 1) ->
         Z.max sz (cz * bsz) <= z <= Z.min ez (cz * bsz + bsz - 1) ->
         0 <= c < bpv ->
         d2 !! Z.to_nat (view_index e sx sy sz x y z c)
         = data e !! Z.to_nat (view_index e sx sy sz x y z c).
Proof.
  intros bpv HB Hs He Hk Hbpv HT Hx Hy Hz Hlay Hsh Hl0 Hsnappy.
  assert (Hpos : 0 < bsx /\ 0 < bsy /\ 0 < bsz) by (unfold axis_ok in *; lia).
  destruct Hpos as (Hbsx & Hbsy & Hbsz).
  pose proof (Prod_block bpv bsx bsy bsz Hbpv Hbsx Hbsy Hbsz HT) as HP.
  assert (Hlen : Z.of_nat (length (make_bytes (bpv * bsx * bsy * bsz)))
                 = bpv * bsx * bsy * bsz).
  { unfold make_bytes. rewrite length_replicate. nia. }
  destruct (transferBlock_slice_roundtrip e key (make_bytes (bpv * bsx * bsy * bsz)) d0
              bsx bsy bsz cx cy cz sx sy sz ex ey ez Hs He Hk Hbpv HT Hx Hy Hz)
    as (b1 & d2 & Hw & Hr & Hl1 & Hl2 & Hc);
    try assumption; try (rewrite Hlen; lia).
  destruct (Hsnappy b1 Hw) as (enc & Henc & Hdec).
  pose proof (SerializeData_framed b1 enc Snappy CRC32
                ltac:(right; reflexivity) ltac:(right; reflexivity) Henc) as Hser.
  pose proof (DeserializeData_framed enc Snappy CRC32
                ltac:(right; reflexivity) ltac:(right; reflexivity)) as Hdes.
  change (Snappy =? Uncompressed) with false in Hdes. cbv iota in Hdes.
  rewrite Hdec in Hdes.
  eexists. exists d2. split; [|split; [|split; [exact Hl2|]]].
  - unfold processChunk. rewrite HB. fold bpv. rewrite HP.
    destruct (Z.ltb_spec (bpv * bsx * bsy * bsz) 0) as [Hneg|_]; [nia|].
    cbn [mbind outcome_bind mret outcome_ret]. rewrite Hw.
    cbn [mbind outcome_bind mret outcome_ret]. rewrite Hser, set_data_same.
    unfold db_Put. reflexivity.
  - rewrite lookup_insert_eq. unfold processChunk.
    cbn [mbind outcome_bind mret outcome_ret]. rewrite Hdes. cbn [des_data].
    rewrite HB, Hr. cbn [mbind outcome_bind mret outcome_ret].
    destruct e. reflexivity.
  - intros x y z c Hxr Hyr Hzr Hcr. apply Hc; assumption.
Qed.

Lemma processChunk_put_get_witness :
  let d := mkData (datastore.mkDataID "grayscale" 1 1)
             [mkDataValue "uint8" "grayscale"] [2; 2; 2]
             (mkExtents None None None None) in
  let e := mkVoxels (mkGeometry XY [3; 2] 6 [1; 1; 0] [3; 2; 0])
             [mkDataValue "uint8" "grayscale"]
             [x01; x02; x03; x04; x05; x06] 3 in
  let key := datastore.mkDataKey 1 1 7 [0; 0; 0] in
  let db : gmap (Z * Z * Z * list Z) (list byte) := ∅ in
  exists s d2,
    processChunk (H := snappy_reference) d PutOp e (Some key) None db
    = Returns (e, <[key_of key := s]> db)
    /\ processChunk (H := snappy_reference) d GetOp (set_data e (make_bytes 6)) (Some key)
         (<[key_of key := s]> db !! key_of key) (<[key_of key := s]> db)
       = Returns (set_data e d2, <[key_of key := s]> db)
    /\ length d2 = length (make_bytes 6)
    /\ forall x y z c,
         Z.max 1 (0 * 2) <= x <= Z.min 3 (0 * 2 + 2 - 1) ->
         Z.max 1 (0 * 2) <= y <= Z.min 2 (0 * 2 + 2 - 1) ->
         Z.max 0 (0 * 2) <= z <= Z.min 0 (0 * 2 + 2 - 1) ->
         0 <= c < BytesPerVoxel (values e) ->
         d2 !! Z.to_nat (view_index e 1 1 0 x y z c)
         = data e !! Z.to_nat (view_index e 1 1 0 x y z c).
Proof.
  intros d e key db.
  apply (@processChunk_put_get snappy_reference d e key (make_bytes 6) db
           2 2 2 0 0 0 1 1 0 3 2 0);
    [reflexivity | reflexivity | reflexivity | reflexivity | reflexivity
    | vm_compute; discriminate
    | unfold axis_ok, MinInt32, MaxInt32; lia
    | unfold axis_ok, MinInt32, MaxInt32; lia
    | unfold axis_ok, MinInt32, MaxInt32; lia
    | | left; reflexivity | reflexivity | ].
  - unfold view_layout_ok. split; [vm_compute; discriminate|].
    left. split; [reflexivity|]. split; vm_compute; discriminate.
  - intros b1 Hw. vm_compute in Hw. injection Hw as <-.
    exists [x08; x1c; x00; x00; x00; x01; x00; x00; x00; x00].
    split; vm_compute; reflexivity.
Defined.

(** ** Settings *)

Section SettingsFacts.
Variable ToLower : string -> string.

Lemma Settings_loop_app (a b : list string) (config : gmap string ConfigValue) :
  Settings_loop ToLower (a ++ b) config
  = Settings_loop ToLower b (Settings_loop ToLower a config).
Proof.
  revert config. induction a as [|arg a IH]; intros config; cbn [app Settings_loop].
  - reflexivity.
  - destruct (SplitEq arg) as [|k [|v [|x l]]]; apply IH.
Qed.

Lemma Settings_loop_other (args : list string) (config : gmap string ConfigValue)
    (lk : string) :
  Forall (fun arg => forall k v, has_eq k = false -> has_eq v = false ->
                                 ToLower k = lk -> arg <> key_value k v) args ->
  Settings_loop ToLower args config !! lk = config !! lk.
Proof.
  revert config. induction args as [|arg args IH]; intros config Hno;
    cbn [Settings_loop]; [reflexivity|].
  apply Forall_cons in Hno. destruct Hno as [Harg Hno].
  destruct (SplitEq arg) as [|k [|v [|x l]]] eqn:Es; try (apply IH, Hno).
  rewrite (IH _ Hno). apply lookup_insert_ne.
  intros Hk. apply SplitEq_two in Es. destruct Es as (Ea & Hk0 & Hv0).
  exact (Harg k v Hk0 Hv0 Hk Ea).
Qed.

Lemma Settings_GetString_last (cmd : Command) (key : string) :
  (forall pre post k v,
     drop 1 cmd = pre ++ key_value k v :: post ->
     has_eq k = false -> has_eq v = false -> ToLower k = ToLower key ->
     Forall (fun arg => forall k' v', has_eq k' = false -> has_eq v' = false ->
                                     ToLower k' = ToLower key ->
                                     arg <> key_value k' v') post ->
     GetString ToLower (Settings ToLower cmd) key = (v, true, None))
  /\ (Forall (fun arg => forall k' v', has_eq k' = false -> has_eq v' = false ->
                                       ToLower k' = ToLower key ->
                                       arg <> key_value k' v') (drop 1 cmd) ->
      GetString ToLower (Settings ToLower cmd) key = (EmptyString, false, None)).
Proof.
  assert (Hset : Settings ToLower cmd = Some (Settings_loop ToLower (drop 1 cmd) ∅)).
  { unfold Settings. destruct (Nat.ltb_spec 1 (length cmd)); [reflexivity|].
    rewrite drop_ge by lia. reflexivity. }
  rewrite Hset. unfold GetString. split.
  - intros pre post k v -> Hk Hv Hlow Hpost.
    rewrite Settings_loop_app. cbn [Settings_loop].
    rewrite (proj2 (SplitEq_two (key_value k v) k v)) by auto.
    rewrite (Settings_loop_other post _ (ToLower key) Hpost).
    rewrite Hlow, lookup_insert_eq. reflexivity.
  - intros Hno. rewrite (Settings_loop_other _ _ (ToLower key) Hno).
    rewrite lookup_empty. reflexivity.
Qed.
End SettingsFacts.

(** X24. Settings keeps, for each key, the last setting and finds it
    whatever the case of the key: when the arguments after the command name
    hold a setting k=v (neither part holding "=") with no later setting
    whose key has the lower case of [key], GetString of [key] on the
    settings of the command returns v, found and no error, if k and [key]
    have the same lower case; and when no argument after the command name
    is such a setting, it returns not found and no error. *)
Theorem Settings_GetString
    (ToLower : string -> string) (cmd : Command) (key : string)
    (pre post : list string) (k v : string) :
  drop 1 cmd = pre ++ key_value k v :: post ->
  has_eq k = false -> has_eq v = false ->
  Forall (fun arg => forall k' v', has_eq k' = false -> has_eq v' = false ->
                                  ToLower k' = ToLower key ->
                                  arg <> key_value k' v') post ->
  (ToLower k = ToLower key ->
   GetString ToLower (Settings ToLower cmd) key = (v, true, None))
  /\ (ToLower k <> ToLower key ->
      Forall (fun arg => forall k' v', has_eq k' = false -> has_eq v' = false ->
                                      ToLower k' = ToLower key ->
                                      arg <> key_value k' v') pre ->
      GetString ToLower (Settings ToLower cmd) key = (EmptyString, false, None)).
Proof.
  intros Hd Hk Hv Hpost.
  destruct (Settings_GetString_last ToLower cmd key) as [Hlast Hnone]. split.
  - intros Hlow. exact (Hlast pre post k v Hd Hk Hv Hlow Hpost).
  - intros Hlow Hpre. apply Hnone. rewrite Hd. apply Forall_app. split; [exact Hpre|].
    constructor; [|exact Hpost].
    intros k' v' Hk' Hv' Hlow' E.
    assert (Hs : SplitEq (key_value k v) = [k'; v'])
      by (rewrite E; apply SplitEq_two; auto).
    rewrite (proj2 (SplitEq_two (key_value k v) k v)) in Hs by auto.
    injection Hs as <- <-. contradiction.
Qed.

Lemma Settings_GetString_witness :
  let lower := fun s : string => if String.eqb s "Name" then "name"%string else s in
  GetString lower (Settings lower ["put"; "Name=a"; "x"; "name=b"; "uuid=3f"]%string) "Name"
  = ("b"%string, true, None).
Proof.
  intros lower.
  apply (Settings_GetString lower ["put"; "Name=a"; "x"; "name=b"; "uuid=3f"]%string
           "Name" ["Name=a"; "x"]%string ["uuid=3f"]%string "name" "b");
    try reflexivity.
  repeat constructor. intros k' v' Hk' Hv' Hlow E.
  assert (Hs : SplitEq "uuid=3f" = [k'; v']) by (rewrite E; apply SplitEq_two; auto).
  injection Hs as <- <-. vm_compute in Hlow. discriminate.
Defined.

(** ** Byte order *)

Lemma byte_testbit_out (b : byte) (m : Z) :
  ~ (0 <= m < 8) -> Z.testbit (byte_to_Z b) m = false.
Proof.
  intros Hm. destruct (Z.lt_ge_cases m 0) as [Hneg|Hpos].
  - apply Z.testbit_neg_r, Hneg.
  - apply (testbit_above (byte_to_Z b) 8 m); [apply byte_to_Z_range | lia].
Qed.

Lemma byte_of_Z_bits (z : Z) (b : byte) :
  (forall n, 0 <= n < 8 -> Z.testbit z n = Z.testbit (byte_to_Z b) n) ->
  byte_of_Z z = b.
Proof.
  intros Hbits.
  assert (Hz : z mod 256 = byte_to_Z b).
  { apply Z.bits_inj'. intros n Hn. change 256 with (2 ^ 8).
    rewrite Z.testbit_mod_pow2 by lia.
    destruct (Z.ltb_spec n 8) as [Hlt|Hge].
    - apply Hbits. lia.
    - symmetry. apply byte_testbit_out. lia. }
  rewrite <- (byte_of_to_Z b), <- Hz. unfold byte_of_Z, wrap8.
  rewrite Zmod_mod. reflexivity.
Qed.

Ltac word_byte :=
  apply byte_of_Z_bits; intros n Hn;
  rewrite ?Z.shiftr_spec by lia;
  rewrite ?Z.lor_spec; rewrite ?Z.shiftl_spec by lia;
  repeat match goal with
         | |- context [Z.testbit (byte_to_Z ?b) ?m] =>
             rewrite (byte_testbit_out b m) by lia
         end;
  rewrite ?orb_false_r, ?orb_false_l; f_equal; lia.

Lemma BigEndian_PutUint32_Uint32 (b0 b1 b2 b3 : byte) :
  binary.BigEndian_PutUint32 (binary.Uint32 b0 b1 b2 b3) = [b3; b2; b1; b0].
Proof.
  unfold binary.BigEndian_PutUint32, binary.Uint32.
  repeat f_equal; [word_byte..|].
  rewrite <- (Z.shiftr_0_r (Z.lor _ _)). word_byte.
Qed.

Lemma BigEndian_PutUint64_Uint64 (b0 b1 b2 b3 b4 b5 b6 b7 : byte) :
  binary.BigEndian_PutUint64 (binary.Uint64 b0 b1 b2 b3 b4 b5 b6 b7)
  = [b7; b6; b5; b4; b3; b2; b1; b0].
Proof.
  unfold binary.BigEndian_PutUint64, binary.Uint64.
  repeat f_equal; [word_byte..|].
  rewrite <- (Z.shiftr_0_r (Z.lor _ _)). word_byte.
Qed.

Lemma put_slice_zeros (processed group : list byte) (m : nat) :
  put_slice (processed ++ replicate (length group + m) x00)
            (Z.of_nat (length processed)) group
  = (processed ++ group) ++ replicate m x00.
Proof.
  unfold put_slice. rewrite Nat2Z.id.
  rewrite take_app_length.
  rewrite drop_app_ge by lia.
  replace (length processed + length group - length processed)%nat
    with (length group) by lia.
  rewrite drop_replicate.
  replace (length group + m - length group)%nat with m by lia.
  rewrite <- app_assoc. reflexivity.
Qed.

Lemma swap2_loop_groups (fuel : nat) (done_ rest processed : list byte) :
  length processed = length done_ ->
  swap2_loop fuel (Z.of_nat (length done_)) (done_ ++ rest)
             (processed ++ replicate (length rest) x00)
  = processed ++ rev_groups fuel 2 rest.
Proof.
  revert done_ rest processed.
  induction fuel as [|fuel IH]; intros done_ rest processed Hl;
    cbn [swap2_loop rev_groups]; [reflexivity|].
  rewrite length_app.
  destruct (Nat.leb_spec 2 (length rest)) as [H2|H2].
  - destruct (Z.ltb_spec (Z.of_nat (length done_))
                (Z.of_nat (length done_ + length rest) - 1)) as [_|Hge]; [|lia].
    destruct rest as [|d0 [|d1 rest]]; cbn [length] in H2; try lia.
    replace (Z.to_nat (Z.of_nat (length done_) + 1)) with (length done_ + 1)%nat by lia.
    rewrite Nat2Z.id.
    rewrite !lookup_app_r by lia.
    replace (length done_ + 1 - length done_)%nat with 1%nat by lia.
    rewrite Nat.sub_diag. cbn [lookup list_lookup].
    cbn [length replicate].
    rewrite <- Hl.
    rewrite (insert_app_r_alt processed) by lia.
    rewrite Nat.sub_diag. cbn [insert list_insert].
    rewrite (insert_app_r_alt processed) by lia.
    replace (length processed + 1 - length processed)%nat with 1%nat by lia.
    cbn [insert list_insert].
    specialize (IH (done_ ++ [d0; d1]) rest (processed ++ [d1; d0])).
    rewrite !length_app in IH. cbn [length] in IH.
    replace (Z.of_nat (length done_ + 2)) with (Z.of_nat (length processed) + 2) in IH
      by lia.
    rewrite <- !app_assoc in IH. cbn [app] in IH.
    rewrite IH by lia. cbn [take drop rev app]. reflexivity.
  - destruct (Z.ltb_spec (Z.of_nat (length done_))
                (Z.of_nat (length done_ + length rest) - 1)) as [Hlt|_]; [lia|].
    reflexivity.
Qed.

Lemma swap4_loop_groups (fuel : nat) (done_ rest processed : list byte) :
  length processed = length done_ ->
  swap4_loop fuel (Z.of_nat (length done_)) (done_ ++ rest)
             (processed ++ replicate (length rest) x00)
  = processed ++ rev_groups fuel 4 rest.
Proof.
  revert done_ rest processed.
  induction fuel as [|fuel IH]; intros done_ rest processed Hl;
    cbn [swap4_loop rev_groups]; [reflexivity|].
  rewrite length_app.
  destruct (Nat.leb_spec 4 (length rest)) as [H4|H4].
  - destruct (Z.ltb_spec (Z.of_nat (length done_))
                (Z.of_nat (length done_ + length rest) - 3)) as [_|Hge]; [|lia].
    rewrite Nat2Z.id, drop_app_length.
    destruct rest as [|b0 [|b1 [|b2 [|b3 rest]]]]; cbn [length] in H4; try lia.
    cbn [take]. cbv zeta. rewrite BigEndian_PutUint32_Uint32.
    rewrite <- Hl.
    change (length (b0 :: b1 :: b2 :: b3 :: rest))
      with (length [b3; b2; b1; b0] + length rest)%nat.
    rewrite (put_slice_zeros processed [b3; b2; b1; b0] (length rest)).
    specialize (IH (done_ ++ [b0; b1; b2; b3]) rest (processed ++ [b3; b2; b1; b0])).
    rewrite !length_app in IH. cbn [length] in IH.
    replace (Z.of_nat (length done_ + 4)) with (Z.of_nat (length processed) + 4) in IH
      by lia.
    rewrite <- !app_assoc in IH. cbn [app] in IH.
    rewrite <- !app_assoc. cbn [app].
    rewrite IH by lia. cbn [drop rev app]. reflexivity.
  - destruct (Z.ltb_spec (Z.of_nat (length done_))
                (Z.of_nat (length done_ + length rest) - 3)) as [Hlt|_]; [lia|].
    reflexivity.
Qed.

Lemma swap8_loop_groups (fuel : nat) (done_ rest processed : list byte) :
  length processed = length done_ ->
  swap8_loop fuel (Z.of_nat (length done_)) (done_ ++ rest)
             (processed ++ replicate (length rest) x00)
  = processed ++ rev_groups fuel 8 rest.
Proof.
  revert done_ rest processed.
  induction fuel as [|fuel IH]; intros done_ rest processed Hl;
    cbn [swap8_loop rev_groups]; [reflexivity|].
  rewrite length_app.
  destruct (Nat.leb_spec 8 (length rest)) as [H8|H8].
  - destruct (Z.ltb_spec (Z.of_nat (length done_))
                (Z.of_nat (length done_ + length rest) - 7)) as [_|Hge]; [|lia].
    rewrite Nat2Z.id, drop_app_length.
    destruct rest as [|b0 [|b1 [|b2 [|b3 [|b4 [|b5 [|b6 [|b7 rest]]]]]]]];
      cbn [length] in H8; try lia.
    cbn [take]. cbv zeta. rewrite BigEndian_PutUint64_Uint64.
    rewrite <- Hl.
    change (length (b0 :: b1 :: b2 :: b3 :: b4 :: b5 :: b6 :: b7 :: rest))
      with (length [b7; b6; b5; b4; b3; b2; b1; b0] + length rest)%nat.
    rewrite (put_slice_zeros processed [b7; b6; b5; b4; b3; b2; b1; b0] (length rest)).
    specialize (IH (done_ ++ [b0; b1; b2; b3; b4; b5; b6; b7]) rest
                  (processed ++ [b7; b6; b5; b4; b3; b2; b1; b0])).
    rewrite !length_app in IH. cbn [length] in IH.
    replace (Z.of_nat (length done_ + 8)) with (Z.of_nat (length processed) + 8) in IH
      by lia.
    rewrite <- !app_assoc in IH. cbn [app] in IH.
    rewrite <- !app_assoc. cbn [app].
    rewrite IH by lia. cbn [drop rev app]. reflexivity.
  - destruct (Z.ltb_spec (Z.of_nat (length done_))
                (Z.of_nat (length done_ + length rest) - 7)) as [Hlt|_]; [lia|].
    reflexivity.
Qed.

Lemma rev_groups_length (fuel k : nat) (data : list byte) :
  length (rev_groups fuel k data) = length data.
Proof.
  revert data. induction fuel as [|fuel IH]; intros data; cbn [rev_groups].
  - apply length_replicate.
  - destruct (Nat.leb_spec k (length data)) as [Hk|Hk].
    + rewrite length_app, length_rev, length_take, IH, length_drop. lia.
    + apply length_replicate.
Qed.

Lemma rev_groups_nil (fuel k : nat) : (0 < k)%nat -> rev_groups fuel k [] = [].
Proof.
  intros Hk. destruct fuel as [|fuel]; cbn [rev_groups length replicate];
    [reflexivity|].
  destruct (Nat.leb_spec k 0); [lia | reflexivity].
Qed.

(** Reversing the groups twice gives the bytes back, when they make up
    whole groups. *)
Lemma rev_groups_involutive (fuel k n : nat) (data : list byte) :
  (0 < k)%nat -> length data = (n * k)%nat -> (n <= fuel)%nat ->
  rev_groups fuel k (rev_groups fuel k data) = data.
Proof.
  intros Hk. revert n data.
  induction fuel as [|fuel IH]; intros n data Hlen Hn.
  - assert (n = 0)%nat by lia. subst n. destruct data; [reflexivity | discriminate].
  - destruct n as [|n].
    + destruct data; [|discriminate]. rewrite !rev_groups_nil by exact Hk.
      reflexivity.
    + cbn [rev_groups]. destruct (Nat.leb_spec k (length data)) as [Hle|Hgt]; [|lia].
      rewrite length_app, length_rev, length_take, rev_groups_length, length_drop.
      destruct (Nat.leb_spec k (Nat.min k (length data) + (length data - k)));
        [|lia].
      rewrite take_app_length' by (rewrite length_rev, length_take; lia).
      rewrite drop_app_length' by (rewrite length_rev, length_take; lia).
      rewrite rev_involutive.
      rewrite (IH n (drop k data)) by (rewrite ?length_drop; lia).
      apply take_drop.
Qed.

(** X25. littleToBigEndian reverses the bytes of each voxel: the result
    always has the length of the data; for a little-endian handler with
    voxels of 2, 4 or 8 bytes it is the data with every whole group of that
    many bytes reversed (and zero bytes for an incomplete last group), so
    converting twice gives data of whole voxels back; for a handler with no
    byte order, a big-endian one and one-byte voxels it is the data itself;
    and for a little-endian handler with voxels of any other size it is all
    zero bytes. *)
Theorem littleToBigEndian_groups (values : list DataValue)
    (byteOrder : option ByteOrder) (data : list byte) :
  let bpv := BytesPerVoxel values in
  let big := littleToBigEndian values byteOrder data in
  length big = length data
  /\ (byteOrder = Some LittleEndian /\ (bpv = 2 \/ bpv = 4 \/ bpv = 8) ->
      big = rev_groups (length data) (Z.to_nat bpv) data
      /\ (Z.of_nat (length data) mod bpv = 0 ->
          littleToBigEndian values byteOrder big = data))
  /\ (byteOrder <> Some LittleEndian \/ bpv = 1 -> big = data)
  /\ (byteOrder = Some LittleEndian /\ bpv <> 1 /\ bpv <> 2 /\ bpv <> 4 /\ bpv <> 8 ->
      big = replicate (length data) x00).
Proof.
  intros bpv big.
  assert (Hz : make_bytes (Z.of_nat (length data)) = [] ++ replicate (length data) x00).
  { unfold make_bytes. rewrite Nat2Z.id. reflexivity. }
  assert (Hgroups : byteOrder = Some LittleEndian -> bpv = 2 \/ bpv = 4 \/ bpv = 8 ->
            forall d : list byte,
              littleToBigEndian values byteOrder d
              = rev_groups (length d) (Z.to_nat bpv) d).
  { intros -> Hb d. unfold littleToBigEndian. fold bpv.
    assert (Hzd : make_bytes (Z.of_nat (length d)) = [] ++ replicate (length d) x00).
    { unfold make_bytes. rewrite Nat2Z.id. reflexivity. }
    destruct Hb as [-> | [-> | ->]]; cbn [Z.eqb Pos.eqb]; rewrite Hzd.
    - apply (swap2_loop_groups (length d) [] d []). reflexivity.
    - apply (swap4_loop_groups (length d) [] d []). reflexivity.
    - apply (swap8_loop_groups (length d) [] d []). reflexivity. }
  assert (Hother : byteOrder = Some LittleEndian ->
                   bpv <> 1 /\ bpv <> 2 /\ bpv <> 4 /\ bpv <> 8 ->
                   big = replicate (length data) x00).
  { intros -> (H1 & H2 & H4 & H8). unfold big, littleToBigEndian. fold bpv.
    destruct (Z.eqb_spec bpv 1); [contradiction|].
    destruct (Z.eqb_spec bpv 2); [contradiction|].
    destruct (Z.eqb_spec bpv 4); [contradiction|].
    destruct (Z.eqb_spec bpv 8); [contradiction|].
    unfold make_bytes. rewrite Nat2Z.id. reflexivity. }
  assert (Hsame : byteOrder <> Some LittleEndian \/ bpv = 1 -> big = data).
  { intros Hs. unfold big, littleToBigEndian. fold bpv.
    destruct byteOrder as [[|]|]; try reflexivity.
    destruct Hs as [Hs | ->]; [contradiction | reflexivity]. }
  split; [|split; [|split]].
  - assert (Ho : byteOrder = Some LittleEndian \/ byteOrder <> Some LittleEndian)
      by (destruct byteOrder as [[|]|];
          [left; reflexivity | right; discriminate | right; discriminate]).
    destruct Ho as [Ho|Ho]; [|rewrite Hsame by auto; reflexivity].
    destruct (Z.eq_dec bpv 1) as [H1|H1]; [rewrite Hsame by auto; reflexivity|].
    destruct (Z.eq_dec bpv 2) as [H2|H2];
      [unfold big; rewrite (Hgroups Ho) by auto; apply rev_groups_length|].
    destruct (Z.eq_dec bpv 4) as [H4|H4];
      [unfold big; rewrite (Hgroups Ho) by auto; apply rev_groups_length|].
    destruct (Z.eq_dec bpv 8) as [H8|H8];
      [unfold big; rewrite (Hgroups Ho) by auto; apply rev_groups_length|].
    rewrite Hother by auto. apply length_replicate.
  - intros [Ho Hb]. split; [apply (Hgroups Ho Hb)|].
    intros Hmod. unfold big. rewrite !(Hgroups Ho Hb), rev_groups_length.
    apply (rev_groups_involutive _ _ (length data / Z.to_nat bpv)).
    + lia.
    + assert (Hk : (0 < Z.to_nat bpv)%nat) by lia.
      assert (Hm : (length data mod Z.to_nat bpv = 0)%nat).
      { apply Nat2Z.inj. rewrite Nat2Z.inj_mod, Z2Nat.id by lia. exact Hmod. }
      pose proof (Nat.div_mod_eq (length data) (Z.to_nat bpv)). lia.
    + apply Nat.Div0.div_le_upper_bound. nia.
  - exact Hsame.
  - intros [Ho Hb]. exact (Hother Ho Hb).
Qed.
